(** * independ: the dependency resolver, the vulnerability correlator and
      the expiry policy of the [server] package, embedded in Rocq.

    Embedded from the Go sources of package [server]: the registry client
    and resolver (types [VersionInfo], [PackageInfo], [Version];
    [MaxVersion], [NewVersion], [HasMatchingVersion],
    [GatherVulnerabilities], both [GatherDependencies], [MatchPlatform],
    [calcExpire]), the vulnerability feed ([Vulnerability],
    [GetVulnerabilityStats]) and the registry of pending futures of
    [pool.go] ([futureMap.getOrCreate]); further the cache keys, the
    readiness test and the performers of the pools, [ProcessKey], the
    feed client ([GetVulnerabilities], [UpdateVulnerabilities]), the
    sorted listings and the tables of the version page ([view.go]) and
    the HTML trees, their rendering and the spec parser [H] ([html.go]).

    Conventions of the embedding:
    - Go [int] and [int64] are 64-bit two's complement integers: they are
      carried as [Z] and every addition is followed by [wrap64].
    - A Go map that the code updates and reads by key is a [gmap]
      ([Version.Dependencies], [Version.Publishers], [PackageInfo.Time]).
      A Go map that the code ranges over to do work per entry
      ([VersionInfo.Dependencies], [PackageInfo.Versions]) is carried as
      the list of its entries in the order the [range] loop visits them:
      Go leaves that order unspecified, and no theorem below assumes
      anything about it.
    - A pointer receiver that is mutated ([parent *Version]) becomes
      explicit state passing.
    - What comes from outside the process is an input of the run: the
      outcome of the metadata request for a package name, the rows of the
      vulnerability table, the current time.
    - The semantic-version library ([github.com/Masterminds/semver/v3]) is
      not part of the repository: its operations are the fields of the
      class [Semver]. *)

From Stdlib Require Import ZArith QArith Lia Ascii String.
From Stdlib Require DecimalString.
From stdpp Require Import gmap strings list fin_maps sorting.

Local Open Scope string_scope.
Local Open Scope list_scope.
Local Open Scope Z_scope.

(** ** Machine integers *)

Definition wrap64 (z : Z) : Z := (z + 2 ^ 63) mod 2 ^ 64 - 2 ^ 63.

Definition int_add (a b : Z) : Z := wrap64 (a + b).

(** ** Values and errors

    A Go pair [(value, error)] with [error != nil] exactly when the value
    is not to be used. The message is what [err.Error()] returns. *)

Inductive result (A : Type) : Type :=
| Ok (a : A)
| Err (msg : string).
Arguments Ok {A} a.
Arguments Err {A} msg.

(** ** The semver library, as an interface

    [semver_NewVersion] is [semver.NewVersion] (the error is only ever
    tested against nil or logged), [semver_NewConstraint] is
    [semver.NewConstraint] (its error text ends up in [Version.Errors]),
    [semver_Validate c v] is the boolean that [c.Validate(v)] returns,
    [semver_Check] is [c.Check(v)] and [semver_GreaterThan v o] is
    [v.GreaterThan(o)]. *)

Class Semver : Type := {
  SemverVersion : Type;
  Constraints : Type;
  semver_NewVersion : string -> option SemverVersion;
  semver_NewConstraint : string -> result Constraints;
  semver_Validate : Constraints -> SemverVersion -> bool;
  semver_Check : Constraints -> SemverVersion -> bool;
  semver_GreaterThan : SemverVersion -> SemverVersion -> bool
}.

(** Precedence is a strict order: nothing is greater than itself, and
    greater-than composes. *)
Class SemverOrder (S : Semver) : Prop := {
  GreaterThan_irrefl : forall v, semver_GreaterThan v v = false;
  GreaterThan_trans : forall a b c,
    semver_GreaterThan a b = true -> semver_GreaterThan b c = true ->
    semver_GreaterThan a c = true
}.

(** ** Data model *)

Record Dist : Type := {
  Dist_FileCount : Z;
  Dist_UnpackedSize : Z
}.

Record NpmUser : Type := {
  NpmUser_Name : string;
  NpmUser_Email : string
}.

(** [Homepage] and [License] are [interface{}] values that the resolver
    never reads; they are left out. *)
Record VersionInfo : Type := {
  VersionInfo_Name : string;
  VersionInfo_Version : string;
  VersionInfo_Description : string;
  VersionInfo_Dependencies : list (string * string);
  VersionInfo_DevDependencies : list (string * string);
  VersionInfo_NpmUser : NpmUser;
  VersionInfo_Dist : Dist;
  VersionInfo_Os : list string;
  VersionInfo_Cpu : list string
}.

(** The zero value of the struct, what [var v VersionInfo] holds and what
    indexing a map at a missing key returns. *)
Definition VersionInfo_zero : VersionInfo :=
  {| VersionInfo_Name := "";
     VersionInfo_Version := "";
     VersionInfo_Description := "";
     VersionInfo_Dependencies := [];
     VersionInfo_DevDependencies := [];
     VersionInfo_NpmUser := {| NpmUser_Name := ""; NpmUser_Email := "" |};
     VersionInfo_Dist := {| Dist_FileCount := 0; Dist_UnpackedSize := 0 |};
     VersionInfo_Os := [];
     VersionInfo_Cpu := [] |}.

Definition VersionInfo_GetPublisher (v : VersionInfo) : string :=
  let user := VersionInfo_NpmUser v in
  if decide (NpmUser_Name user <> "") then
    if decide (NpmUser_Email user <> "") then
      NpmUser_Name user +:+ " ( " +:+ NpmUser_Email user +:+ " )"
    else NpmUser_Name user
  else if decide (NpmUser_Email user <> "") then NpmUser_Email user
  else "".

(** Times are nanoseconds on one fixed time line; the zero [time.Time] is
    whatever instant [Time_zero] names. Durations are [int64]
    nanoseconds. *)
Definition Time : Type := Z.
Definition Time_zero : Time := 0.

Record DistTags : Type := {
  DistTags_Latest : string
}.

Record PackageInfo : Type := {
  PackageInfo_Name : string;
  PackageInfo_DistTags : DistTags;
  PackageInfo_Versions : list (string * VersionInfo);
  PackageInfo_Time : gmap string Time
}.

(** [m[key]] with the comma-ok form, on a map carried as its entries. *)
Fixpoint mapIndex {A : Type} (m : list (string * A)) (key : string) : option A :=
  match m with
  | [] => None
  | (k, a) :: rest => if decide (k = key) then Some a else mapIndex rest key
  end.

(** ** Vulnerabilities *)

Record SemverSpec : Type := {
  SemverSpec_Vulnerable : list string
}.

(** [type Severity string] with its four named constants. *)
Definition Severity : Type := string.
Definition Low : Severity := "low".
Definition Medium : Severity := "medium".
Definition High : Severity := "high".
Definition Critical : Severity := "critical".

Record Vulnerability : Type := {
  Vulnerability_Id : string;
  Vulnerability_PackageManager : string;
  Vulnerability_PackageName : string;
  Vulnerability_Title : string;
  Vulnerability_PublicationTime : Time;
  Vulnerability_Semver : SemverSpec;
  Vulnerability_Severity : Severity
}.

Record VulnerabilityStats : Type := {
  LowCount : Z;
  MediumCount : Z;
  HighCount : Z;
  CriticalCount : Z
}.

Definition VulnerabilityStats_zero : VulnerabilityStats :=
  {| LowCount := 0; MediumCount := 0; HighCount := 0; CriticalCount := 0 |}.

(** The body of the loop of [GetVulnerabilityStats]. *)
Definition GetVulnerabilityStats_iter (stats : VulnerabilityStats)
    (vulnerability : Vulnerability) : VulnerabilityStats :=
  let severity := Vulnerability_Severity vulnerability in
  if decide (severity = Low) then
    {| LowCount := int_add (LowCount stats) 1;
       MediumCount := MediumCount stats;
       HighCount := HighCount stats;
       CriticalCount := CriticalCount stats |}
  else if decide (severity = Medium) then
    {| LowCount := LowCount stats;
       MediumCount := int_add (MediumCount stats) 1;
       HighCount := HighCount stats;
       CriticalCount := CriticalCount stats |}
  else if decide (severity = High) then
    {| LowCount := LowCount stats;
       MediumCount := MediumCount stats;
       HighCount := int_add (HighCount stats) 1;
       CriticalCount := CriticalCount stats |}
  else if decide (severity = Critical) then
    {| LowCount := LowCount stats;
       MediumCount := MediumCount stats;
       HighCount := HighCount stats;
       CriticalCount := int_add (CriticalCount stats) 1 |}
  else stats.

Definition GetVulnerabilityStats (vulnerabilities : list Vulnerability)
    : VulnerabilityStats :=
  foldl GetVulnerabilityStats_iter VulnerabilityStats_zero vulnerabilities.

(** ** The aggregate *)

Record Stats : Type := {
  Stats_Packages : Z;
  Stats_Versions : Z;
  Stats_Files : Z;
  Stats_DiskSpace : Z;
  Stats_VulnerabilityStats : VulnerabilityStats
}.

Record Version : Type := {
  Version_Info : VersionInfo;
  Version_Time : Time;
  Version_Dependencies : gmap string (list string);
  Version_Publishers : gmap string Z;
  Version_Vulnerabilities : list Vulnerability;
  Version_Stats : Stats;
  Version_Errors : list string
}.

Definition NewVersion (versionInfo : VersionInfo) (time : Time) : Version :=
  let stats :=
    {| Stats_Packages := 1;
       Stats_Versions := 1;
       Stats_Files := Dist_FileCount (VersionInfo_Dist versionInfo);
       Stats_DiskSpace := Dist_UnpackedSize (VersionInfo_Dist versionInfo);
       Stats_VulnerabilityStats := VulnerabilityStats_zero |} in
  let publisher := VersionInfo_GetPublisher versionInfo in
  let publishers : gmap string Z :=
    if decide (publisher <> "") then {[ publisher := 1 ]} else ∅ in
  {| Version_Info := versionInfo;
     Version_Time := time;
     Version_Dependencies := ∅;
     Version_Publishers := publishers;
     Version_Vulnerabilities := [];
     Version_Stats := stats;
     Version_Errors := [] |}.

(** [parent.Errors = append(parent.Errors, msg)] *)
Definition Version_appendError (parent : Version) (msg : string) : Version :=
  {| Version_Info := Version_Info parent;
     Version_Time := Version_Time parent;
     Version_Dependencies := Version_Dependencies parent;
     Version_Publishers := Version_Publishers parent;
     Version_Vulnerabilities := Version_Vulnerabilities parent;
     Version_Stats := Version_Stats parent;
     Version_Errors := Version_Errors parent ++ [msg] |}.

(** [dependencies[name] = versions], and [stats.Packages++] when
    [newName] is set. *)
Definition Version_setDependency (parent : Version) (name : string)
    (versions : list string) (newName : bool) : Version :=
  let stats := Version_Stats parent in
  {| Version_Info := Version_Info parent;
     Version_Time := Version_Time parent;
     Version_Dependencies := <[ name := versions ]> (Version_Dependencies parent);
     Version_Publishers := Version_Publishers parent;
     Version_Vulnerabilities := Version_Vulnerabilities parent;
     Version_Stats :=
       {| Stats_Packages :=
            if newName then int_add (Stats_Packages stats) 1
            else Stats_Packages stats;
          Stats_Versions := Stats_Versions stats;
          Stats_Files := Stats_Files stats;
          Stats_DiskSpace := Stats_DiskSpace stats;
          Stats_VulnerabilityStats := Stats_VulnerabilityStats stats |};
     Version_Errors := Version_Errors parent |}.

(** The four statements under [if gather] that precede the recursive
    call: [parent.Publishers[publisher]++], [stats.Versions++],
    [stats.Files += ...], [stats.DiskSpace += ...]. *)
Definition Version_mergeChild (parent : Version) (childVersion : VersionInfo)
    : Version :=
  let stats := Version_Stats parent in
  let publisher := VersionInfo_GetPublisher childVersion in
  {| Version_Info := Version_Info parent;
     Version_Time := Version_Time parent;
     Version_Dependencies := Version_Dependencies parent;
     Version_Publishers :=
       <[ publisher :=
            int_add (default 0 (Version_Publishers parent !! publisher)) 1 ]>
         (Version_Publishers parent);
     Version_Vulnerabilities := Version_Vulnerabilities parent;
     Version_Stats :=
       {| Stats_Packages := Stats_Packages stats;
          Stats_Versions := int_add (Stats_Versions stats) 1;
          Stats_Files :=
            int_add (Stats_Files stats)
                    (Dist_FileCount (VersionInfo_Dist childVersion));
          Stats_DiskSpace :=
            int_add (Stats_DiskSpace stats)
                    (Dist_UnpackedSize (VersionInfo_Dist childVersion));
          Stats_VulnerabilityStats := Stats_VulnerabilityStats stats |};
     Version_Errors := Version_Errors parent |}.

(** [v.Vulnerabilities = ...; v.Stats.VulnerabilityStats = ...] *)
Definition Version_setVulnerabilities (v : Version)
    (vulnerabilities : list Vulnerability) (vstats : VulnerabilityStats)
    : Version :=
  let stats := Version_Stats v in
  {| Version_Info := Version_Info v;
     Version_Time := Version_Time v;
     Version_Dependencies := Version_Dependencies v;
     Version_Publishers := Version_Publishers v;
     Version_Vulnerabilities := vulnerabilities;
     Version_Stats :=
       {| Stats_Packages := Stats_Packages stats;
          Stats_Versions := Stats_Versions stats;
          Stats_Files := Stats_Files stats;
          Stats_DiskSpace := Stats_DiskSpace stats;
          Stats_VulnerabilityStats := vstats |};
     Version_Errors := Version_Errors v |}.

Fixpoint strArrContain (array : list string) (s : string) : bool :=
  match array with
  | [] => false
  | item :: rest => if decide (item = s) then true else strArrContain rest s
  end.

Definition VersionInfo_MatchPlatform (p : VersionInfo) (os cpu : string) : bool :=
  if (0 <? Z.of_nat (length (VersionInfo_Os p)))
     && negb (strArrContain (VersionInfo_Os p) os)
  then false
  else if (0 <? Z.of_nat (length (VersionInfo_Cpu p)))
          && negb (strArrContain (VersionInfo_Cpu p) cpu)
  then false
  else true.

Section Resolver.

Context {semver : Semver}.

(** One iteration of the [range p.Versions] loop of [MaxVersion]; the
    accumulator is the pair [(maxVersion, maxVersionInfo)], with
    [maxVersion == nil] as [None]. *)
Definition MaxVersion_iter (constraint : Constraints)
    (acc : option SemverVersion * VersionInfo)
    (entry : string * VersionInfo) : option SemverVersion * VersionInfo :=
  match semver_NewVersion entry.1 with
  | None => acc
  | Some version =>
      if semver_Validate constraint version then
        match acc.1 with
        | None => (Some version, entry.2)
        | Some maxVersion =>
            if semver_GreaterThan version maxVersion
            then (Some version, entry.2)
            else acc
        end
      else acc
  end.

Definition PackageInfo_MaxVersion (p : PackageInfo) (constraintRaw : string)
    : result VersionInfo :=
  match semver_NewConstraint constraintRaw with
  | Err e => Err e
  | Ok constraint =>
      match foldl (MaxVersion_iter constraint) (None, VersionInfo_zero)
                  (PackageInfo_Versions p) with
      | (None, _) =>
          Err ("no matching version found in " +:+ PackageInfo_Name p
               +:+ " constraint " +:+ constraintRaw)
      | (Some _, maxVersionInfo) => Ok maxVersionInfo
      end
  end.

Definition PackageInfo_LatestVersion (p : PackageInfo) : VersionInfo :=
  default VersionInfo_zero
    (mapIndex (PackageInfo_Versions p) (DistTags_Latest (PackageInfo_DistTags p))).

Definition PackageInfo_LatestTime (p : PackageInfo) : Time :=
  default Time_zero
    (PackageInfo_Time p !! DistTags_Latest (PackageInfo_DistTags p)).

Fixpoint HasMatchingVersion (versions : list string) (constraint : Constraints)
    : bool :=
  match versions with
  | [] => false
  | vRaw :: rest =>
      match semver_NewVersion vRaw with
      | None => HasMatchingVersion rest constraint
      | Some v =>
          if semver_Validate constraint v then true
          else HasMatchingVersion rest constraint
      end
  end.

(** *** Vulnerability correlation *)

(** [DbGetVulnerabilitiesForPackages] is a database query; the rows it
    returns, or its failure, are an input of the run. *)
Context (DbGetVulnerabilitiesForPackages :
           list string -> result (list Vulnerability)).

(** The inner loop of [GatherVulnerabilities], over the vulnerable range
    expressions of one vulnerability, for one parsed installed version. *)
Definition GatherVulnerabilities_exprs (depV : SemverVersion)
    (exprs : list string) (match_ : bool) : bool :=
  foldl (fun match_ expr =>
           match semver_NewConstraint expr with
           | Err _ => match_
           | Ok c => if semver_Check c depV then true else match_
           end) match_ exprs.

(** The middle loop, over the installed versions. *)
Definition GatherVulnerabilities_versions (depVersions : list string)
    (exprs : list string) (match_ : bool) : bool :=
  foldl (fun match_ depVersion =>
           match semver_NewVersion depVersion with
           | None => match_
           | Some depV => GatherVulnerabilities_exprs depV exprs match_
           end) match_ depVersions.

(** The installed versions that a vulnerability is tested against. *)
Definition GatherVulnerabilities_depVersions (v : Version)
    (vulnerability : Vulnerability) : list string :=
  let name := Vulnerability_PackageName vulnerability in
  if decide (name = VersionInfo_Name (Version_Info v))
  then [VersionInfo_Version (Version_Info v)]
  else default [] (Version_Dependencies v !! name).

(** The value of [match] at the end of one iteration of the outer loop. *)
Definition GatherVulnerabilities_match (v : Version)
    (vulnerability : Vulnerability) : bool :=
  GatherVulnerabilities_versions
    (GatherVulnerabilities_depVersions v vulnerability)
    (SemverSpec_Vulnerable (Vulnerability_Semver vulnerability)) false.

Definition Version_GatherVulnerabilities (v : Version) : result Version :=
  let packageNames :=
    VersionInfo_Name (Version_Info v)
    :: (map_to_list (Version_Dependencies v)).*1 in
  match DbGetVulnerabilitiesForPackages packageNames with
  | Err e =>
      Err ("could not get vulnerabilities for package "
           +:+ VersionInfo_Name (Version_Info v) +:+ ": " +:+ e)
  | Ok allVulnerabilities =>
      let vulnerabilities :=
        foldl (fun vulnerabilities vulnerability =>
                 if GatherVulnerabilities_match v vulnerability
                 then vulnerabilities ++ [vulnerability]
                 else vulnerabilities) [] allVulnerabilities in
      Ok (Version_setVulnerabilities v vulnerabilities
            (GetVulnerabilityStats vulnerabilities))
  end.

(** *** Dependency resolution *)

(** [packagePool.ProcessKey(name).Await()]: the outcome of the metadata
    request for a package name, an input of the run. *)
Context (packagePool : string -> result PackageInfo).

(** The body of the loop [for i, future := range futures] of
    [VersionInfo.GatherDependencies], for the edge [(name, constraintRaw)].
    [recurse] stands for the recursive call
    [childVersion.GatherDependencies(parent, false)]; it yields [None] when
    the recursion does not come back. *)
Definition GatherDependencies_edge
    (recurse : VersionInfo -> Version -> option Version)
    (parent : Version) (name constraintRaw : string) : option Version :=
  match packagePool name with
  | Err e =>
      Some (Version_appendError parent
              ("could not get " +:+ name +:+ ": " +:+ e))
  | Ok packageInfo =>
      match semver_NewConstraint constraintRaw with
      | Err e =>
          Some (Version_appendError parent
                  ("invalid constraint for " +:+ name +:+ " constraint "
                   +:+ constraintRaw +:+ ": " +:+ e))
      | Ok constraint =>
          match PackageInfo_MaxVersion packageInfo constraintRaw with
          | Err e =>
              Some (Version_appendError parent
                      ("no matching version for " +:+ name +:+ " constraint "
                       +:+ constraintRaw +:+ ": " +:+ e))
          | Ok childVersion =>
              if negb (VersionInfo_MatchPlatform childVersion "linux" "x64")
              then Some parent
              else
                match Version_Dependencies parent !! name with
                | Some versions =>
                    if negb (HasMatchingVersion versions constraint) then
                      recurse childVersion
                        (Version_mergeChild
                           (Version_setDependency parent name
                              (versions ++ [VersionInfo_Version childVersion])
                              false)
                           childVersion)
                    else Some parent
                | None =>
                    recurse childVersion
                      (Version_mergeChild
                         (Version_setDependency parent name
                            [VersionInfo_Version childVersion] true)
                         childVersion)
                end
          end
      end
  end.

(** The loop itself, over the edges in the order they were collected. *)
Fixpoint GatherDependencies_edges
    (recurse : VersionInfo -> Version -> option Version)
    (edges : list (string * string)) (parent : Version) : option Version :=
  match edges with
  | [] => Some parent
  | (name, constraintRaw) :: rest =>
      match GatherDependencies_edge recurse parent name constraintRaw with
      | None => None
      | Some parent' => GatherDependencies_edges recurse rest parent'
      end
  end.

(** [func (p VersionInfo) GatherDependencies(parent *Version, alsoDev bool)].
    The Go function recurses without a bound; [fuel] bounds the depth of
    the recursion and [None] means that the bound was reached. *)
Fixpoint VersionInfo_GatherDependencies (fuel : nat) (p : VersionInfo)
    (parent : Version) (alsoDev : bool) : option Version :=
  match fuel with
  | O => None
  | S fuel' =>
      if (0 <? Z.of_nat (length (VersionInfo_Dependencies p)))
         || (alsoDev
             && (0 <? Z.of_nat (length (VersionInfo_DevDependencies p))))
      then
        GatherDependencies_edges
          (fun childVersion parent' =>
             VersionInfo_GatherDependencies fuel' childVersion parent' false)
          (VersionInfo_Dependencies p
           ++ (if alsoDev then VersionInfo_DevDependencies p else []))
          parent
      else Some parent
  end.

(** [PackageInfo.GatherDependencies(versionRaw)], which returns a
    [Version] pointer and an error; [None] again means that the recursion
    bound was reached. *)
Definition PackageInfo_GatherDependencies (fuel : nat) (p : PackageInfo)
    (versionRaw : string) : option (result Version) :=
  let versionInfo : result VersionInfo :=
    if decide (versionRaw <> "") then
      match mapIndex (PackageInfo_Versions p) versionRaw with
      | Some versionInfo => Ok versionInfo
      | None =>
          Err ("could not find version " +:+ versionRaw +:+ " in "
               +:+ PackageInfo_Name p)
      end
    else Ok (PackageInfo_LatestVersion p) in
  match versionInfo with
  | Err e => Some (Err e)
  | Ok versionInfo =>
      let parent :=
        NewVersion versionInfo
          (default Time_zero
             (PackageInfo_Time p !! VersionInfo_Version versionInfo)) in
      match VersionInfo_GatherDependencies fuel versionInfo parent false with
      | None => None
      | Some parent =>
          match Version_GatherVulnerabilities parent with
          | Err e =>
              Some (Err ("could not gather vulns for " +:+ PackageInfo_Name p
                         +:+ " version " +:+ versionRaw +:+ ": " +:+ e))
          | Ok parent => Some (Ok parent)
          end
      end
  end.

End Resolver.

(** ** Expiry policy *)

Definition Nanosecond : Z := 1.
Definition Second : Z := 1000000000 * Nanosecond.
Definition Minute : Z := 60 * Second.
Definition Hour : Z := 60 * Minute.

Definition minDuration : Z := - 2 ^ 63.
Definition maxDuration : Z := 2 ^ 63 - 1.

(** [t.Sub(u)]: the difference, saturated to the range of [Duration]. *)
Definition Time_Sub (t u : Time) : Z :=
  Z.max minDuration (Z.min maxDuration (t - u)).

Definition Time_Add (t : Time) (d : Z) : Time := t + d.

(** [d.Hours()] is [float64(d / Hour) + float64(d % Hour) / (60*60*1e9)].
    The quotient is below [2^53] in absolute value and the remainder is
    below [3.6e12], so both conversions are exact; the value is carried
    here as the exact rational. [calcExpire] only compares it with [1] and
    with [24], and rounding the quotient and the sum to the nearest
    [float64] moves neither comparison: a fraction [r / 3.6e12] with
    [0 <= r < 3.6e12] stays at least [2.7e-13] away from [1], and adding a
    positive fraction of at least [2.7e-13] to [24] gives more than [24]. *)
Definition Duration_Hours (d : Z) : Q :=
  (inject_Z (Z.quot d Hour)
   + inject_Z (Z.rem d Hour) / inject_Z (60 * 60 * 1000000000))%Q.

Definition Qlt_bool (a b : Q) : bool := negb (Qle_bool b a).

(** [calcExpire], with [time.Now()] as the argument [now]. *)
Definition calcExpire (now lastUpdate : Time) : Time :=
  let age := Time_Sub now lastUpdate in
  let expire := Z.quot age 100 in
  let expire :=
    if Qlt_bool (Duration_Hours expire) 1 then Hour
    else if Qlt_bool 24 (Duration_Hours expire) then 24 * Hour
    else expire in
  Time_Add now expire.

(** ** The registry of pending futures (pool.go)

    A [*Future] is an address; [NewFuture()] returns one that was never
    returned before, here the next natural number. [getOrCreate] holds the
    mutex of the registry from its first statement to its return, so
    concurrent calls take effect one after the other, in some order. *)

Module Pool.

Definition FutureRef : Type := nat.

Record futureMap : Type := {
  futures : gmap string FutureRef;
  allocated : nat
}.

Definition newFutureMap : futureMap := {| futures := ∅; allocated := 0 |}.

(** Returns [(future, isNew)] and the registry after the call. *)
Definition getOrCreate (f : futureMap) (key : string)
    : FutureRef * bool * futureMap :=
  match futures f !! key with
  | Some future => (future, false, f)
  | None =>
      let future := allocated f in
      (future, true,
       {| futures := <[ key := future ]> (futures f);
          allocated := S (allocated f) |})
  end.

(** The calls [getOrCreate(key)] for [keys], in the order in which they
    get the mutex, with what each returns. *)
Fixpoint getOrCreate_all (f : futureMap) (keys : list string)
    : list (string * FutureRef * bool) * futureMap :=
  match keys with
  | [] => ([], f)
  | key :: rest =>
      let '(future, isNew, f1) := getOrCreate f key in
      let '(returns, f2) := getOrCreate_all f1 rest in
      ((key, future, isNew) :: returns, f2)
  end.

End Pool.

(** ** A reference instance of the semver interface

    Plain [MAJOR.MINOR.PATCH] versions and single-comparator ranges
    ([<], [<=], [>], [>=], [=] or no operator, followed by a version),
    on which the library's behaviour is the textbook one. It makes the
    interface inhabited and lets the resolver run on concrete registries. *)

Module RefSemver.

Definition isDigit (c : ascii) : bool :=
  let n := N_of_ascii c in ((48 <=? n) && (n <=? 57))%N.

Fixpoint parseDigits (s : string) (acc : N) : option N :=
  match s with
  | EmptyString => Some acc
  | String c rest =>
      if isDigit c then parseDigits rest (acc * 10 + (N_of_ascii c - 48))%N
      else None
  end.

Definition parseNumber (s : string) : option N :=
  match s with
  | EmptyString => None
  | _ => parseDigits s 0%N
  end.

Fixpoint splitOn (sep : ascii) (s : string) : list string :=
  match s with
  | EmptyString => [EmptyString]
  | String c rest =>
      if Ascii.eqb c sep then EmptyString :: splitOn sep rest
      else match splitOn sep rest with
           | [] => [String c EmptyString]
           | hd :: tl => String c hd :: tl
           end
  end.

Definition version : Type := N * N * N.

Definition parseVersion (s : string) : option version :=
  match splitOn "." s with
  | [a; b; c] =>
      match parseNumber a, parseNumber b, parseNumber c with
      | Some x, Some y, Some z => Some (x, y, z)
      | _, _, _ => None
      end
  | _ => None
  end.

Definition compare (a b : version) : comparison :=
  match (a.1.1 ?= b.1.1)%N with
  | Eq => match (a.1.2 ?= b.1.2)%N with
          | Eq => (a.2 ?= b.2)%N
          | c => c
          end
  | c => c
  end.

Inductive operator : Type := OpLt | OpLe | OpGt | OpGe | OpEq.

Definition constraint : Type := operator * version.

Definition parseConstraint (s : string) : result constraint :=
  let '(op, rest) :=
    match s with
    | String "<" (String "=" r) => (OpLe, r)
    | String ">" (String "=" r) => (OpGe, r)
    | String "<" r => (OpLt, r)
    | String ">" r => (OpGt, r)
    | String "=" r => (OpEq, r)
    | _ => (OpEq, s)
    end%char in
  match parseVersion rest with
  | Some v => Ok (op, v)
  | None => Err ("improper constraint: " +:+ s)
  end.

Definition check (c : constraint) (v : version) : bool :=
  match c.1, compare v c.2 with
  | OpLt, Lt => true
  | OpLe, (Lt | Eq) => true
  | OpGt, Gt => true
  | OpGe, (Gt | Eq) => true
  | OpEq, Eq => true
  | _, _ => false
  end.

Definition greaterThan (v o : version) : bool :=
  match compare v o with
  | Gt => true
  | _ => false
  end.

#[export] Instance semver : Semver :=
  {| SemverVersion := version;
     Constraints := constraint;
     semver_NewVersion := parseVersion;
     semver_NewConstraint := parseConstraint;
     semver_Validate := check;
     semver_Check := check;
     semver_GreaterThan := greaterThan |}.

End RefSemver.

(** ** A small registry to run the resolver on *)

Module Sample.

Import RefSemver.

Definition info (name version : string) (deps : list (string * string))
    (user : string) (files : Z) (os : list string) : VersionInfo :=
  {| VersionInfo_Name := name;
     VersionInfo_Version := version;
     VersionInfo_Description := "";
     VersionInfo_Dependencies := deps;
     VersionInfo_DevDependencies := [];
     VersionInfo_NpmUser := {| NpmUser_Name := user; NpmUser_Email := "" |};
     VersionInfo_Dist := {| Dist_FileCount := files; Dist_UnpackedSize := 1000 * files |};
     VersionInfo_Os := os;
     VersionInfo_Cpu := [] |}.

Definition package (name latest : string) (versions : list VersionInfo)
    : PackageInfo :=
  {| PackageInfo_Name := name;
     PackageInfo_DistTags := {| DistTags_Latest := latest |};
     PackageInfo_Versions := (fun v => (VersionInfo_Version v, v)) <$> versions;
     PackageInfo_Time := ∅ |}.

Definition dep_1_5_0 : VersionInfo := info "dep" "1.5.0" [] "" 3 [].
Definition dep_2_1_0 : VersionInfo := info "dep" "2.1.0" [] "" 4 [].
Definition dep : PackageInfo := package "dep" "2.1.0" [dep_1_5_0; dep_2_1_0].

Definition a : PackageInfo :=
  package "a" "1.0.0" [info "a" "1.0.0" [("dep", "<2.0.0")] "alice" 5 []].
Definition b : PackageInfo :=
  package "b" "1.0.0" [info "b" "1.0.0" [("dep", ">=2.0.0")] "bob" 6 []].
Definition c : PackageInfo :=
  package "c" "1.0.0" [info "c" "1.0.0" [("dep", "<3.0.0")] "alice" 7 []].
Definition winonly : PackageInfo :=
  package "winonly" "1.0.0" [info "winonly" "1.0.0" [] "carol" 8 ["win32"]].

Definition old : PackageInfo :=
  package "old" "0.1.0" [info "old" "0.1.0" [] "dave" 9 []].

Definition root_1_0_0 : VersionInfo :=
  info "root" "1.0.0"
    [("a", "1.0.0"); ("b", "1.0.0"); ("c", "1.0.0"); ("missing", "1.0.0");
     ("dep", "not a range"); ("old", ">9.0.0"); ("winonly", "1.0.0")]
    "rob" 10 [].
Definition root : PackageInfo := package "root" "1.0.0" [root_1_0_0].

Definition packagePool (name : string) : result PackageInfo :=
  if decide (name = "dep") then Ok dep
  else if decide (name = "old") then Ok old
  else if decide (name = "a") then Ok a
  else if decide (name = "b") then Ok b
  else if decide (name = "c") then Ok c
  else if decide (name = "winonly") then Ok winonly
  else if decide (name = "root") then Ok root
  else Err ("could not get package " +:+ name +:+ ": 404 Not Found").

Definition vulnerability (id name : string) (ranges : list string)
    (severity : Severity) : Vulnerability :=
  {| Vulnerability_Id := id;
     Vulnerability_PackageManager := "npm";
     Vulnerability_PackageName := name;
     Vulnerability_Title := "";
     Vulnerability_PublicationTime := 0;
     Vulnerability_Semver := {| SemverSpec_Vulnerable := ranges |};
     Vulnerability_Severity := severity |}.

Definition feed : list Vulnerability :=
  [vulnerability "V1" "dep" ["<1.2.3"] High;
   vulnerability "V2" "dep" ["oops"; "<2.0.0"] Low;
   vulnerability "V3" "root" ["<=1.0.0"] "unrated";
   vulnerability "V4" "a" [">1.0.0"] Critical].

Definition dbOk (names : list string) : result (list Vulnerability) :=
  Ok (filter (fun v => Vulnerability_PackageName v ∈ names) feed).

Definition dbDown (names : list string) : result (list Vulnerability) :=
  Err "could not get vulnerabilities for a list of packages: database is locked".



End Sample.

(** ** Vocabulary of the statements *)

Definition countSeverity (s : Severity) (l : list Vulnerability) : Z :=
  Z.of_nat (length (filter (fun v => Vulnerability_Severity v = s) l)).

Definition namedSeverity (v : Vulnerability) : Prop :=
  Vulnerability_Severity v = Low \/ Vulnerability_Severity v = Medium \/
  Vulnerability_Severity v = High \/ Vulnerability_Severity v = Critical.


Definition bucketSum (stats : VulnerabilityStats) : Z :=
  LowCount stats + MediumCount stats + HighCount stats + CriticalCount stats.

(** The number of version strings over all the lists of the map. *)
Definition countVersions (dependencies : gmap string (list string)) : Z :=
  map_fold (fun _ versions n => Z.of_nat (length versions) + n) 0 dependencies.

(** The statistics agree with the dependency map. *)
Definition Version_consistent (v : Version) : Prop :=
  Stats_Packages (Version_Stats v)
  = wrap64 (1 + Z.of_nat (size (Version_Dependencies v)))
  /\ Stats_Versions (Version_Stats v)
     = wrap64 (1 + countVersions (Version_Dependencies v))
  /\ forall name versions,
       Version_Dependencies v !! name = Some versions -> versions <> [].

(** [recurse] keeps the property [P] of the aggregate. *)
Definition preserves (P : Version -> Prop)
    (recurse : VersionInfo -> Version -> option Version) : Prop :=
  forall childVersion parent parent',
    P parent -> recurse childVersion parent = Some parent' -> P parent'.

Section Vocabulary.

Context {semver : Semver}.

(** What the accumulator of the loop of [MaxVersion] holds once the
    entries [seen] have been visited. *)
Definition MaxVersion_inv (constraint : Constraints)
    (seen : list (string * VersionInfo))
    (acc : option SemverVersion * VersionInfo) : Prop :=
  match acc.1 with
  | None =>
      forall versionRaw info version,
        (versionRaw, info) ∈ seen ->
        semver_NewVersion versionRaw = Some version ->
        semver_Validate constraint version = false
  | Some maxVersion =>
      (exists versionRaw,
          (versionRaw, acc.2) ∈ seen
          /\ semver_NewVersion versionRaw = Some maxVersion
          /\ semver_Validate constraint maxVersion = true)
      /\ forall versionRaw info version,
          (versionRaw, info) ∈ seen ->
          semver_NewVersion versionRaw = Some version ->
          semver_Validate constraint version = true ->
          semver_GreaterThan version maxVersion = false
  end.

(** No entry of [versions] parses to a version that [constraint] accepts. *)
Definition noneSatisfies (constraint : Constraints)
    (versions : list (string * VersionInfo)) : Prop :=
  forall versionRaw info version,
    (versionRaw, info) ∈ versions ->
    semver_NewVersion versionRaw = Some version ->
    semver_Validate constraint version = false.

(** [info], published under [versionRaw], parses, is accepted by
    [constraint], and no accepted entry of [versions] is greater. *)
Definition highestSatisfying (constraint : Constraints)
    (versions : list (string * VersionInfo)) (info : VersionInfo) : Prop :=
  exists versionRaw maxVersion,
    (versionRaw, info) ∈ versions
    /\ semver_NewVersion versionRaw = Some maxVersion
    /\ semver_Validate constraint maxVersion = true
    /\ forall versionRaw' info' version',
         (versionRaw', info') ∈ versions ->
         semver_NewVersion versionRaw' = Some version' ->
         semver_Validate constraint version' = true ->
         semver_GreaterThan version' maxVersion = false.



Context (DbGetVulnerabilitiesForPackages :
           list string -> result (list Vulnerability)).
Context (packagePool : string -> result PackageInfo).

(** The loop body got as far as selecting [childVersion]: the metadata
    request for [name] succeeded, [constraintRaw] parsed to [constraint],
    and [MaxVersion] found [childVersion]. *)
Definition selects (name constraintRaw : string) (constraint : Constraints)
    (childVersion : VersionInfo) : Prop :=
  exists packageInfo,
    packagePool name = Ok packageInfo
    /\ semver_NewConstraint constraintRaw = Ok constraint
    /\ PackageInfo_MaxVersion packageInfo constraintRaw = Ok childVersion.

(** Some version string of [versions] parses to a version that
    [constraint] accepts. *)
Definition someSatisfies (versions : list string) (constraint : Constraints)
    : Prop :=
  exists vRaw v,
    vRaw ∈ versions /\ semver_NewVersion vRaw = Some v
    /\ semver_Validate constraint v = true.

(** The root [VersionInfo] that [PackageInfo.GatherDependencies] starts
    from, when there is one: the entry of [versionRaw], or the entry of the
    [latest] tag (the zero value when that is missing) for the empty
    string. *)
Definition rootVersion (p : PackageInfo) (versionRaw : string)
    : option VersionInfo :=
  if decide (versionRaw <> "") then mapIndex (PackageInfo_Versions p) versionRaw
  else Some (PackageInfo_LatestVersion p).

(** The message that the loop body records for an edge whose metadata
    request, constraint or version selection fails. *)
Definition edgeFailure (name constraintRaw : string) : option string :=
  match packagePool name with
  | Err e => Some ("could not get " +:+ name +:+ ": " +:+ e)
  | Ok packageInfo =>
      match semver_NewConstraint constraintRaw with
      | Err e =>
          Some ("invalid constraint for " +:+ name +:+ " constraint "
                +:+ constraintRaw +:+ ": " +:+ e)
      | Ok _ =>
          match PackageInfo_MaxVersion packageInfo constraintRaw with
          | Err e =>
              Some ("no matching version for " +:+ name +:+ " constraint "
                    +:+ constraintRaw +:+ ": " +:+ e)
          | Ok _ => None
          end
      end
  end.

(** The aggregates that resolution produces: [NewVersion], followed by any
    number of calls of [GatherDependencies] that come back and of
    [GatherVulnerabilities] that succeed. *)
Inductive resolved : Version -> Prop :=
| resolved_NewVersion (versionInfo : VersionInfo) (time : Time) :
    resolved (NewVersion versionInfo time)
| resolved_GatherDependencies (fuel : nat) (p : VersionInfo)
    (parent parent' : Version) (alsoDev : bool) :
    resolved parent ->
    VersionInfo_GatherDependencies packagePool fuel p parent alsoDev
    = Some parent' ->
    resolved parent'
| resolved_GatherVulnerabilities (parent parent' : Version) :
    resolved parent ->
    Version_GatherVulnerabilities DbGetVulnerabilitiesForPackages parent
    = Ok parent' ->
    resolved parent'.

End Vocabulary.

(** ** More of the resolver: cache keys, readiness and the performers *)

(** How a run of code that can panic or recurse without bound ends. *)
Inductive run (A : Type) : Type :=
| Done (a : A)
| Panic
| OutOfFuel.
Arguments Done {A} a.
Arguments Panic {A}.
Arguments OutOfFuel {A}.

(** [strings.Split(s, sep)] for a separator [sep] of one byte: the pieces
    of [s] between the occurrences of [sep], at least one piece. *)
Fixpoint strings_Split (sep : ascii) (s : string) : list string :=
  match s with
  | EmptyString => [EmptyString]
  | String c rest =>
      if Ascii.eqb c sep then EmptyString :: strings_Split sep rest
      else match strings_Split sep rest with
           | [] => [String c EmptyString]
           | piece :: pieces => String c piece :: pieces
           end
  end.

(** The byte of the Go string literal ["\t"]. *)
Definition tab : ascii := "009"%char.

(** [parseVersionKey]; [None] is the index-out-of-range panic of
    [parts[1]]. *)
Definition parseVersionKey (key : string) : option (string * string) :=
  match strings_Split tab key with
  | name :: versionRaw :: _ => Some (name, versionRaw)
  | _ => None
  end.

(** The key that [GetVersion] hands to the version pool:
    [name + "\t" + version]. *)
Definition versionKey (name version : string) : string :=
  name +:+ String tab EmptyString +:+ version.

Definition fileIsReady (version : Version) : bool :=
  (0 <? Z.of_nat (size (Version_Dependencies version)))
  || (Z.of_nat (length (VersionInfo_Dependencies (Version_Info version))) =? 0).

Section Performers.

Context {semver : Semver}.
Context (DbGetVulnerabilitiesForPackages :
           list string -> result (list Vulnerability)).
Context (packagePool : string -> result PackageInfo).

(** [DbGetFile]: the stored upload for an id, or the failure of the
    lookup; an input of the run. *)
Context (DbGetFile : string -> result Version).

(** [GetPackageInfo]: the awaited outcome of the metadata pool. *)
Definition GetPackageInfo (name : string) : result PackageInfo :=
  packagePool name.

(** [VersionPerformer.Perform]. *)
Definition VersionPerformer_Perform (fuel : nat) (key : string)
    : run (result Version) :=
  match parseVersionKey key with
  | None => Panic
  | Some (name, versionRaw) =>
      match GetPackageInfo name with
      | Err e => Done (Err e)
      | Ok packageInfo =>
          match PackageInfo_GatherDependencies DbGetVulnerabilitiesForPackages
                  packagePool fuel packageInfo versionRaw with
          | None => OutOfFuel
          | Some (Err e) => Done (Err e)
          | Some (Ok version) => Done (Ok version)
          end
      end
  end.

(** [FilePerformer.Get]; [None] is the nil [Data] of a miss. *)
Definition FilePerformer_Get (id : string) : option Version :=
  match DbGetFile id with
  | Err _ => None
  | Ok version => if negb (fileIsReady version) then None else Some version
  end.

(** [FilePerformer.Perform]. *)
Definition FilePerformer_Perform (fuel : nat) (id : string)
    : run (result Version) :=
  match DbGetFile id with
  | Err e => Done (Err e)
  | Ok version =>
      match VersionInfo_GatherDependencies packagePool fuel
              (Version_Info version) version true with
      | None => OutOfFuel
      | Some version' => Done (Ok version')
      end
  end.

End Performers.

(** ** Vocabulary of the further statements *)

(** [parent'] continues [parent]: same root, same vulnerabilities, the
    error list and every version list only grown at the end, no name and
    no publisher lost. *)
Definition continues (parent parent' : Version) : Prop :=
  Version_Info parent' = Version_Info parent
  /\ Version_Time parent' = Version_Time parent
  /\ Version_Vulnerabilities parent' = Version_Vulnerabilities parent
  /\ Stats_VulnerabilityStats (Version_Stats parent')
     = Stats_VulnerabilityStats (Version_Stats parent)
  /\ Version_Errors parent `prefix_of` Version_Errors parent'
  /\ (forall name versions,
        Version_Dependencies parent !! name = Some versions ->
        exists versions',
          Version_Dependencies parent' !! name = Some versions'
          /\ versions `prefix_of` versions')
  /\ (forall publisher,
        is_Some (Version_Publishers parent !! publisher) ->
        is_Some (Version_Publishers parent' !! publisher)).

(** No byte of [s] is [c]. *)
Fixpoint lacks (c : ascii) (s : string) : Prop :=
  match s with
  | EmptyString => True
  | String c' rest => c' <> c /\ lacks c rest
  end.

(** The sum of the counts of the publishers histogram. *)
Definition publishersTotal (publishers : gmap string Z) : Z :=
  map_fold (fun _ count total => count + total) 0 publishers.

(** What the histogram misses of the root: 1 when the root has no
    publisher string, 0 when it has one. *)
Definition rootUncounted (versionInfo : VersionInfo) : Z :=
  if decide (VersionInfo_GetPublisher versionInfo = "") then 1 else 0.

(** The histogram and the version counter move together. *)
Definition histogramBalanced (versionInfo : VersionInfo) (v : Version) : Prop :=
  Version_Info v = versionInfo
  /\ wrap64 (publishersTotal (Version_Publishers v))
     = wrap64 (Stats_Versions (Version_Stats v) - rootUncounted versionInfo).

Section FurtherVocabulary.

Context {semver : Semver}.
Context (packagePool : string -> result PackageInfo).

(** [versionRaw] is the version string of a [VersionInfo] that the
    package [name] publishes under a key that parses, that some constraint
    accepts and that the platform filter lets through. *)
Definition published (name versionRaw : string) : Prop :=
  exists packageInfo key info version constraintRaw constraint,
    packagePool name = Ok packageInfo
    /\ (key, info) ∈ PackageInfo_Versions packageInfo
    /\ VersionInfo_Version info = versionRaw
    /\ semver_NewVersion key = Some version
    /\ semver_NewConstraint constraintRaw = Ok constraint
    /\ semver_Validate constraint version = true
    /\ VersionInfo_MatchPlatform info "linux" "x64" = true.

(** Every recorded version string is that of a published version. *)
Definition allPublished (v : Version) : Prop :=
  forall name versions,
    Version_Dependencies v !! name = Some versions ->
    Forall (published name) versions.

(** Every chain of selected versions that starts with one of [edges] ends
    in a version without dependencies after at most [n] steps: the
    children selected for [edges] have edges that resolve within
    [n - 1]. An edge whose metadata request or selection fails has no
    child. *)
Fixpoint resolvesWithin (n : nat) (edges : list (string * string)) : bool :=
  match n with
  | O => match edges with [] => true | _ => false end
  | S n' =>
      forallb
        (fun edge : string * string =>
           match packagePool edge.1 with
           | Err _ => true
           | Ok packageInfo =>
               match PackageInfo_MaxVersion packageInfo edge.2 with
               | Err _ => true
               | Ok childVersion =>
                   resolvesWithin n' (VersionInfo_Dependencies childVersion)
               end
           end) edges
  end.

End FurtherVocabulary.

(** ** The vulnerability feed *)

(** A Go [error] value: [None] is [nil], [Some msg] an error whose
    [Error()] is [msg]. *)
Definition error : Type := option string.

(** [errors.Wrap(err, message)] of [github.com/pkg/errors]: [nil] when
    [err] is [nil], otherwise an error that reads [message: err]. *)
Definition errors_Wrap (err : error) (message : string) : error :=
  match err with
  | None => None
  | Some e => Some (message +:+ ": " +:+ e)
  end.

(** [strconv.Itoa], also what [%d] prints for an [int]. *)
Definition strconv_Itoa (i : Z) : string :=
  DecimalString.NilEmpty.string_of_int (Z.to_int i).

Record VulnerabilityResponse : Type := {
  VulnerabilityResponse_Status : string;
  VulnerabilityResponse_Vulnerabilities : list Vulnerability
}.

Section Feed.

(** [getBody]: the body of the HTTP response for a URL, or the failure of
    the request; an input of the run. *)
Context (getBody : string -> result string).

(** [json.Unmarshal] into a [VulnerabilityResponse]. *)
Context (unmarshalResponse : string -> result VulnerabilityResponse).

(** [DbLastVulnerability]: the newest stored vulnerability ([nil] when the
    table is empty), or the failure of the query. *)
Context (DbLastVulnerability : result (option Vulnerability)).

Definition GetVulnerabilities (page : Z) : list Vulnerability * error :=
  let url :=
    "https://security.snyk.io/api/listing?type=npm&pageNumber="
    +:+ strconv_Itoa page in
  match getBody url with
  | Err e => ([], errors_Wrap (Some e) "could not get vulnerabilities")
  | Ok body =>
      match unmarshalResponse body with
      | Err e =>
          ([], errors_Wrap (Some e) "could not parse json for vulnerabilities")
      | Ok response =>
          (* here [err] is the nil that [json.Unmarshal] returned *)
          let err : error := None in
          if decide (VulnerabilityResponse_Status response <> "ok") then
            ([], errors_Wrap err
                   ("response status for vulnerabilities: "
                    +:+ VulnerabilityResponse_Status response))
          else (VulnerabilityResponse_Vulnerabilities response, None)
      end
  end.

(** The inner loop of [UpdateVulnerabilities] over one page: the
    vulnerabilities handed to [DbPutVulnerability], in order, and whether
    the loop returned at a known one. A failing [DbPutVulnerability] is
    logged and the loop goes on. *)
Fixpoint UpdateVulnerabilities_page (last : option Vulnerability)
    (vulnerabilities : list Vulnerability) : list Vulnerability * bool :=
  match vulnerabilities with
  | [] => ([], false)
  | vulnerability :: rest =>
      if match last with
         | Some l =>
             bool_decide (Vulnerability_Id vulnerability = Vulnerability_Id l)
         | None => false
         end
      then ([], true)
      else
        let '(puts, returned) := UpdateVulnerabilities_page last rest in
        (vulnerability :: puts, returned)
  end.

(** The outer loop, from [page] on: the vulnerabilities handed to
    [DbPutVulnerability], or [None] when [fuel] pages did not end it. *)
Fixpoint UpdateVulnerabilities_pages (fuel : nat) (last : option Vulnerability)
    (page : Z) : option (list Vulnerability) :=
  match fuel with
  | O => None
  | S fuel' =>
      let '(vulnerabilities, err) := GetVulnerabilities page in
      match err with
      | Some _ => Some []
      | None =>
          if Z.of_nat (length vulnerabilities) =? 0 then Some []
          else
            let '(puts, returned) :=
              UpdateVulnerabilities_page last vulnerabilities in
            if returned then Some puts
            else
              match UpdateVulnerabilities_pages fuel' last (int_add page 1) with
              | None => None
              | Some more => Some (puts ++ more)
              end
      end
  end.

Definition UpdateVulnerabilities (fuel : nat) : option (list Vulnerability) :=
  match DbLastVulnerability with
  | Err _ => Some []
  | Ok last => UpdateVulnerabilities_pages fuel last 1
  end.

(** [vulnerability] has the id of the newest stored one. *)
Definition known (last : option Vulnerability) (vulnerability : Vulnerability)
    : Prop :=
  match last with
  | Some l => Vulnerability_Id vulnerability = Vulnerability_Id l
  | None => False
  end.

(** The pages [page], [page + 1], ... as the feed serves them, [n] of
    them. *)
Fixpoint feedPages (n : nat) (page : Z) : list (list Vulnerability) :=
  match n with
  | O => []
  | S n' => (GetVulnerabilities page).1 :: feedPages n' (int_add page 1)
  end.

(** The pages up to the first empty one. *)
Fixpoint untilEmpty (pages : list (list Vulnerability))
    : list (list Vulnerability) :=
  match pages with
  | [] => []
  | [] :: _ => []
  | page :: rest => page :: untilEmpty rest
  end.

(** The vulnerabilities before the first known one. *)
Fixpoint untilKnown (last : option Vulnerability)
    (vulnerabilities : list Vulnerability) : list Vulnerability :=
  match vulnerabilities with
  | [] => []
  | vulnerability :: rest =>
      if match last with
         | Some l =>
             bool_decide (Vulnerability_Id vulnerability = Vulnerability_Id l)
         | None => false
         end
      then []
      else vulnerability :: untilKnown last rest
  end.

End Feed.

#[global] Instance known_dec (last : option Vulnerability)
    (vulnerability : Vulnerability) : Decision (known last vulnerability).
Proof. destruct last; simpl; apply _. Defined.

(** A small feed to run the update on: two pages, the second holding the
    newest stored vulnerability, and a third response that is not "ok". *)
Module SampleFeed.

Definition advisory (id : string) : Vulnerability :=
  Sample.vulnerability id "dep" ["<1.2.3"] High.

Definition getBody (url : string) : result string :=
  if decide (url = "https://security.snyk.io/api/listing?type=npm&pageNumber=1")
  then Ok "first"
  else if decide (url = "https://security.snyk.io/api/listing?type=npm&pageNumber=2")
  then Ok "second"
  else if decide (url = "https://security.snyk.io/api/listing?type=npm&pageNumber=3")
  then Ok "maintenance"
  else Err "404 Not Found".

Definition unmarshalResponse (body : string) : result VulnerabilityResponse :=
  if decide (body = "first") then
    Ok {| VulnerabilityResponse_Status := "ok";
          VulnerabilityResponse_Vulnerabilities := [advisory "V9"; advisory "V8"] |}
  else if decide (body = "second") then
    Ok {| VulnerabilityResponse_Status := "ok";
          VulnerabilityResponse_Vulnerabilities :=
            [advisory "V7"; advisory "V6"; advisory "V5"] |}
  else if decide (body = "maintenance") then
    Ok {| VulnerabilityResponse_Status := "maintenance";
          VulnerabilityResponse_Vulnerabilities := [advisory "V1"] |}
  else Err "unexpected end of JSON input".

Definition DbLastVulnerability : result (option Vulnerability) :=
  Ok (Some (advisory "V6")).

End SampleFeed.

(** The registry hands out each address once: every recorded future was
    allocated, and no two keys share one. *)
Definition registryWf (f : Pool.futureMap) : Prop :=
  (forall key future,
     Pool.futures f !! key = Some future -> (future < Pool.allocated f)%nat)
  /\ (forall key1 key2 future,
        Pool.futures f !! key1 = Some future ->
        Pool.futures f !! key2 = Some future -> key1 = key2).

(** ** Listings of the version page (view.go) *)

(** [sort.Sort(data)] with the order given by [less]: afterwards no
    element is less than an element before it. The Go sort is not stable;
    for the orders used here (strict total orders) the sorted arrangement
    is unique, whatever the algorithm. *)
Definition notAfter {A : Type} (less : A -> A -> bool) : relation A :=
  fun a b => less b a = false.

#[global] Instance notAfter_dec {A : Type} (less : A -> A -> bool) (a b : A) :
  Decision (notAfter less a b).
Proof. unfold notAfter. apply _. Defined.

Definition sort_Sort {A : Type} (less : A -> A -> bool) (data : list A) : list A :=
  merge_sort (notAfter less) data.

(** [sort.Strings]: ascending in the order [<] of Go strings, which
    compares byte by byte. *)
Definition sort_Strings (names : list string) : list string :=
  sort_Sort String.ltb names.

Definition sortedDependencyNames (dependencies : gmap string (list string))
    : list string :=
  sort_Strings ((map_to_list dependencies).*1).

Record IntEntry : Type := {
  IntEntry_Key : string;
  IntEntry_Value : Z
}.

#[global] Instance IntEntry_eq_dec : EqDecision IntEntry.
Proof. solve_decision. Defined.

(** [IntEntries.Less], on the two entries at the given indices. *)
Definition IntEntries_Less (left right : IntEntry) : bool :=
  if IntEntry_Value left =? IntEntry_Value right
  then String.ltb (IntEntry_Key left) (IntEntry_Key right)
  else IntEntry_Value right <? IntEntry_Value left.

(** The loop of [sortedMapByIntValue] over the entries in range order,
    then the sort. *)
Definition sortedEntries (entries : list (string * Z)) : list IntEntry :=
  sort_Sort IntEntries_Less
    ((fun entry => {| IntEntry_Key := entry.1; IntEntry_Value := entry.2 |})
       <$> entries).

Definition sortedMapByIntValue (m : gmap string Z) : list IntEntry :=
  sortedEntries (map_to_list m).

(** [less] is a strict total order. *)
Definition strictTotal {A : Type} (less : A -> A -> bool) : Prop :=
  (forall a, less a a = false)
  /\ (forall a b c, less a b = true -> less b c = true -> less a c = true)
  /\ (forall a b, a <> b -> less a b = true \/ less b a = true).

(** ** [SmartWorkPool.ProcessKey] (pool.go)

    The pool as [ProcessKey] sees it: the registry and the keys sent on
    [workQueue] so far, oldest first. [performer.Get(key)] reads the
    database, which changes between calls (results are put, rows expire),
    so its answer is an argument of the call: [None] is Go's [nil].
    [databaseDisabled] is [false], as in the source. A future is either
    one made by [NewFutureResolved] or one of the registry. *)

Inductive Future (Data : Type) : Type :=
| NewFutureResolved (data : Data)
| Pending (future : Pool.FutureRef).

Arguments NewFutureResolved {Data} data.
Arguments Pending {Data} future.

Record SmartWorkPool : Type := {
  workQueue : list string;
  futureMap : Pool.futureMap
}.

Definition NewSmartWorkPool : SmartWorkPool :=
  {| workQueue := []; futureMap := Pool.newFutureMap |}.

Definition ProcessKey {Data : Type} (performer_Get : option Data)
    (s : SmartWorkPool) (key : string) : Future Data * SmartWorkPool :=
  match performer_Get with
  | Some data => (NewFutureResolved data, s)
  | None =>
      let '(future, isNew, f1) := Pool.getOrCreate (futureMap s) key in
      (Pending future,
       {| workQueue := if isNew then workQueue s ++ [key] else workQueue s;
          futureMap := f1 |})
  end.

(** The calls [ProcessKey(key)] in the order in which they pass the
    registry, each with what [performer.Get(key)] answered for it. *)
Fixpoint ProcessKey_all {Data : Type} (s : SmartWorkPool)
    (calls : list (string * option Data))
    : list (Future Data) * SmartWorkPool :=
  match calls with
  | [] => ([], s)
  | (key, performer_Get) :: rest =>
      let '(future, s1) := ProcessKey performer_Get s key in
      let '(returns, s2) := ProcessKey_all s1 rest in
      (future :: returns, s2)
  end.

(** The keys sent to the workers are those of the registry, once each. *)
Definition queueWf (s : SmartWorkPool) : Prop :=
  NoDup (workQueue s)
  /\ (forall key,
        key ∈ workQueue s <-> is_Some (Pool.futures (futureMap s) !! key)).

(** ** HTML trees and their rendering (html.go)

    A [Node] is a [*Element], a [TextNode] or an [UnsafeRawContent]; a
    child that is the nil interface is [None]. The field [block] of
    [Element] is never written nor read and is left out. The builder is
    the text written so far. [html.EscapeString] belongs to the Go
    library: it is an argument of the rendering. *)

Inductive elementType : Type := Standalone | Block | Inline.

Record ElementAttr : Type := {
  ElementAttr_key : string;
  ElementAttr_value : string
}.

Definition Attr (key value : string) : ElementAttr :=
  {| ElementAttr_key := key; ElementAttr_value := value |}.

#[warnings="-register-all"] Inductive Node : Type :=
| Element (name : string) (typ : elementType) (attrs : list ElementAttr)
    (children : list (option Node))
| TextNode (t : string)
| UnsafeRawContent (t : string).

(** The line feed and the double quote, as strings of one byte. *)
Definition newline : string := String "010"%char EmptyString.
Definition quote : string := String "034"%char EmptyString.

Definition space : string :=
  "                                                                                                    ".

(** [s[:k]] for a Go [int] [k]: a panic unless [0 <= k <= len(s)]. *)
Definition slice_to (s : string) (k : Z) : run string :=
  if (0 <=? k) && (k <=? Z.of_nat (String.length s))
  then Done (substring 0 (Z.to_nat k) s)
  else Panic.

(** [for _, child := range children { if child != nil { body } }], where
    the body writes to the builder and can panic. *)
Definition forChildren {A : Type} (body : A -> string -> run string)
    : list (option A) -> string -> run string :=
  fix loop children b :=
    match children with
    | [] => Done b
    | None :: rest => loop rest b
    | Some child :: rest =>
        match body child b with
        | Done b => loop rest b
        | stop => stop
        end
    end.

Section Rendering.

Context (html_EscapeString : string -> string).

(** The loop over [t.attrs] of [Element.WriteTo]. *)
Definition writeAttrs (attrs : list ElementAttr) (b : string) : string :=
  fold_left
    (fun b attr =>
       b +:+ " " +:+ ElementAttr_key attr +:+ "=" +:+ quote
         +:+ html_EscapeString (ElementAttr_value attr) +:+ quote)
    attrs b.

(** [WriteTo(b, indent)] of the three kinds of node. *)
Fixpoint Node_WriteTo (node : Node) (b : string) (indent : Z) {struct node}
    : run string :=
  match node with
  | TextNode t => Done (b +:+ html_EscapeString t)
  | UnsafeRawContent t => Done (b +:+ t)
  | Element name typ attrs children =>
      let b :=
        if decide (name = "html") then b +:+ "<!DOCTYPE html>" +:+ newline
        else b in
      let b := writeAttrs attrs (b +:+ "<" +:+ name) in
      match typ with
      | Standalone => Done (b +:+ " />")
      | Block =>
          let b := b +:+ ">" in
          match
            (if decide (0 < Z.of_nat (length children)) then
               match
                 forChildren
                   (fun child b =>
                      match slice_to space (int_add indent 2) with
                      | Done indentation =>
                          Node_WriteTo child (b +:+ newline +:+ indentation)
                            (int_add indent 2)
                      | _ => Panic
                      end)
                   children b
               with
               | Done b =>
                   match slice_to space indent with
                   | Done indentation => Done (b +:+ newline +:+ indentation)
                   | _ => Panic
                   end
               | stop => stop
               end
             else Done b)
          with
          | Done b => Done (b +:+ "</" +:+ name +:+ ">")
          | stop => stop
          end
      | Inline =>
          let b := b +:+ ">" in
          match
            (if decide (0 < Z.of_nat (length children)) then
               forChildren (fun child b => Node_WriteTo child b indent)
                 children b
             else Done b)
          with
          | Done b => Done (b +:+ "</" +:+ name +:+ ">")
          | stop => stop
          end
      end
  end.

Definition RenderNode (node : Node) : run string :=
  Node_WriteTo node "" 0.

End Rendering.

(** Whether some child is not nil. *)
Definition someChild {A : Type} (children : list (option A)) : bool :=
  existsb (fun child => match child with Some _ => true | None => false end)
    children.

(** How many [Block] elements with a child that is not nil lie inside
    each other in [node]; the children of a [Standalone] element are not
    rendered and do not count. *)
Fixpoint blockDepth (node : Node) : nat :=
  match node with
  | Element _ typ _ children =>
      let inner :=
        foldr (fun child depth =>
                 match child with
                 | Some child => Nat.max (blockDepth child) depth
                 | None => depth
                 end) 0%nat children in
      match typ with
      | Standalone => 0%nat
      | Inline => inner
      | Block => if someChild children then S inner else 0%nat
      end
  | _ => 0%nat
  end.

(** [depth] elements [div] inside each other around [node]. *)
Fixpoint nested (depth : nat) (node : Node) : Node :=
  match depth with
  | O => node
  | S depth => Element "div" Block [] [Some (nested depth node)]
  end.

(** ** Building HTML trees: [Element.Add] and the spec strings of [H]
       (html.go)

    The variadic [interface{}] arguments of [Add] and [H], by dynamic
    type; [P_other] is a value of any other type. A nil [Node] passed as an
    argument is the nil interface, [P_nil]. *)

Inductive Param : Type :=
| P_nil
| P_string (s : string)
| P_int (i : Z)
| P_Node (node : Node)
| P_Nodes (nodes : list (option Node))
| P_Attr (attr : ElementAttr)
| P_Attrs (attrs : list ElementAttr)
| P_other.

#[global] Instance run_ret : MRet run := fun _ a => Done a.
#[global] Instance run_bind : MBind run := fun _ _ f r =>
  match r with
  | Done a => f a
  | Panic => Panic
  | OutOfFuel => OutOfFuel
  end.

Definition tagToType : gmap string elementType :=
  list_to_map
    [("div", Block); ("span", Inline); ("html", Block); ("head", Block);
     ("body", Block); ("meta", Standalone); ("title", Inline);
     ("link", Standalone); ("script", Block); ("h1", Block); ("h2", Block);
     ("h3", Block); ("h4", Block); ("p", Block); ("a", Inline);
     ("br", Standalone); ("hr", Standalone); ("ul", Block); ("li", Block);
     ("b", Inline); ("pre", Inline); ("img", Standalone); ("table", Block);
     ("thead", Block); ("tbody", Block); ("tr", Block); ("th", Block);
     ("td", Block); ("form", Block); ("input", Standalone);
     ("button", Inline); ("textarea", Inline)].

(** The element under construction is a [*Element]: its name, type,
    attributes and children. *)
Record ElementData : Type := {
  Element_name : string;
  Element_typ : elementType;
  Element_attrs : list ElementAttr;
  Element_children : list (option Node)
}.

Definition ElementNode (t : ElementData) : Node :=
  Element (Element_name t) (Element_typ t) (Element_attrs t)
    (Element_children t).

Definition newElement (name : string) : run ElementData :=
  match tagToType !! name with
  | Some typ =>
      Done {| Element_name := name; Element_typ := typ;
              Element_attrs := []; Element_children := [] |}
  | None => Panic
  end.

Definition Element_child (t : ElementData) (children : list (option Node))
    : ElementData :=
  {| Element_name := Element_name t; Element_typ := Element_typ t;
     Element_attrs := Element_attrs t;
     Element_children := Element_children t ++ children |}.

Definition Element_Attr (t : ElementData) (key value : string) : ElementData :=
  {| Element_name := Element_name t; Element_typ := Element_typ t;
     Element_attrs := Element_attrs t ++ [Attr key value];
     Element_children := Element_children t |}.

Fixpoint Element_Add (t : ElementData) (params : list Param) : run ElementData :=
  match params with
  | [] => Done t
  | param :: rest =>
      match param with
      | P_nil => Element_Add t rest
      | P_string str => Element_Add (Element_child t [Some (TextNode str)]) rest
      | P_int i =>
          Element_Add (Element_child t [Some (TextNode (strconv_Itoa i))]) rest
      | P_Node node => Element_Add (Element_child t [Some node]) rest
      | P_Nodes nodes => Element_Add (Element_child t nodes) rest
      | P_Attr attr =>
          Element_Add
            (Element_Attr t (ElementAttr_key attr) (ElementAttr_value attr)) rest
      | P_Attrs attrs =>
          Element_Add
            (fold_left
               (fun t attr =>
                  Element_Attr t (ElementAttr_key attr) (ElementAttr_value attr))
               attrs t)
            rest
      | P_other => Panic
      end
  end.

(** The parser of spec strings. [sp.i] is a Go [int]: [sp.next()] wraps
    round at [2^63]. Every slice [sp.h[start:sp.i]] is taken with
    [0 <= start <= sp.i <= sp.n]. *)
Record specParser : Type := {
  sp_h : string;
  sp_i : Z;
  sp_n : Z;
  sp_params : list Param
}.

Definition sp_more (sp : specParser) : bool := sp_i sp <? sp_n sp.

(** [sp.cur()]: 0 when [sp.i >= sp.n], and [sp.h[sp.i]] otherwise, which
    panics for an index that is negative or not below the length. *)
Definition sp_cur (sp : specParser) : run ascii :=
  if sp_n sp <=? sp_i sp then Done Ascii.zero
  else if sp_i sp <? 0 then Panic
  else match String.get (Z.to_nat (sp_i sp)) (sp_h sp) with
       | Some ch => Done ch
       | None => Panic
       end.

Definition sp_next (sp : specParser) : specParser :=
  {| sp_h := sp_h sp; sp_i := int_add (sp_i sp) 1; sp_n := sp_n sp;
     sp_params := sp_params sp |}.

Definition sp_setParams (sp : specParser) (params : list Param) : specParser :=
  {| sp_h := sp_h sp; sp_i := sp_i sp; sp_n := sp_n sp; sp_params := params |}.

(** [sp.h[start:sp.i]] *)
Definition sp_slice (sp : specParser) (start : Z) : string :=
  substring (Z.to_nat start) (Z.to_nat (sp_i sp - start)) (sp_h sp).

(** The loops that test [sp.more()] advance [sp.i] while [sp.i < sp.n]:
    they end within [sp.n - sp.i] rounds, and one more look at the
    condition. *)
Definition sp_rounds (sp : specParser) : nat :=
  S (Z.to_nat (sp_n sp - sp_i sp)).

(** The scan for a closing quote does not test [sp.more()]: it advances
    [sp.i] for as long as [sp.cur()] is not the quote, at most until
    [sp.i] has wrapped round to [-2^63], where [sp.cur()] panics. That
    is within [2^63 - sp.i] rounds and one more look at the condition. *)
Definition sp_scanRounds (sp : specParser) : nat :=
  S (Z.to_nat (2 ^ 63 - sp_i sp)).

Definition sp_skip (sp : specParser) (ch : ascii) : run specParser :=
  if negb (sp_more sp) then Panic
  else
    cur ← sp_cur sp;
    if negb (Ascii.eqb cur ch) then Panic else Done (sp_next sp).

Definition isLetter (ch : ascii) : bool :=
  let c := N_of_ascii ch in
  ((65 <=? c) && (c <=? 90) || (97 <=? c) && (c <=? 122)
   || (48 <=? c) && (c <=? 57) || (c =? 45) || (c =? 95))%N.

Fixpoint parseName_loop (rounds : nat) (sp : specParser) : run specParser :=
  match rounds with
  | O => OutOfFuel
  | S rounds =>
      if sp_more sp then
        cur ← sp_cur sp;
        if isLetter cur then parseName_loop rounds (sp_next sp) else Done sp
      else Done sp
  end.

Definition parseName (sp : specParser) : run (string * specParser) :=
  let start := sp_i sp in
  cur ← sp_cur sp;
  if negb (isLetter cur) then Panic
  else
    sp ← parseName_loop (sp_rounds sp) sp;
    Done (sp_slice sp start, sp).

(** The loop [for sp.more() && sp.cur() != ' '] of [parseSpec]. *)
Fixpoint parseSpec_loop (rounds : nat) (sp : specParser) (el : ElementData)
    (classes : list string) : run (specParser * ElementData * list string) :=
  match rounds with
  | O => OutOfFuel
  | S rounds =>
      if sp_more sp then
        cur ← sp_cur sp;
        if negb (Ascii.eqb cur " ") then
          first ← sp_cur sp;
          if Ascii.eqb first "." then
            '(name, sp) ← parseName (sp_next sp);
            parseSpec_loop rounds sp el (classes ++ [name])
          else if Ascii.eqb first "#" then
            '(id, sp) ← parseName (sp_next sp);
            parseSpec_loop rounds sp (Element_Attr el "id" id) classes
          else Panic
        else Done (sp, el, classes)
      else Done (sp, el, classes)
  end.

Definition parseSpec (sp : specParser) : run (specParser * ElementData) :=
  first ← sp_cur sp;
  '(tag, sp) ←
    (if Ascii.eqb first "." || Ascii.eqb first "#" then Done ("div", sp)
     else parseName sp);
  el ← newElement tag;
  '(sp, el, classes) ← parseSpec_loop (sp_rounds sp) sp el [];
  let el :=
    if decide (0 < Z.of_nat (length classes))
    then Element_Attr el "class" (String.concat " " classes)
    else el in
  Done (sp, el).

(** The loop [for sp.cur() != '\''] of [parseAttr]. *)
Fixpoint parseAttr_quoted (rounds : nat) (sp : specParser) : run specParser :=
  match rounds with
  | O => OutOfFuel
  | S rounds =>
      cur ← sp_cur sp;
      if negb (Ascii.eqb cur "'")
      then parseAttr_quoted rounds (sp_next sp)
      else Done sp
  end.

(** The loop [for sp.more() && sp.cur() != ' '] of [parseAttr]. *)
Fixpoint parseAttr_plain (rounds : nat) (sp : specParser) : run specParser :=
  match rounds with
  | O => OutOfFuel
  | S rounds =>
      if sp_more sp then
        cur ← sp_cur sp;
        if negb (Ascii.eqb cur " ")
        then parseAttr_plain rounds (sp_next sp)
        else Done sp
      else Done sp
  end.

Definition parseAttr (sp : specParser) : run (ElementAttr * specParser) :=
  '(key, sp) ← parseName sp;
  sp ← sp_skip sp "=";
  cur ← sp_cur sp;
  if Ascii.eqb cur "'" then
    let sp := sp_next sp in
    let start := sp_i sp in
    sp ← parseAttr_quoted (sp_scanRounds sp) sp;
    let value := sp_slice sp start in
    sp ← sp_skip sp "'";
    Done (Attr key value, sp)
  else
    cur ← sp_cur sp;
    if Ascii.eqb cur "%" then
      let sp := sp_next sp in
      spec ← sp_cur sp;
      if Ascii.eqb spec "s" then
        let sp := sp_next sp in
        match sp_params sp with
        | P_string value :: params =>
            Done (Attr key value, sp_setParams sp params)
        | _ => Panic
        end
      else if Ascii.eqb spec "d" then
        let sp := sp_next sp in
        match sp_params sp with
        | P_int value :: params =>
            Done (Attr key (strconv_Itoa value), sp_setParams sp params)
        | _ => Panic
        end
      else Panic
    else
      let start := sp_i sp in
      sp ← parseAttr_plain (sp_rounds sp) sp;
      Done (Attr key (sp_slice sp start), sp).

(** The loop [for sp.more() && sp.cur() != '>'] of [H]. *)
Fixpoint H_attrs (rounds : nat) (sp : specParser) (cur : ElementData)
    : run (specParser * ElementData) :=
  match rounds with
  | O => OutOfFuel
  | S rounds =>
      if sp_more sp then
        ch ← sp_cur sp;
        if negb (Ascii.eqb ch ">") then
          '(attr, sp) ← parseAttr sp;
          let cur :=
            Element_Attr cur (ElementAttr_key attr) (ElementAttr_value attr) in
          sp ← (if sp_more sp then sp_skip sp " " else Done sp);
          H_attrs rounds sp cur
        else Done (sp, cur)
      else Done (sp, cur)
  end.

(** The loop [for sp.more()] of [H]. The elements made so far are kept
    innermost first: the head is [cur], the last one is [top], and each
    has the one before it as its only child. *)
Fixpoint H_specs (rounds : nat) (sp : specParser) (chain : list ElementData)
    : run (specParser * list ElementData) :=
  match rounds with
  | O => OutOfFuel
  | S rounds =>
      if sp_more sp then
        '(sp, el) ← parseSpec sp;
        sp ← (if sp_more sp then sp_skip sp " " else Done sp);
        '(sp, cur) ← H_attrs (sp_rounds sp) sp el;
        sp ← (if sp_more sp
              then sp ← sp_skip sp ">"; sp_skip sp " "
              else Done sp);
        H_specs rounds sp (cur :: chain)
      else Done (sp, chain)
  end.

(** [top], once every element of the chain holds the next inner one. *)
Definition H_link (inner : Node) (outer : list ElementData) : Node :=
  fold_left (fun inner el => ElementNode (Element_child el [Some inner]))
    outer inner.

Definition H (h : string) (p : list Param) : run Node :=
  let n := Z.of_nat (String.length h) in
  let sp := {| sp_h := h; sp_i := 0; sp_n := n; sp_params := p |} in
  '(sp, chain) ←
    (if n =? 0 then el ← newElement "div"; Done (sp, [el])
     else H_specs (sp_rounds sp) sp []);
  match chain with
  | [] => Panic
  | cur :: outer =>
      cur ← Element_Add cur (sp_params sp);
      Done (H_link (ElementNode cur) outer)
  end.

(** ** The tables of the version page (view.go) *)

Definition npmHref (name version : string) : string :=
  if decide (version = "") then "/npm/" +:+ name
  else "/npm/" +:+ name +:+ "/" +:+ version.

Fixpoint renderVersions_links (name : string) (versions : list string)
    (links : list (option Node)) : run (list (option Node)) :=
  match versions with
  | [] => Done links
  | v :: rest =>
      a ← H "a href=%s" [P_string (npmHref name v); P_string v];
      renderVersions_links name rest (links ++ [Some (TextNode ", "); Some a])
  end.

(** [links[1:]] of an empty slice is a panic. *)
Definition renderVersions (name : string) (versions : list string) : run Node :=
  links ← renderVersions_links name versions [];
  match links with
  | [] => Panic
  | _ :: rest => H "td" [P_Nodes rest]
  end.

(** The loop over [sortedDependencyNames] of [VersionView]. *)
Fixpoint VersionView_dependencies (dependencies : gmap string (list string))
    (names : list string) (rows : list (option Node))
    : run (list (option Node)) :=
  match names with
  | [] => Done rows
  | name :: rest =>
      let versions := default [] (dependencies !! name) in
      a ← H "a href=%s" [P_string (npmHref name ""); P_string name];
      td ← H "td" [P_Node a];
      links ← renderVersions name versions;
      tr ← H "tr" [P_Node td; P_Node links];
      VersionView_dependencies dependencies rest (rows ++ [Some tr])
  end.

(** [depTable] of [VersionView]; [None] is the nil [Node]. *)
Definition VersionView_depTable (version : Version) : run (option Node) :=
  if decide (0 < Z.of_nat (size (Version_Dependencies version))) then
    dependencies ←
      VersionView_dependencies (Version_Dependencies version)
        (sortedDependencyNames (Version_Dependencies version)) [];
    thName ← H "th" [P_string "name"];
    thVersions ← H "th" [P_string "versions"];
    head ← H "tr" [P_Node thName; P_Node thVersions];
    table ← H "table" [P_Node head; P_Nodes dependencies];
    Done (Some table)
  else Done None.

(** [pubTable] of [VersionView]. *)
Fixpoint VersionView_publishers (entries : list IntEntry)
    (rows : list (option Node)) : run (list (option Node)) :=
  match entries with
  | [] => Done rows
  | entry :: rest =>
      tdKey ← H "td" [P_string (IntEntry_Key entry)];
      tdValue ← H "td" [P_int (IntEntry_Value entry)];
      tr ← H "tr" [P_Node tdKey; P_Node tdValue];
      VersionView_publishers rest (rows ++ [Some tr])
  end.

Definition VersionView_pubTable (version : Version) : run (option Node) :=
  if decide (0 < Z.of_nat (size (Version_Publishers version))) then
    publishers ←
      VersionView_publishers (sortedMapByIntValue (Version_Publishers version)) [];
    thPublisher ← H "th" [P_string "publisher"];
    thCount ← H "th" [P_string "count"];
    head ← H "tr" [P_Node thPublisher; P_Node thCount];
    table ← H "table" [P_Node head; P_Nodes publishers];
    Done (Some table)
  else Done None.

(** The nodes that the loops of [VersionView] build when no call panics:
    the link to a version, the cell of the versions of a dependency and
    the row of a dependency. *)
Definition versionLink (name v text : string) : Node :=
  Element "a" Inline [Attr "href" (npmHref name v)] [Some (TextNode text)].

Definition versionLinks (name : string) (versions : list string)
    : list (option Node) :=
  flat_map (fun v => [Some (TextNode ", "); Some (versionLink name v v)])
    versions.

Definition dependencyRow (dependencies : gmap string (list string))
    (name : string) : option Node :=
  Some (Element "tr" Block []
          [Some (Element "td" Block [] [Some (versionLink name "" name)]);
           Some (Element "td" Block []
                   (tail (versionLinks name
                            (default [] (dependencies !! name)))))]).

Definition publisherRow (entry : IntEntry) : option Node :=
  Some (Element "tr" Block []
          [Some (Element "td" Block [] [Some (TextNode (IntEntry_Key entry))]);
           Some (Element "td" Block []
                   [Some (TextNode (strconv_Itoa (IntEntry_Value entry)))])]).

(** Every child that is not nil has [blockDepth] at most [k]. *)
Definition childrenWithin (k : nat) (children : list (option Node)) : Prop :=
  Forall (fun child =>
            match child with
            | Some n => (blockDepth n <= k)%nat
            | None => True
            end) children.

(** ** Vocabulary for runs of the spec parser *)

(** The run comes back, and what it returns satisfies [post]; a panic
    counts as coming back. *)
Definition run_post {A : Type} (r : run A) (post : A -> Prop) : Prop :=
  match r with
  | Done a => post a
  | Panic => True
  | OutOfFuel => False
  end.

(** The parser is inside its spec, whose length fits a Go [int]. *)
Definition sp_wf (sp : specParser) : Prop :=
  sp_n sp = Z.of_nat (String.length (sp_h sp))
  /\ 0 <= sp_i sp <= sp_n sp
  /\ sp_n sp < 2 ^ 63.

(** [sp'] reads the same spec as [sp], at the same place or further on. *)
Definition sp_follows (sp sp' : specParser) : Prop :=
  sp_h sp' = sp_h sp /\ sp_n sp' = sp_n sp
  /\ sp_i sp <= sp_i sp' <= sp_n sp.

(** From [sp.i] on no byte of the spec is a single quote. *)
Definition sp_unclosed (sp : specParser) : Prop :=
  forall j, (Z.to_nat (sp_i sp) <= j)%nat ->
            String.get j (sp_h sp) <> Some "'"%char.

(** * Properties *)

(** ** Machine integers *)

Lemma wrap64_small (z : Z) : - 2 ^ 63 <= z < 2 ^ 63 -> wrap64 z = z.
Proof.
  intros Hz. unfold wrap64.
  rewrite Z.mod_small by lia. lia.
Qed.

Lemma wrap64_idemp_l (a b : Z) : wrap64 (wrap64 a + b) = wrap64 (a + b).
Proof.
  unfold wrap64.
  replace ((a + 2 ^ 63) mod 2 ^ 64 - 2 ^ 63 + b + 2 ^ 63)
    with ((a + 2 ^ 63) mod 2 ^ 64 + b) by lia.
  rewrite Z.add_mod_idemp_l by lia.
  do 2 f_equal. lia.
Qed.

Lemma int_add_wrap64 (a b : Z) : int_add (wrap64 a) b = wrap64 (a + b).
Proof. apply wrap64_idemp_l. Qed.

(** ** The severity histogram *)

Lemma countSeverity_cons (s : Severity) (v : Vulnerability) (l : list Vulnerability) :
  countSeverity s (v :: l)
  = (if decide (Vulnerability_Severity v = s) then 1 else 0) + countSeverity s l.
Proof.
  unfold countSeverity. rewrite filter_cons.
  destruct (decide (Vulnerability_Severity v = s)); simpl length; lia.
Qed.

Lemma countSeverity_bounds (s : Severity) (l : list Vulnerability) :
  0 <= countSeverity s l <= Z.of_nat (length l).
Proof.
  unfold countSeverity. pose proof (length_filter (fun v => Vulnerability_Severity v = s) l).
  lia.
Qed.

Lemma severity_constants_distinct :
  Low <> Medium /\ Low <> High /\ Low <> Critical /\
  Medium <> High /\ Medium <> Critical /\ High <> Critical.
Proof. repeat split; discriminate. Qed.

(** The loop adds, modulo [2^64], the number of entries of each named
    severity to the bucket of that severity. *)
Lemma GetVulnerabilityStats_foldl (l : list Vulnerability) (a b c d : Z) :
  foldl GetVulnerabilityStats_iter
    {| LowCount := wrap64 a; MediumCount := wrap64 b;
       HighCount := wrap64 c; CriticalCount := wrap64 d |} l
  = {| LowCount := wrap64 (a + countSeverity Low l);
       MediumCount := wrap64 (b + countSeverity Medium l);
       HighCount := wrap64 (c + countSeverity High l);
       CriticalCount := wrap64 (d + countSeverity Critical l) |}.
Proof.
  revert a b c d. induction l as [|v l IH]; intros a b c d.
  - simpl. unfold countSeverity. simpl. by rewrite !Z.add_0_r.
  - simpl foldl. rewrite !countSeverity_cons.
    destruct severity_constants_distinct as (H1 & H2 & H3 & H4 & H5 & H6).
    unfold GetVulnerabilityStats_iter; cbn [LowCount MediumCount HighCount CriticalCount].
    repeat case_decide; try congruence;
      rewrite ?int_add_wrap64, ?IH; f_equal; f_equal; lia.
Qed.

Lemma GetVulnerabilityStats_counts (l : list Vulnerability) :
  GetVulnerabilityStats l
  = {| LowCount := wrap64 (countSeverity Low l);
       MediumCount := wrap64 (countSeverity Medium l);
       HighCount := wrap64 (countSeverity High l);
       CriticalCount := wrap64 (countSeverity Critical l) |}.
Proof.
  unfold GetVulnerabilityStats, VulnerabilityStats_zero.
  change 0 with (wrap64 0). apply GetVulnerabilityStats_foldl.
Qed.

Lemma countSeverity_total (l : list Vulnerability) :
  let total := countSeverity Low l + countSeverity Medium l
               + countSeverity High l + countSeverity Critical l in
  total <= Z.of_nat (length l)
  /\ (total = Z.of_nat (length l) <-> Forall namedSeverity l).
Proof.
  destruct severity_constants_distinct as (H1 & H2 & H3 & H4 & H5 & H6).
  induction l as [|v l [IHle IHeq]]; cbn zeta in *.
  - unfold countSeverity; simpl. split; [lia|]. split; [constructor | reflexivity].
  - rewrite !countSeverity_cons, Forall_cons.
    replace (Z.of_nat (length (v :: l))) with (1 + Z.of_nat (length l))
      by (simpl length; lia).
    unfold namedSeverity at 1.
    repeat case_decide; try congruence;
      (split; [lia | split; [intros ?; split; [first [tauto | lia] | apply IHeq; lia]
                            | intros [Hv Hl]; apply IHeq in Hl; try lia;
                              destruct Hv as [?|[?|[?|?]]]; congruence]]).
Qed.

(** C10. [GetVulnerabilityStats] counts a vulnerability in the bucket of
    its severity when that severity is one of "low", "medium", "high",
    "critical" and in no bucket otherwise: one iteration of its loop
    increments exactly the bucket named by the severity and leaves the
    statistics alone for any other severity; over a whole slice each
    bucket holds the number of entries of its severity, the four buckets
    sum to at most the length of the slice, they sum to the length exactly
    when every severity is a named one, and there are slices on which the
    sum is smaller. The length of a Go slice fits an [int]. *)
Theorem GetVulnerabilityStats_buckets (l : list Vulnerability) :
  Z.of_nat (length l) < 2 ^ 63 ->
  let stats := GetVulnerabilityStats l in
  (LowCount stats = countSeverity Low l
   /\ MediumCount stats = countSeverity Medium l
   /\ HighCount stats = countSeverity High l
   /\ CriticalCount stats = countSeverity Critical l)
  /\ bucketSum stats <= Z.of_nat (length l)
  /\ (bucketSum stats = Z.of_nat (length l) <-> Forall namedSeverity l)
  /\ (forall (st : VulnerabilityStats) (v : Vulnerability),
        let st' := GetVulnerabilityStats_iter st v in
        (~ namedSeverity v -> st' = st)
        /\ LowCount st' = (if decide (Vulnerability_Severity v = Low)
                           then int_add (LowCount st) 1 else LowCount st)
        /\ MediumCount st' = (if decide (Vulnerability_Severity v = Medium)
                              then int_add (MediumCount st) 1 else MediumCount st)
        /\ HighCount st' = (if decide (Vulnerability_Severity v = High)
                            then int_add (HighCount st) 1 else HighCount st)
        /\ CriticalCount st' = (if decide (Vulnerability_Severity v = Critical)
                                then int_add (CriticalCount st) 1
                                else CriticalCount st))
  /\ (exists l' : list Vulnerability,
        Z.of_nat (length l') < 2 ^ 63
        /\ bucketSum (GetVulnerabilityStats l') < Z.of_nat (length l')).
Proof.
  intros Hlen stats.
  assert (Hcounts : LowCount stats = countSeverity Low l
                    /\ MediumCount stats = countSeverity Medium l
                    /\ HighCount stats = countSeverity High l
                    /\ CriticalCount stats = countSeverity Critical l).
  { subst stats. rewrite GetVulnerabilityStats_counts.
    cbn [LowCount MediumCount HighCount CriticalCount].
    pose proof (countSeverity_bounds Low l).
    pose proof (countSeverity_bounds Medium l).
    pose proof (countSeverity_bounds High l).
    pose proof (countSeverity_bounds Critical l).
    rewrite !wrap64_small by lia. done. }
  destruct (countSeverity_total l) as [Hle Heq].
  destruct Hcounts as (HL & HM & HH & HC).
  split; [done|].
  unfold bucketSum. rewrite HL, HM, HH, HC.
  split; [exact Hle|]. split; [exact Heq|]. split.
  - intros st v.
    destruct severity_constants_distinct as (H1 & H2 & H3 & H4 & H5 & H6).
    unfold GetVulnerabilityStats_iter, namedSeverity.
    repeat case_decide; cbn [LowCount MediumCount HighCount CriticalCount];
      repeat split; try congruence; tauto.
  - exists [Sample.vulnerability "V3" "root" ["<=1.0.0"] "unrated"].
    split; vm_compute; reflexivity.
Qed.

Lemma GetVulnerabilityStats_buckets_witness :
  Z.of_nat (length Sample.feed) < 2 ^ 63
  /\ LowCount (GetVulnerabilityStats Sample.feed) = 1
  /\ bucketSum (GetVulnerabilityStats Sample.feed) = 3.
Proof.
  assert (H : Z.of_nat (length Sample.feed) < 2 ^ 63) by (vm_compute; reflexivity).
  split; [exact H|].
  destruct (GetVulnerabilityStats_buckets Sample.feed H) as ((HL & HM & HH & HC) & _).
  unfold bucketSum. rewrite HL, HM, HH, HC. split; vm_compute; reflexivity.
Defined.

(** ** Expiry policy *)

Lemma Duration_Hours_lt_1 (d : Z) :
  Qlt_bool (Duration_Hours d) 1 = true <-> d < Hour.
Proof.
  unfold Qlt_bool. rewrite negb_true_iff, <- not_true_iff_false, Qle_bool_iff.
  pose proof (Z.quot_rem' d Hour) as Hd.
  unfold Duration_Hours, Qdiv.
  change (/ inject_Z (60 * 60 * 1000000000))%Q with (1 # 3600000000000)%Q.
  unfold Qle. cbn -[Z.quot Z.rem Z.mul Z.add Hour].
  rewrite !Pos.mul_1_l.
  change Hour with 3600000000000 in *. lia.
Qed.

Lemma Duration_Hours_gt_24 (d : Z) :
  Qlt_bool 24 (Duration_Hours d) = true <-> 24 * Hour < d.
Proof.
  unfold Qlt_bool. rewrite negb_true_iff, <- not_true_iff_false, Qle_bool_iff.
  pose proof (Z.quot_rem' d Hour) as Hd.
  unfold Duration_Hours, Qdiv.
  change (/ inject_Z (60 * 60 * 1000000000))%Q with (1 # 3600000000000)%Q.
  unfold Qle. cbn -[Z.quot Z.rem Z.mul Z.add Hour].
  rewrite !Pos.mul_1_l.
  change Hour with 3600000000000 in *. lia.
Qed.

Lemma calcExpire_eq (now lastUpdate : Time) :
  calcExpire now lastUpdate
  = now + Z.max Hour (Z.min (24 * Hour) (Z.quot (Time_Sub now lastUpdate) 100)).
Proof.
  unfold calcExpire, Time_Add. f_equal.
  set (expire := Z.quot (Time_Sub now lastUpdate) 100).
  destruct (Qlt_bool (Duration_Hours expire) 1) eqn:H1.
  - apply Duration_Hours_lt_1 in H1. change Hour with 3600000000000 in *. lia.
  - apply not_true_iff_false in H1. rewrite Duration_Hours_lt_1 in H1.
    destruct (Qlt_bool 24 (Duration_Hours expire)) eqn:H24.
    + apply Duration_Hours_gt_24 in H24. change Hour with 3600000000000 in *. lia.
    + apply not_true_iff_false in H24. rewrite Duration_Hours_gt_24 in H24.
      change Hour with 3600000000000 in *. lia.
Qed.

Lemma Time_Sub_exact (now age : Z) :
  minDuration <= age <= maxDuration -> Time_Sub now (now - age) = age.
Proof. unfold Time_Sub. intros H. replace (now - (now - age)) with age by lia. lia. Qed.

Lemma calcExpire_duration (now age : Z) :
  minDuration <= age <= maxDuration ->
  calcExpire now (now - age) - now
  = Z.max Hour (Z.min (24 * Hour) (Z.quot age 100)).
Proof. intros H. rewrite calcExpire_eq, Time_Sub_exact by done. lia. Qed.

(** C3, as the code has it. The expiry duration that [calcExpire] adds to
    the current time is [age / 100] clamped to at least one hour and at
    most 24 hours. For a record that is 10 minutes, 10 hours or 30 days
    old the duration is 1h, 1h and 7h12m (exactly [age / 100]): [age / 100]
    is used as it is only from an age of 100 hours on, and the cap of 24
    hours is reached only from an age of 100 days on. *)
Theorem calcExpire_clamp :
  (forall now lastUpdate : Time,
     calcExpire now lastUpdate - now
     = Z.max Hour (Z.min (24 * Hour) (Z.quot (Time_Sub now lastUpdate) 100)))
  /\ (forall now : Time, calcExpire now (now - 10 * Minute) - now = Hour)
  /\ (forall now : Time, calcExpire now (now - 10 * Hour) - now = Hour)
  /\ (forall now : Time,
        calcExpire now (now - 30 * 24 * Hour) - now = Z.quot (30 * 24 * Hour) 100
        /\ Z.quot (30 * 24 * Hour) 100 = 7 * Hour + 12 * Minute)
  /\ (forall now age : Z,
        100 * Hour <= age <= 100 * 24 * Hour ->
        calcExpire now (now - age) - now = Z.quot age 100)
  /\ (forall now age : Z,
        100 * 24 * Hour <= age <= maxDuration ->
        calcExpire now (now - age) - now = 24 * Hour)
  /\ (forall now age : Z,
        minDuration <= age <= 100 * Hour ->
        calcExpire now (now - age) - now = Hour).
Proof.
  split; [intros; rewrite calcExpire_eq; lia|].
  split; [intros; rewrite calcExpire_duration by (vm_compute; split; discriminate);
          vm_compute; reflexivity|].
  split; [intros; rewrite calcExpire_duration by (vm_compute; split; discriminate);
          vm_compute; reflexivity|].
  split; [intros; split; [|reflexivity];
          rewrite calcExpire_duration by (vm_compute; split; discriminate);
          vm_compute; reflexivity|].
  unfold minDuration, maxDuration.
  change Hour with 3600000000000.
  split; [|split]; intros now age Hage;
    rewrite calcExpire_duration by (unfold minDuration, maxDuration; lia);
    change Hour with 3600000000000;
    Z.to_euclidean_division_equations; lia.
Qed.

(** C3 as stated fails: a record that is 30 days old does not get the
    24-hour cap, and a record that is 10 hours old gets one hour, ten
    times [age / 100]. *)
Lemma calcExpire_examples_refuted :
  ~ (calcExpire (30 * 24 * Hour) 0 - 30 * 24 * Hour = 24 * Hour)
  /\ calcExpire (10 * Hour) 0 - 10 * Hour = 10 * Z.quot (10 * Hour) 100.
Proof. split; [vm_compute; discriminate | vm_compute; reflexivity]. Qed.

Lemma calcExpire_clamp_witness :
  100 * Hour <= 200 * Hour <= 100 * 24 * Hour
  /\ calcExpire 0 (0 - 200 * Hour) - 0 = Z.quot (200 * Hour) 100.
Proof.
  assert (H : 100 * Hour <= 200 * Hour <= 100 * 24 * Hour)
    by (vm_compute; split; discriminate).
  split; [exact H|].
  exact (proj1 (proj2 (proj2 (proj2 (proj2 calcExpire_clamp)))) 0 (200 * Hour) H).
Defined.

(** ** Version selection *)

Section MaxVersion.

Context {semver : Semver}.

Lemma MaxVersion_iter_inv `{!SemverOrder semver} (constraint : Constraints)
    (seen : list (string * VersionInfo))
    (acc : option SemverVersion * VersionInfo) (entry : string * VersionInfo) :
  MaxVersion_inv constraint seen acc ->
  MaxVersion_inv constraint (seen ++ [entry]) (MaxVersion_iter constraint acc entry).
Proof.
  destruct entry as [raw info], acc as [[m|] minfo];
    unfold MaxVersion_inv, MaxVersion_iter; cbn [fst snd].
  - intros [(raw0 & Hin & Hparse & Hvalid) Hmax].
    destruct (semver_NewVersion raw) as [v|] eqn:Hv.
    + destruct (semver_Validate constraint v) eqn:Hc.
      * destruct (semver_GreaterThan v m) eqn:Hgt; cbn [fst snd].
        -- split.
           ++ exists raw. rewrite elem_of_app, list_elem_of_singleton. eauto.
           ++ intros raw' info' v' Hin' Hparse' Hvalid'.
              rewrite elem_of_app, list_elem_of_singleton in Hin'.
              destruct Hin' as [Hin'|[= -> ->]].
              ** destruct (semver_GreaterThan v' v) eqn:Hgt'; [|done].
                 rewrite <- (Hmax raw' info' v' Hin' Hparse' Hvalid').
                 symmetry. eapply GreaterThan_trans; eauto.
              ** rewrite Hv in Hparse'. injection Hparse' as <-.
                 apply GreaterThan_irrefl.
        -- split.
           ++ exists raw0. rewrite elem_of_app. eauto.
           ++ intros raw' info' v' Hin' Hparse' Hvalid'.
              rewrite elem_of_app, list_elem_of_singleton in Hin'.
              destruct Hin' as [Hin'|[= -> ->]]; [eauto|].
              rewrite Hv in Hparse'. by injection Hparse' as <-.
      * cbn [fst snd]. split.
        -- exists raw0. rewrite elem_of_app. eauto.
        -- intros raw' info' v' Hin' Hparse' Hvalid'.
           rewrite elem_of_app, list_elem_of_singleton in Hin'.
           destruct Hin' as [Hin'|[= -> ->]]; [eauto|].
           rewrite Hv in Hparse'. injection Hparse' as <-. congruence.
    + cbn [fst snd]. split.
      * exists raw0. rewrite elem_of_app. eauto.
      * intros raw' info' v' Hin' Hparse' Hvalid'.
        rewrite elem_of_app, list_elem_of_singleton in Hin'.
        destruct Hin' as [Hin'|[= -> ->]]; [eauto|]. congruence.
  - intros Hnone.
    destruct (semver_NewVersion raw) as [v|] eqn:Hv.
    + destruct (semver_Validate constraint v) eqn:Hc; cbn [fst snd].
      * split.
        -- exists raw. rewrite elem_of_app, list_elem_of_singleton. eauto.
        -- intros raw' info' v' Hin' Hparse' Hvalid'.
           rewrite elem_of_app, list_elem_of_singleton in Hin'.
           destruct Hin' as [Hin'|[= -> ->]].
           ++ rewrite (Hnone raw' info' v' Hin' Hparse') in Hvalid'. done.
           ++ rewrite Hv in Hparse'. injection Hparse' as <-.
              apply GreaterThan_irrefl.
      * intros raw' info' v' Hin' Hparse'.
        rewrite elem_of_app, list_elem_of_singleton in Hin'.
        destruct Hin' as [Hin'|[= -> ->]]; [eauto|].
        rewrite Hv in Hparse'. by injection Hparse' as <-.
    + cbn [fst snd]. intros raw' info' v' Hin' Hparse'.
      rewrite elem_of_app, list_elem_of_singleton in Hin'.
      destruct Hin' as [Hin'|[= -> ->]]; [eauto|]. congruence.
Qed.

Lemma MaxVersion_foldl_inv `{!SemverOrder semver} (constraint : Constraints)
    (versions : list (string * VersionInfo)) :
  MaxVersion_inv constraint versions
    (foldl (MaxVersion_iter constraint) (None, VersionInfo_zero) versions).
Proof.
  induction versions as [|entry versions IH] using rev_ind.
  - simpl. unfold MaxVersion_inv. cbn [fst]. intros ? ? ? Hin. by apply elem_of_nil in Hin.
  - rewrite foldl_app. simpl. by apply MaxVersion_iter_inv.
Qed.

End MaxVersion.

Section MaxVersionSpec.

Context {semver : Semver}.

(** C6. [MaxVersion] returns the [VersionInfo] of a published version that
    satisfies the constraint and that no other satisfying published
    version exceeds in precedence; it returns an error exactly when the
    constraint does not parse or no published version satisfies it. *)
Theorem PackageInfo_MaxVersion_highest `{!SemverOrder semver}
    (p : PackageInfo) (constraintRaw : string) :
  match PackageInfo_MaxVersion p constraintRaw with
  | Ok maxVersionInfo =>
      exists constraint,
        semver_NewConstraint constraintRaw = Ok constraint
        /\ highestSatisfying constraint (PackageInfo_Versions p) maxVersionInfo
  | Err _ =>
      (exists e, semver_NewConstraint constraintRaw = Err e)
      \/ (exists constraint,
            semver_NewConstraint constraintRaw = Ok constraint
            /\ noneSatisfies constraint (PackageInfo_Versions p))
  end
  /\ ((exists e, PackageInfo_MaxVersion p constraintRaw = Err e)
      <-> (exists e, semver_NewConstraint constraintRaw = Err e)
          \/ (exists constraint,
                semver_NewConstraint constraintRaw = Ok constraint
                /\ noneSatisfies constraint (PackageInfo_Versions p))).
Proof.
  unfold PackageInfo_MaxVersion.
  destruct (semver_NewConstraint constraintRaw) as [constraint|e] eqn:Hc.
  - pose proof (MaxVersion_foldl_inv constraint (PackageInfo_Versions p)) as Hinv.
    destruct (foldl (MaxVersion_iter constraint) (None, VersionInfo_zero)
                (PackageInfo_Versions p)) as [[m|] minfo];
      unfold MaxVersion_inv in Hinv; cbn [fst snd] in Hinv.
    + destruct Hinv as [(raw & Hin & Hparse & Hvalid) Hmax]. split.
      * exists constraint. split; [done|]. exists raw, m. eauto.
      * split; [intros [e [=]]|].
        intros [[e [=]]|(c' & [= <-] & Hnone)].
        rewrite (Hnone raw minfo m Hin Hparse) in Hvalid. done.
    + split; [right; eauto|]. split; [right|]; eauto.
  - split; [left; eauto|]. split; [left|]; eauto.
Qed.

End MaxVersionSpec.

(** The reference instance orders versions strictly. *)
Lemma RefSemver_compare_Gt (a b : RefSemver.version) :
  RefSemver.compare a b = Gt
  <-> (a.1.1 > b.1.1
       \/ (a.1.1 = b.1.1 /\ a.1.2 > b.1.2)
       \/ (a.1.1 = b.1.1 /\ a.1.2 = b.1.2 /\ a.2 > b.2))%N.
Proof.
  unfold RefSemver.compare.
  destruct (N.compare_spec a.1.1 b.1.1), (N.compare_spec a.1.2 b.1.2),
    (N.compare_spec a.2 b.2); split; try discriminate; try reflexivity; lia.
Qed.

#[export] Instance RefSemver_order : SemverOrder RefSemver.semver.
Proof.
  split; cbn [semver_GreaterThan RefSemver.semver SemverVersion];
    unfold RefSemver.greaterThan.
  - intros v. destruct (RefSemver.compare v v) eqn:H; try reflexivity.
    apply RefSemver_compare_Gt in H. lia.
  - intros a b c Hab Hbc.
    destruct (RefSemver.compare a b) eqn:H1; try discriminate.
    destruct (RefSemver.compare b c) eqn:H2; try discriminate.
    apply RefSemver_compare_Gt in H1, H2.
    assert (H3 : RefSemver.compare a c = Gt) by (apply RefSemver_compare_Gt; lia).
    by rewrite H3.
Qed.

Lemma PackageInfo_MaxVersion_highest_witness :
  PackageInfo_MaxVersion (semver := RefSemver.semver) Sample.dep "<2.0.0"
  = Ok Sample.dep_1_5_0
  /\ exists constraint,
       semver_NewConstraint (Semver := RefSemver.semver) "<2.0.0" = Ok constraint
       /\ highestSatisfying constraint (PackageInfo_Versions Sample.dep)
            Sample.dep_1_5_0.
Proof.
  split; [vm_compute; reflexivity|].
  exact (proj1 (PackageInfo_MaxVersion_highest (semver := RefSemver.semver)
                  (SemverOrder0 := RefSemver_order) Sample.dep "<2.0.0")).
Defined.

(** ** Platform filter *)

Lemma strArrContain_elem_of (array : list string) (s : string) :
  strArrContain array s = true <-> s ∈ array.
Proof.
  induction array as [|item rest IH]; simpl.
  - split; [discriminate | intros H; by apply elem_of_nil in H].
  - rewrite elem_of_cons. case_decide; [subst; tauto|].
    rewrite IH. split; [tauto | intros [?|?]; congruence].
Qed.

Lemma VersionInfo_MatchPlatform_false (p : VersionInfo) (os cpu : string) :
  VersionInfo_MatchPlatform p os cpu = false
  <-> (VersionInfo_Os p <> [] /\ os ∉ VersionInfo_Os p)
      \/ (VersionInfo_Cpu p <> [] /\ cpu ∉ VersionInfo_Cpu p).
Proof.
  unfold VersionInfo_MatchPlatform.
  rewrite <- !strArrContain_elem_of.
  destruct (VersionInfo_Os p) as [|o osl] eqn:Hos,
           (VersionInfo_Cpu p) as [|c cl] eqn:Hcpu;
    cbn [length Z.of_nat Z.ltb Z.compare andb];
    try destruct (strArrContain (o :: osl) os);
    try destruct (strArrContain (c :: cl) cpu);
    cbn [negb]; intuition (try discriminate; try congruence).
Qed.

Section ResolverProps.

Context {semver : Semver}.
Context (packagePool : string -> result PackageInfo).

Lemma HasMatchingVersion_true (versions : list string) (constraint : Constraints) :
  HasMatchingVersion versions constraint = true <-> someSatisfies versions constraint.
Proof.
  unfold someSatisfies. induction versions as [|vRaw rest IH]; simpl.
  - split; [discriminate | intros (? & ? & H & _); by apply elem_of_nil in H].
  - destruct (semver_NewVersion vRaw) as [v|] eqn:Hv.
    + destruct (semver_Validate constraint v) eqn:Hc.
      * split; [|done]. intros _. exists vRaw, v. rewrite elem_of_cons. eauto.
      * rewrite IH. split.
        -- intros (r & w & Hin & ?). exists r, w. rewrite elem_of_cons. eauto.
        -- intros (r & w & Hin & Hr & Hw). apply elem_of_cons in Hin as [->|Hin]; [|eauto].
           congruence.
    + rewrite IH. split.
      * intros (r & w & Hin & ?). exists r, w. rewrite elem_of_cons. eauto.
      * intros (r & w & Hin & Hr & Hw). apply elem_of_cons in Hin as [->|Hin]; [|eauto].
        congruence.
Qed.

Lemma HasMatchingVersion_false (versions : list string) (constraint : Constraints) :
  HasMatchingVersion versions constraint = false <-> ~ someSatisfies versions constraint.
Proof. rewrite <- HasMatchingVersion_true. by destruct (HasMatchingVersion _ _). Qed.

(** C8. When the selected child version restricts the operating systems
    or the CPU architectures and the target platform (os "linux",
    cpu "x64") is not in the corresponding list, the loop body leaves the
    aggregate exactly as it was (no version, no statistics, no error) and
    does not recurse; a version whose [Os] and [Cpu] lists are both empty
    passes the filter for every platform. *)
Theorem GatherDependencies_platform_skip
    (recurse : VersionInfo -> Version -> option Version) (parent : Version)
    (name constraintRaw : string) (constraint : Constraints)
    (childVersion : VersionInfo) :
  selects packagePool name constraintRaw constraint childVersion ->
  ((VersionInfo_Os childVersion <> [] /\ "linux" ∉ VersionInfo_Os childVersion)
   \/ (VersionInfo_Cpu childVersion <> [] /\ "x64" ∉ VersionInfo_Cpu childVersion)
   -> GatherDependencies_edge packagePool recurse parent name constraintRaw
      = Some parent)
  /\ (VersionInfo_Os childVersion = [] -> VersionInfo_Cpu childVersion = [] ->
      forall os cpu, VersionInfo_MatchPlatform childVersion os cpu = true).
Proof.
  intros (packageInfo & Hfetch & Hc & Hmax). split.
  - intros Hplat. apply VersionInfo_MatchPlatform_false in Hplat.
    unfold GatherDependencies_edge. by rewrite Hfetch, Hc, Hmax, Hplat.
  - intros Hos Hcpu os cpu. unfold VersionInfo_MatchPlatform. by rewrite Hos, Hcpu.
Qed.

End ResolverProps.

Lemma GatherDependencies_platform_skip_witness :
  let parent := NewVersion Sample.root_1_0_0 0 in
  GatherDependencies_edge (semver := RefSemver.semver) Sample.packagePool
    (fun _ _ => None) parent "winonly" "1.0.0" = Some parent.
Proof.
  intros parent.
  refine (proj1 (GatherDependencies_platform_skip (semver := RefSemver.semver)
                   Sample.packagePool (fun _ _ => None) parent "winonly" "1.0.0"
                   (RefSemver.OpEq, (1, 0, 0)%N)
                   (Sample.info "winonly" "1.0.0" [] "carol" 8 ["win32"]) _) _).
  - exists Sample.winonly. repeat split; vm_compute; reflexivity.
  - left. split; [discriminate|]. vm_compute. intros H.
    apply list_elem_of_singleton in H. discriminate.
Defined.

(** ** The deduplication rule *)

Section Dedup.

Context {semver : Semver}.
Context (packagePool : string -> result PackageInfo).


End Dedup.

(** The resolver on the sample registry: ["a"] asks for ["dep"] below 2.0.0
    and gets 1.5.0, ["b"] asks for 2.0.0 or more and gets 2.1.0 as a second
    entry, ["c"] asks for anything below 3.0.0 and adds nothing. *)
Example GatherDependencies_sample_dep :
  (fun v => Version_Dependencies v !! "dep")
    <$> VersionInfo_GatherDependencies (semver := RefSemver.semver)
          Sample.packagePool 3 Sample.root_1_0_0
          (NewVersion Sample.root_1_0_0 0) false
  = Some (Some ["1.5.0"; "2.1.0"]).
Proof. vm_compute. reflexivity. Qed.


(** ** Invariants of the aggregate *)

Section Preservation.

Context {semver : Semver}.
Context (packagePool : string -> result PackageInfo).

(** A property of the aggregate that survives recording an error and
    merging a child survives the whole of [GatherDependencies]. *)
Context (P : Version -> Prop).
Hypothesis P_appendError :
  forall parent msg, P parent -> P (Version_appendError parent msg).
Hypothesis P_append :
  forall parent name versions childVersion,
    P parent ->
    Version_Dependencies parent !! name = Some versions ->
    P (Version_mergeChild
         (Version_setDependency parent name
            (versions ++ [VersionInfo_Version childVersion]) false)
         childVersion).
Hypothesis P_create :
  forall parent name childVersion,
    P parent ->
    Version_Dependencies parent !! name = None ->
    P (Version_mergeChild
         (Version_setDependency parent name
            [VersionInfo_Version childVersion] true)
         childVersion).

Lemma GatherDependencies_edge_preserves
    (recurse : VersionInfo -> Version -> option Version)
    (parent parent' : Version) (name constraintRaw : string) :
  preserves P recurse ->
  P parent ->
  GatherDependencies_edge packagePool recurse parent name constraintRaw
  = Some parent' ->
  P parent'.
Proof.
  intros Hrec HP. unfold GatherDependencies_edge.
  destruct (packagePool name) as [packageInfo|e]; [|intros [= <-]; auto].
  destruct (semver_NewConstraint constraintRaw) as [constraint|e];
    [|intros [= <-]; auto].
  destruct (PackageInfo_MaxVersion packageInfo constraintRaw) as [childVersion|e];
    [|intros [= <-]; auto].
  destruct (negb (VersionInfo_MatchPlatform childVersion "linux" "x64"));
    [intros [= <-]; auto|].
  destruct (Version_Dependencies parent !! name) as [versions|] eqn:Hdeps.
  - destruct (negb (HasMatchingVersion versions constraint));
      [|intros [= <-]; auto].
    intros Hr. eapply Hrec; [|exact Hr]. by apply P_append.
  - intros Hr. eapply Hrec; [|exact Hr]. by apply P_create.
Qed.

Lemma GatherDependencies_edges_preserves
    (recurse : VersionInfo -> Version -> option Version)
    (edges : list (string * string)) (parent parent' : Version) :
  preserves P recurse ->
  P parent ->
  GatherDependencies_edges packagePool recurse edges parent = Some parent' ->
  P parent'.
Proof.
  intros Hrec. revert parent.
  induction edges as [|[name constraintRaw] rest IH]; intros parent HP; simpl.
  - by intros [= <-].
  - destruct (GatherDependencies_edge packagePool recurse parent name constraintRaw)
      as [parent1|] eqn:Hedge; [|done].
    apply IH. eapply GatherDependencies_edge_preserves; eauto.
Qed.

Lemma GatherDependencies_preserves (fuel : nat) (p : VersionInfo)
    (parent parent' : Version) (alsoDev : bool) :
  P parent ->
  VersionInfo_GatherDependencies packagePool fuel p parent alsoDev = Some parent' ->
  P parent'.
Proof.
  revert p parent parent' alsoDev.
  induction fuel as [|fuel IH]; intros p parent parent' alsoDev HP; simpl; [done|].
  destruct (_ || _); [|by intros [= <-]].
  apply GatherDependencies_edges_preserves; [|done].
  intros childVersion parent1 parent2 HP1 Hr. by eapply IH.
Qed.

End Preservation.

Lemma countVersions_empty : countVersions ∅ = 0.
Proof. unfold countVersions. by rewrite map_fold_empty. Qed.

Lemma countVersions_insert_None (dependencies : gmap string (list string))
    (name : string) (versions : list string) :
  dependencies !! name = None ->
  countVersions (<[ name := versions ]> dependencies)
  = Z.of_nat (length versions) + countVersions dependencies.
Proof.
  intros Hnone. unfold countVersions.
  rewrite map_fold_insert_L; [done| |done]. intros; lia.
Qed.

Lemma countVersions_insert_Some (dependencies : gmap string (list string))
    (name : string) (old versions : list string) :
  dependencies !! name = Some old ->
  countVersions (<[ name := versions ]> dependencies)
  = countVersions dependencies - Z.of_nat (length old) + Z.of_nat (length versions).
Proof.
  intros Hsome.
  rewrite <- (insert_delete_eq dependencies).
  rewrite countVersions_insert_None by apply lookup_delete_eq.
  unfold countVersions at 2.
  rewrite (map_fold_delete_L _ _ name old dependencies); [|intros; lia|done].
  fold (countVersions (delete name dependencies)). lia.
Qed.

Lemma NewVersion_consistent (versionInfo : VersionInfo) (time : Time) :
  Version_consistent (NewVersion versionInfo time).
Proof.
  unfold Version_consistent, NewVersion; cbn.
  rewrite map_size_empty, countVersions_empty. repeat split.
  intros name versions. by rewrite lookup_empty.
Qed.

Lemma Version_appendError_consistent (parent : Version) (msg : string) :
  Version_consistent parent -> Version_consistent (Version_appendError parent msg).
Proof. done. Qed.

Lemma Version_append_consistent (parent : Version) (name : string)
    (versions : list string) (childVersion : VersionInfo) :
  Version_consistent parent ->
  Version_Dependencies parent !! name = Some versions ->
  Version_consistent
    (Version_mergeChild
       (Version_setDependency parent name
          (versions ++ [VersionInfo_Version childVersion]) false)
       childVersion).
Proof.
  intros (HP & HV & HN) Hdeps. unfold Version_consistent; cbn.
  rewrite map_size_insert_Some by eauto.
  rewrite (countVersions_insert_Some _ _ versions) by done.
  rewrite HV, int_add_wrap64, length_app. simpl length.
  split; [done|]. split; [f_equal; lia|].
  intros name' versions'. rewrite lookup_insert.
  case_decide; [intros [= <-]; by destruct versions | apply HN].
Qed.

Lemma Version_create_consistent (parent : Version) (name : string)
    (childVersion : VersionInfo) :
  Version_consistent parent ->
  Version_Dependencies parent !! name = None ->
  Version_consistent
    (Version_mergeChild
       (Version_setDependency parent name [VersionInfo_Version childVersion] true)
       childVersion).
Proof.
  intros (HP & HV & HN) Hdeps. unfold Version_consistent; cbn.
  rewrite map_size_insert_None by done.
  rewrite countVersions_insert_None by done.
  rewrite HP, HV, !int_add_wrap64. simpl length.
  split; [f_equal; lia|]. split; [f_equal; lia|].
  intros name' versions'. rewrite lookup_insert.
  case_decide; [by intros [= <-] | apply HN].
Qed.

Section Resolved.

Context {semver : Semver}.
Context (DbGetVulnerabilitiesForPackages :
           list string -> result (list Vulnerability)).
Context (packagePool : string -> result PackageInfo).

Lemma Version_GatherVulnerabilities_consistent (parent parent' : Version) :
  Version_consistent parent ->
  Version_GatherVulnerabilities DbGetVulnerabilitiesForPackages parent
  = Ok parent' ->
  Version_consistent parent'.
Proof.
  intros HP. unfold Version_GatherVulnerabilities.
  destruct (DbGetVulnerabilitiesForPackages _); [|done].
  by intros [= <-].
Qed.

(** What [PackageInfo.GatherDependencies] returns is such an aggregate. *)
Lemma PackageInfo_GatherDependencies_resolved (fuel : nat) (p : PackageInfo)
    (versionRaw : string) (v : Version) :
  PackageInfo_GatherDependencies DbGetVulnerabilitiesForPackages packagePool
    fuel p versionRaw = Some (Ok v) ->
  resolved DbGetVulnerabilitiesForPackages packagePool v.
Proof.
  unfold PackageInfo_GatherDependencies.
  set (root := if decide (versionRaw <> "") then _ else _).
  destruct root as [versionInfo|e]; [|done].
  destruct (VersionInfo_GatherDependencies _ _ _ _ _) as [parent|] eqn:Hrun; [|done].
  destruct (Version_GatherVulnerabilities _ parent) as [v'|e] eqn:Hvuln; [|done].
  intros [= <-].
  eapply resolved_GatherVulnerabilities; [|exact Hvuln].
  eapply resolved_GatherDependencies; [apply resolved_NewVersion | exact Hrun].
Qed.

(** C4. In every aggregate that resolution produces, the package counter
    is 1 plus the number of names in the dependency map, the version
    counter is 1 plus the number of version strings over all the lists of
    the map, and no list in the map is empty. The counters are Go [int]s:
    the equations hold modulo [2^64], and as plain equations as long as
    the counts fit an [int]. *)
Theorem resolved_stats_consistent (v : Version) :
  resolved DbGetVulnerabilitiesForPackages packagePool v ->
  let packages := 1 + Z.of_nat (size (Version_Dependencies v)) in
  let versions := 1 + countVersions (Version_Dependencies v) in
  Stats_Packages (Version_Stats v) = wrap64 packages
  /\ Stats_Versions (Version_Stats v) = wrap64 versions
  /\ (packages < 2 ^ 63 -> Stats_Packages (Version_Stats v) = packages)
  /\ (versions < 2 ^ 63 -> Stats_Versions (Version_Stats v) = versions)
  /\ (forall name versions,
        Version_Dependencies v !! name = Some versions -> versions <> []).
Proof.
  intros Hres.
  assert (Hcons : Version_consistent v).
  { induction Hres as [versionInfo time|fuel p parent parent' alsoDev _ IH Hrun
                      |parent parent' _ IH Hrun].
    - apply NewVersion_consistent.
    - revert Hrun. apply GatherDependencies_preserves; [| | |exact IH].
      + apply Version_appendError_consistent.
      + apply Version_append_consistent.
      + apply Version_create_consistent.
    - by eapply Version_GatherVulnerabilities_consistent. }
  destruct Hcons as (HP & HV & HN). cbn zeta.
  assert (Hcount : 0 <= countVersions (Version_Dependencies v)).
  { unfold countVersions. apply (map_fold_weak_ind (fun n _ => 0 <= n)); [done|].
    intros; lia. }
  repeat split; try done.
  - intros Hb. rewrite HP. apply wrap64_small. lia.
  - intros Hb. rewrite HV. apply wrap64_small. lia.
Qed.

End Resolved.

Lemma resolved_stats_consistent_witness :
  exists v : Version,
    VersionInfo_GatherDependencies (semver := RefSemver.semver)
      Sample.packagePool 3 Sample.root_1_0_0 (NewVersion Sample.root_1_0_0 0) false
    = Some v
    /\ size (Version_Dependencies v) = 4%nat
    /\ countVersions (Version_Dependencies v) = 5
    /\ Stats_Packages (Version_Stats v) = 5
    /\ Stats_Versions (Version_Stats v) = 6.
Proof.
  destruct (VersionInfo_GatherDependencies (semver := RefSemver.semver)
              Sample.packagePool 3 Sample.root_1_0_0
              (NewVersion Sample.root_1_0_0 0) false) as [v|] eqn:Hrun;
    [|vm_compute in Hrun; discriminate].
  exists v. split; [reflexivity|].
  assert (Hres : resolved (semver := RefSemver.semver) Sample.dbOk
                   Sample.packagePool v).
  { eapply resolved_GatherDependencies; [apply resolved_NewVersion | exact Hrun]. }
  pose proof (resolved_stats_consistent (semver := RefSemver.semver)
                Sample.dbOk Sample.packagePool v Hres) as (_ & _ & HP & HV & _).
  assert (Hsize : size (Version_Dependencies v) = 4%nat).
  { vm_compute in Hrun. injection Hrun as <-. vm_compute. reflexivity. }
  assert (Hcount : countVersions (Version_Dependencies v) = 5).
  { vm_compute in Hrun. injection Hrun as <-. vm_compute. reflexivity. }
  rewrite Hsize, Hcount in *.
  repeat split; [apply HP | apply HV]; reflexivity.
Defined.

(** ** The recursion bound

    A run that comes back within a bound comes back with the same
    aggregate within any larger bound: the bound only decides whether the
    model reports a result, never which one. *)

Section Fuel.

Context {semver : Semver}.
Context (packagePool : string -> result PackageInfo).

Lemma GatherDependencies_edge_mono
    (recurse1 recurse2 : VersionInfo -> Version -> option Version)
    (parent parent' : Version) (name constraintRaw : string) :
  (forall childVersion parent1 parent2,
     recurse1 childVersion parent1 = Some parent2 ->
     recurse2 childVersion parent1 = Some parent2) ->
  GatherDependencies_edge packagePool recurse1 parent name constraintRaw
  = Some parent' ->
  GatherDependencies_edge packagePool recurse2 parent name constraintRaw
  = Some parent'.
Proof.
  intros Hrec. unfold GatherDependencies_edge.
  destruct (packagePool name) as [packageInfo|e]; [|done].
  destruct (semver_NewConstraint constraintRaw) as [constraint|e]; [|done].
  destruct (PackageInfo_MaxVersion packageInfo constraintRaw) as [childVersion|e];
    [|done].
  destruct (negb (VersionInfo_MatchPlatform childVersion "linux" "x64")); [done|].
  destruct (Version_Dependencies parent !! name) as [versions|]; [|apply Hrec].
  destruct (negb (HasMatchingVersion versions constraint)); [apply Hrec | done].
Qed.

Lemma GatherDependencies_edges_mono
    (recurse1 recurse2 : VersionInfo -> Version -> option Version)
    (edges : list (string * string)) (parent parent' : Version) :
  (forall childVersion parent1 parent2,
     recurse1 childVersion parent1 = Some parent2 ->
     recurse2 childVersion parent1 = Some parent2) ->
  GatherDependencies_edges packagePool recurse1 edges parent = Some parent' ->
  GatherDependencies_edges packagePool recurse2 edges parent = Some parent'.
Proof.
  intros Hrec. revert parent.
  induction edges as [|[name constraintRaw] rest IH]; intros parent; simpl; [done|].
  destruct (GatherDependencies_edge packagePool recurse1 parent name constraintRaw)
    as [parent1|] eqn:Hedge; [|done].
  rewrite (GatherDependencies_edge_mono _ _ _ _ _ _ Hrec Hedge). apply IH.
Qed.

Lemma GatherDependencies_fuel_mono (fuel fuel' : nat) (p : VersionInfo)
    (parent parent' : Version) (alsoDev : bool) :
  (fuel <= fuel')%nat ->
  VersionInfo_GatherDependencies packagePool fuel p parent alsoDev = Some parent' ->
  VersionInfo_GatherDependencies packagePool fuel' p parent alsoDev = Some parent'.
Proof.
  revert fuel' p parent parent' alsoDev.
  induction fuel as [|fuel IH]; intros fuel' p parent parent' alsoDev Hle; [done|].
  destruct fuel' as [|fuel']; [lia|]. simpl.
  destruct (_ || _); [|done].
  apply GatherDependencies_edges_mono.
  intros childVersion parent1 parent2. apply IH. lia.
Qed.

End Fuel.

(** ** The publishers histogram *)

Lemma VersionInfo_GetPublisher_empty (v : VersionInfo) :
  VersionInfo_GetPublisher v = ""
  <-> NpmUser_Name (VersionInfo_NpmUser v) = ""
      /\ NpmUser_Email (VersionInfo_NpmUser v) = "".
Proof.
  unfold VersionInfo_GetPublisher.
  destruct (NpmUser_Name (VersionInfo_NpmUser v)) as [|c n] eqn:Hn,
           (NpmUser_Email (VersionInfo_NpmUser v)) as [|d m] eqn:Hm;
    repeat case_decide; try congruence; simpl; split;
    try discriminate; try tauto; intros [? ?]; discriminate.
Qed.

(** C9. The histogram treats the root and the children differently.
    [NewVersion] enters the root's publisher with count 1 only when the
    publisher string is not empty, so the histogram of a fresh aggregate
    has no entry for the empty string. For a child that is gathered (its
    version is added, because the name is new or no recorded version
    satisfies the constraint) the entry of the child's publisher string is
    incremented, from 0 when it is missing, whatever the string is: when
    the child has neither a user name nor an e-mail the entry for the
    empty string is created. On the sample registry the resolved tree of
    ["root"] has such an entry, with count 2. *)
Theorem publishers_root_child_asymmetry :
  (forall (versionInfo : VersionInfo) (time : Time),
     Version_Publishers (NewVersion versionInfo time)
     = (if decide (VersionInfo_GetPublisher versionInfo = "") then ∅
        else {[ VersionInfo_GetPublisher versionInfo := 1 ]})
     /\ Version_Publishers (NewVersion versionInfo time) !! "" = None)
  /\ (forall (semver : Semver) (packagePool : string -> result PackageInfo)
        (recurse : VersionInfo -> Version -> option Version) (parent : Version)
        (name constraintRaw : string) (constraint : Constraints)
        (childVersion : VersionInfo),
        selects packagePool name constraintRaw constraint childVersion ->
        VersionInfo_MatchPlatform childVersion "linux" "x64" = true ->
        (Version_Dependencies parent !! name = None
         \/ exists versions,
              Version_Dependencies parent !! name = Some versions
              /\ ~ someSatisfies versions constraint) ->
        exists parent1,
          GatherDependencies_edge packagePool recurse parent name constraintRaw
          = recurse childVersion parent1
          /\ Version_Publishers parent1
             = <[ VersionInfo_GetPublisher childVersion :=
                    int_add (default 0 (Version_Publishers parent
                                        !! VersionInfo_GetPublisher childVersion)) 1 ]>
                 (Version_Publishers parent)
          /\ (VersionInfo_GetPublisher childVersion = "" ->
              is_Some (Version_Publishers parent1 !! "")))
  /\ (exists v : Version,
        PackageInfo_GatherDependencies (semver := RefSemver.semver)
          Sample.dbOk Sample.packagePool 3 Sample.root "1.0.0" = Some (Ok v)
        /\ Version_Publishers v !! "" = Some 2).
Proof.
  split; [|split].
  - intros versionInfo time. unfold NewVersion; cbn [Version_Publishers].
    destruct (decide (VersionInfo_GetPublisher versionInfo = "")) as [He|Hne].
    + rewrite decide_False by tauto. by rewrite lookup_empty.
    + rewrite decide_True by done. split; [done|]. by rewrite lookup_singleton_ne.
  - intros semver packagePool recurse parent name constraintRaw constraint
      childVersion (packageInfo & Hfetch & Hc & Hmax) Hplat Hgather.
    unfold GatherDependencies_edge. rewrite Hfetch, Hc, Hmax, Hplat. cbn [negb].
    destruct Hgather as [Hnone|(versions & Hsome & Hnosat)].
    + rewrite Hnone. eexists. split; [reflexivity|]. cbn [Version_mergeChild
        Version_setDependency Version_Publishers]. split; [done|].
      intros ->. rewrite lookup_insert_eq. eauto.
    + apply HasMatchingVersion_false in Hnosat. rewrite Hsome, Hnosat. cbn [negb].
      eexists. split; [reflexivity|]. cbn [Version_mergeChild
        Version_setDependency Version_Publishers]. split; [done|].
      intros ->. rewrite lookup_insert_eq. eauto.
  - destruct (PackageInfo_GatherDependencies (semver := RefSemver.semver)
                Sample.dbOk Sample.packagePool 3 Sample.root "1.0.0")
      as [[v|e]|] eqn:Hrun; vm_compute in Hrun; try discriminate.
    exists v. split; [reflexivity|].
    injection Hrun as <-. vm_compute. reflexivity.
Qed.

Lemma publishers_root_child_asymmetry_witness :
  exists parent1 : Version,
    GatherDependencies_edge (semver := RefSemver.semver) Sample.packagePool
      (fun _ parent' => Some parent') (NewVersion Sample.root_1_0_0 0)
      "dep" "<2.0.0"
    = Some parent1
    /\ is_Some (Version_Publishers parent1 !! "").
Proof.
  destruct (proj1 (proj2 publishers_root_child_asymmetry) RefSemver.semver
              Sample.packagePool (fun _ parent' => Some parent')
              (NewVersion Sample.root_1_0_0 0) "dep" "<2.0.0"
              (RefSemver.OpLt, (2, 0, 0)%N) Sample.dep_1_5_0)
    as (parent1 & Hedge & _ & Hempty).
  - exists Sample.dep. repeat split; vm_compute; reflexivity.
  - vm_compute. reflexivity.
  - left. vm_compute. reflexivity.
  - exists parent1. split; [exact Hedge|]. apply Hempty. vm_compute. reflexivity.
Defined.

(** ** Containment of failures *)

Section Containment.

Context {semver : Semver}.
Context (DbGetVulnerabilitiesForPackages :
           list string -> result (list Vulnerability)).
Context (packagePool : string -> result PackageInfo).

Lemma Version_GatherVulnerabilities_Err (v : Version) (e : string) :
  Version_GatherVulnerabilities DbGetVulnerabilitiesForPackages v = Err e
  <-> exists e',
        DbGetVulnerabilitiesForPackages
          (VersionInfo_Name (Version_Info v)
           :: (map_to_list (Version_Dependencies v)).*1) = Err e'
        /\ e = "could not get vulnerabilities for package "
               +:+ VersionInfo_Name (Version_Info v) +:+ ": " +:+ e'.
Proof.
  unfold Version_GatherVulnerabilities.
  destruct (DbGetVulnerabilitiesForPackages _) as [all|e'].
  - split; [discriminate | intros (? & [=] & _)].
  - split; [intros [= <-]; eauto | intros (? & [= <-] & ->); done].
Qed.

(** C2, as the code has it. An edge whose metadata request fails, whose
    constraint does not parse or for which no version matches makes the
    loop body append one message to the error list of the aggregate,
    change nothing else, and never call the recursion; the loop then goes
    on with the remaining edges from that aggregate. The call of
    [PackageInfo.GatherDependencies] returns an error in exactly two
    cases: the requested version (a non-empty [versionRaw]) is not among
    the package's versions, or the dependencies were gathered and the
    vulnerability lookup that follows failed. *)
Theorem GatherDependencies_failures_contained :
  (forall (recurse : VersionInfo -> Version -> option Version)
          (parent : Version) (name constraintRaw msg : string)
          (rest : list (string * string)),
     edgeFailure packagePool name constraintRaw = Some msg ->
     let parent' := Version_appendError parent msg in
     GatherDependencies_edge packagePool recurse parent name constraintRaw
     = Some parent'
     /\ GatherDependencies_edges packagePool recurse
          ((name, constraintRaw) :: rest) parent
        = GatherDependencies_edges packagePool recurse rest parent'
     /\ Version_Errors parent' = Version_Errors parent ++ [msg]
     /\ Version_Info parent' = Version_Info parent
     /\ Version_Time parent' = Version_Time parent
     /\ Version_Dependencies parent' = Version_Dependencies parent
     /\ Version_Publishers parent' = Version_Publishers parent
     /\ Version_Vulnerabilities parent' = Version_Vulnerabilities parent
     /\ Version_Stats parent' = Version_Stats parent)
  /\ (forall (fuel : nat) (p : PackageInfo) (versionRaw e : string),
        PackageInfo_GatherDependencies DbGetVulnerabilitiesForPackages
          packagePool fuel p versionRaw = Some (Err e)
        <-> (rootVersion p versionRaw = None
             /\ e = "could not find version " +:+ versionRaw +:+ " in "
                    +:+ PackageInfo_Name p)
            \/ (exists versionInfo parent e',
                  rootVersion p versionRaw = Some versionInfo
                  /\ VersionInfo_GatherDependencies packagePool fuel versionInfo
                       (NewVersion versionInfo
                          (default Time_zero
                             (PackageInfo_Time p
                              !! VersionInfo_Version versionInfo))) false
                     = Some parent
                  /\ Version_GatherVulnerabilities
                       DbGetVulnerabilitiesForPackages parent = Err e'
                  /\ e = "could not gather vulns for " +:+ PackageInfo_Name p
                         +:+ " version " +:+ versionRaw +:+ ": " +:+ e')).
Proof.
  split.
  - intros recurse parent name constraintRaw msg rest Hfail parent'.
    assert (Hedge : GatherDependencies_edge packagePool recurse parent name
                      constraintRaw = Some parent').
    { revert Hfail. unfold edgeFailure, GatherDependencies_edge. subst parent'.
      destruct (packagePool name) as [packageInfo|e1]; [|by intros [= <-]].
      destruct (semver_NewConstraint constraintRaw) as [constraint|e2];
        [|by intros [= <-]].
      destruct (PackageInfo_MaxVersion packageInfo constraintRaw) as [child|e3];
        [done | by intros [= <-]]. }
    split; [exact Hedge|]. split; [|done].
    simpl. by rewrite Hedge.
  - intros fuel p versionRaw e.
    unfold PackageInfo_GatherDependencies, rootVersion.
    destruct (decide (versionRaw <> "")) as [Hne|Heq].
    + destruct (mapIndex (PackageInfo_Versions p) versionRaw) as [versionInfo|].
      * destruct (VersionInfo_GatherDependencies _ _ _ _ _) as [parent|] eqn:Hrun.
        -- destruct (Version_GatherVulnerabilities _ parent) as [v|e'] eqn:Hvuln.
           ++ split; [discriminate|].
              intros [[[=] _]|(vi & parent1 & e1 & [= <-] & Hrun1 & Hv1 & _)].
              rewrite Hrun in Hrun1. injection Hrun1 as <-. congruence.
           ++ split.
              ** intros [= <-]. right. exists versionInfo, parent, e'. done.
              ** intros [[[=] _]|(vi & parent1 & e1 & [= <-] & Hrun1 & Hv1 & ->)].
                 rewrite Hrun in Hrun1. injection Hrun1 as <-. congruence.
        -- split; [discriminate|].
           intros [[[=] _]|(vi & parent1 & e1 & [= <-] & Hrun1 & _)].
           rewrite Hrun in Hrun1. done.
      * split.
        -- intros [= <-]. by left.
        -- intros [[_ ->]|(vi & parent1 & e1 & [=] & _)]. done.
    + destruct (VersionInfo_GatherDependencies _ _ _ _ _) as [parent|] eqn:Hrun.
      * destruct (Version_GatherVulnerabilities _ parent) as [v|e'] eqn:Hvuln.
        -- split; [discriminate|].
           intros [[[=] _]|(vi & parent1 & e1 & [= <-] & Hrun1 & Hv1 & _)].
           rewrite Hrun in Hrun1. injection Hrun1 as <-. congruence.
        -- split.
           ++ intros [= <-]. right. eexists _, parent, e'. done.
           ++ intros [[[=] _]|(vi & parent1 & e1 & [= <-] & Hrun1 & Hv1 & ->)].
              rewrite Hrun in Hrun1. injection Hrun1 as <-. congruence.
      * split; [discriminate|].
        intros [[[=] _]|(vi & parent1 & e1 & [= <-] & Hrun1 & _)].
        rewrite Hrun in Hrun1. done.
Qed.

End Containment.

Lemma GatherDependencies_failures_contained_witness :
  let parent := NewVersion Sample.root_1_0_0 0 in
  GatherDependencies_edge (semver := RefSemver.semver) Sample.packagePool
    (fun _ _ => None) parent "missing" "1.0.0"
  = Some (Version_appendError parent
            "could not get missing: could not get package missing: 404 Not Found").
Proof.
  intros parent.
  refine (proj1 (proj1 (GatherDependencies_failures_contained
                          (semver := RefSemver.semver) Sample.dbOk Sample.packagePool)
                   (fun _ _ => None) parent "missing" "1.0.0" _ [] _)).
  vm_compute. reflexivity.
Defined.

(** C2 as stated fails: on the sample registry the root version resolves
    and its dependencies are gathered, yet the call returns an error,
    because the vulnerability lookup failed. *)
Lemma GatherDependencies_vulnerability_lookup_fatal :
  rootVersion Sample.root "1.0.0" = Some Sample.root_1_0_0
  /\ (exists parent,
        VersionInfo_GatherDependencies (semver := RefSemver.semver)
          Sample.packagePool 3 Sample.root_1_0_0
          (NewVersion Sample.root_1_0_0 0) false = Some parent)
  /\ PackageInfo_GatherDependencies (semver := RefSemver.semver)
       Sample.dbDown Sample.packagePool 3 Sample.root "1.0.0"
     = Some (Err ("could not gather vulns for root version 1.0.0: "
                  +:+ "could not get vulnerabilities for package root: "
                  +:+ "could not get vulnerabilities for a list of packages: "
                  +:+ "database is locked")).
Proof.
  split; [vm_compute; reflexivity|]. split; [|vm_compute; reflexivity].
  destruct (VersionInfo_GatherDependencies (semver := RefSemver.semver)
              Sample.packagePool 3 Sample.root_1_0_0
              (NewVersion Sample.root_1_0_0 0) false) as [parent|] eqn:Hrun.
  - by exists parent.
  - vm_compute in Hrun. discriminate.
Qed.

(** ** Vulnerability correlation *)

Section Correlation.

Context {semver : Semver}.





End Correlation.



(** ** The registry of pending futures *)

Lemma getOrCreate_known (f : Pool.futureMap) (key : string) (future : Pool.FutureRef) :
  Pool.futures f !! key = Some future ->
  Pool.getOrCreate f key = (future, false, f).
Proof. intros H. unfold Pool.getOrCreate. by rewrite H. Qed.

Lemma getOrCreate_unknown (f : Pool.futureMap) (key : string) :
  Pool.futures f !! key = None ->
  exists f1,
    Pool.getOrCreate f key = (Pool.allocated f, true, f1)
    /\ Pool.futures f1 !! key = Some (Pool.allocated f)
    /\ forall other, other <> key ->
         Pool.futures f1 !! other = Pool.futures f !! other.
Proof.
  intros H. unfold Pool.getOrCreate. rewrite H. eexists. split; [done|].
  cbn. split; [apply lookup_insert_eq|].
  intros other Hne. by rewrite lookup_insert_ne.
Qed.

(** Once a key has its future, every later call for it returns that
    future and [isNew = false]. *)
Lemma getOrCreate_all_known (keys : list string) (f f' : Pool.futureMap)
    (returns : list (string * Pool.FutureRef * bool))
    (key : string) (future : Pool.FutureRef) :
  Pool.futures f !! key = Some future ->
  Pool.getOrCreate_all f keys = (returns, f') ->
  forall fut isNew, (key, fut, isNew) ∈ returns -> fut = future /\ isNew = false.
Proof.
  revert f returns. induction keys as [|k rest IH]; intros f returns Hkey; simpl.
  - intros [= <- <-] fut isNew Hin. by apply elem_of_nil in Hin.
  - destruct (Pool.getOrCreate f k) as [[fut0 isNew0] f1] eqn:Hcall.
    destruct (Pool.getOrCreate_all f1 rest) as [returns1 f2] eqn:Hrest.
    intros [= <- <-] fut isNew Hin.
    assert (Hkey1 : Pool.futures f1 !! key = Some future).
    { destruct (Pool.futures f !! k) as [fk|] eqn:Hk.
      - rewrite (getOrCreate_known _ _ _ Hk) in Hcall. by injection Hcall as <- <- <-.
      - destruct (getOrCreate_unknown _ _ Hk) as (f1' & Hcall' & _ & Hother).
        rewrite Hcall' in Hcall. injection Hcall as <- <- <-.
        rewrite Hother; [done|]. intros ->. congruence. }
    apply elem_of_cons in Hin as [[= <- <- <-]|Hin].
    + rewrite (getOrCreate_known _ _ _ Hkey) in Hcall. by injection Hcall as <- <- <-.
    + eapply IH; eauto.
Qed.

(** In any order of the calls, a key that the registry does not hold yet
    gets [isNew = true] in exactly one call, the first one for that key,
    and every call for the key returns the same future. *)
Lemma getOrCreate_all_isNew_once (keys : list string) (f f' : Pool.futureMap)
    (returns : list (string * Pool.FutureRef * bool)) (key : string) :
  Pool.futures f !! key = None ->
  key ∈ keys ->
  Pool.getOrCreate_all f keys = (returns, f') ->
  exists before after future,
    returns = before ++ (key, future, true) :: after
    /\ (forall k fut isNew, (k, fut, isNew) ∈ before -> k <> key)
    /\ (forall fut isNew, (key, fut, isNew) ∈ after ->
          fut = future /\ isNew = false).
Proof.
  revert f returns. induction keys as [|k rest IH]; intros f returns Hkey Hin; simpl.
  - by apply elem_of_nil in Hin.
  - destruct (Pool.getOrCreate f k) as [[fut0 isNew0] f1] eqn:Hcall.
    destruct (Pool.getOrCreate_all f1 rest) as [returns1 f2] eqn:Hrest.
    intros [= <- <-].
    destruct (decide (k = key)) as [->|Hne].
    + destruct (getOrCreate_unknown _ _ Hkey) as (f1' & Hcall' & Hnow & _).
      rewrite Hcall' in Hcall. injection Hcall as <- <- <-.
      exists [], returns1, (Pool.allocated f). split; [done|]. split.
      * intros ? ? ? H. by apply elem_of_nil in H.
      * eapply getOrCreate_all_known; eauto.
    + apply elem_of_cons in Hin as [->|Hin]; [done|].
      assert (Hkey1 : Pool.futures f1 !! key = None).
      { destruct (Pool.futures f !! k) as [fk|] eqn:Hk.
        - rewrite (getOrCreate_known _ _ _ Hk) in Hcall. by injection Hcall as <- <- <-.
        - destruct (getOrCreate_unknown _ _ Hk) as (f1' & Hcall' & _ & Hother).
          rewrite Hcall' in Hcall. injection Hcall as <- <- <-.
          rewrite Hother; [done|]. congruence. }
      destruct (IH f1 returns1 Hkey1 Hin Hrest)
        as (before & after & future & -> & Hbefore & Hafter).
      exists ((k, fut0, isNew0) :: before), after, future.
      split; [done|]. split; [|done].
      intros k' fut isNew H. apply elem_of_cons in H as [[= -> -> ->]|H]; [done|].
      eauto.
Qed.

(** * Further properties *)

(** ** Cache keys of the version pool *)

Lemma strings_Split_nonempty (sep : ascii) (s : string) :
  strings_Split sep s <> [].
Proof.
  destruct s as [|c rest]; simpl; [done|].
  destruct (Ascii.eqb c sep); [done|].
  by destruct (strings_Split sep rest).
Qed.

Lemma strings_Split_lacks (sep : ascii) (s : string) :
  lacks sep s -> strings_Split sep s = [s].
Proof.
  induction s as [|c rest IH]; simpl; [done|].
  intros [Hc Hrest]. rewrite (proj2 (Ascii.eqb_neq c sep) Hc).
  by rewrite (IH Hrest).
Qed.

Lemma strings_Split_append (sep : ascii) (s t : string) :
  lacks sep s ->
  strings_Split sep (s +:+ String sep t) = s :: strings_Split sep t.
Proof.
  induction s as [|c rest IH]; simpl.
  - intros _. by rewrite Ascii.eqb_refl.
  - intros [Hc Hrest]. rewrite (proj2 (Ascii.eqb_neq c sep) Hc).
    by rewrite (IH Hrest).
Qed.

Lemma strings_Split_single (sep : ascii) (s piece : string) :
  strings_Split sep s = [piece] -> lacks sep s.
Proof.
  revert piece. induction s as [|c rest IH]; intros piece; simpl; [done|].
  destruct (Ascii.eqb c sep) eqn:Hc.
  - intros [= _ Hrest]. by apply strings_Split_nonempty in Hrest.
  - apply Ascii.eqb_neq in Hc.
    destruct (strings_Split sep rest) as [|p ps] eqn:Hsplit; [|intros [= _ ->]].
    + by apply strings_Split_nonempty in Hsplit.
    + split; [done|]. by eapply IH.
Qed.

Section PerformerProps.

Context {semver : Semver}.
Context (DbGetVulnerabilitiesForPackages :
           list string -> result (list Vulnerability)).
Context (packagePool : string -> result PackageInfo).

(** X1. [parseVersionKey] undoes the key that [GetVersion] builds when the
    package name holds no tab: it gives back the name, and the version up
    to its first tab (the whole version when it holds none). On a key
    without any tab it panics, and it panics only then. So
    [VersionPerformer.Perform] on the key of [(name, version)], both
    without tabs, is the metadata request for [name] followed by
    [GatherDependencies(version)] on the package it returns. *)
Theorem parseVersionKey_versionKey (name version : string) :
  lacks tab name ->
  (exists piece pieces,
     strings_Split tab version = piece :: pieces
     /\ parseVersionKey (versionKey name version) = Some (name, piece))
  /\ (lacks tab version ->
      parseVersionKey (versionKey name version) = Some (name, version)
      /\ forall fuel,
           VersionPerformer_Perform DbGetVulnerabilitiesForPackages
             packagePool fuel (versionKey name version)
           = match packagePool name with
             | Err e => Done (Err e)
             | Ok packageInfo =>
                 match PackageInfo_GatherDependencies
                         DbGetVulnerabilitiesForPackages packagePool fuel
                         packageInfo version with
                 | None => OutOfFuel
                 | Some r => Done r
                 end
             end)
  /\ (forall key, parseVersionKey key = None <-> lacks tab key).
Proof.
  intros Hname.
  assert (Hsplit : strings_Split tab (versionKey name version)
                   = name :: strings_Split tab version).
  { unfold versionKey. simpl. by apply strings_Split_append. }
  split; [|split].
  - destruct (strings_Split tab version) as [|piece pieces] eqn:Hv.
    + by apply strings_Split_nonempty in Hv.
    + exists piece, pieces. split; [done|].
      unfold parseVersionKey. by rewrite Hsplit.
  - intros Hversion.
    assert (Hparse : parseVersionKey (versionKey name version)
                     = Some (name, version)).
    { unfold parseVersionKey. by rewrite Hsplit, strings_Split_lacks. }
    split; [done|]. intros fuel.
    unfold VersionPerformer_Perform, GetPackageInfo. rewrite Hparse.
    destruct (packagePool name) as [packageInfo|e]; [|done].
    by destruct (PackageInfo_GatherDependencies _ _ _ _ _) as [[v|e]|].
  - intros key. unfold parseVersionKey.
    destruct (strings_Split tab key) as [|piece [|piece' pieces]] eqn:Hkey.
    + by apply strings_Split_nonempty in Hkey.
    + split; [intros _; by eapply strings_Split_single|done].
    + split; [done|]. intros Hlacks.
      rewrite strings_Split_lacks in Hkey by done. done.
Qed.

End PerformerProps.

Lemma parseVersionKey_versionKey_witness :
  parseVersionKey (versionKey "@angular/cli" "12.0.1")
  = Some ("@angular/cli", "12.0.1").
Proof.
  refine (proj1 (proj1 (proj2 (parseVersionKey_versionKey
                                 (semver := RefSemver.semver) Sample.dbOk
                                 Sample.packagePool "@angular/cli" "12.0.1" _)) _)).
  - vm_compute. repeat split; discriminate.
  - vm_compute. repeat split; discriminate.
Defined.

(** ** What [GatherDependencies] keeps *)

Lemma continues_refl (parent : Version) : continues parent parent.
Proof.
  unfold continues. repeat split; try done.
  intros name versions H. by exists versions.
Qed.

Lemma continues_appendError (parent0 parent : Version) (msg : string) :
  continues parent0 parent ->
  continues parent0 (Version_appendError parent msg).
Proof.
  intros (HI & HT & HV & HS & HE & HD & HP).
  unfold continues; cbn. repeat split; try done.
  etrans; [exact HE|]. by apply prefix_app_r.
Qed.

Lemma continues_mergeChild (parent0 parent : Version) (name : string)
    (old : option (list string)) (versions : list string) (newName : bool)
    (childVersion : VersionInfo) :
  continues parent0 parent ->
  Version_Dependencies parent !! name = old ->
  default [] old `prefix_of` versions ->
  continues parent0
    (Version_mergeChild (Version_setDependency parent name versions newName)
       childVersion).
Proof.
  intros (HI & HT & HV & HS & HE & HD & HP) Hold Hprefix.
  unfold continues; cbn. repeat split; try done.
  - intros name' versions' H. destruct (HD name' versions' H) as (vs & Hvs & Hpre).
    destruct (decide (name = name')) as [<-|Hne].
    + exists versions. rewrite lookup_insert_eq. split; [done|].
      rewrite Hvs in Hold. subst old. by etrans.
    + exists vs. by rewrite lookup_insert_ne.
  - intros publisher H. apply HP in H.
    destruct (decide (VersionInfo_GetPublisher childVersion = publisher)) as [<-|Hne].
    + rewrite lookup_insert_eq. eauto.
    + by rewrite lookup_insert_ne.
Qed.

Section Keeps.

Context {semver : Semver}.
Context (DbGetVulnerabilitiesForPackages :
           list string -> result (list Vulnerability)).
Context (packagePool : string -> result PackageInfo).
Context (DbGetFile : string -> result Version).

Lemma GatherDependencies_continues (fuel : nat) (p : VersionInfo)
    (parent parent' : Version) (alsoDev : bool) :
  VersionInfo_GatherDependencies packagePool fuel p parent alsoDev = Some parent' ->
  continues parent parent'.
Proof.
  apply (GatherDependencies_preserves packagePool (continues parent)).
  - intros. by apply continues_appendError.
  - intros x name versions child Hx Hdeps.
    eapply continues_mergeChild; [done|exact Hdeps|]. simpl. by apply prefix_app_r.
  - intros x name child Hx Hdeps.
    eapply continues_mergeChild; [done|exact Hdeps|]. simpl. apply prefix_nil.
  - apply continues_refl.
Qed.

(** X2. [GatherDependencies] only adds to the aggregate: the root's
    [Info] and [Time], the vulnerabilities and their histogram stay as
    they were, the error list and the version list of every name already
    present are extended at the end and never shortened or reordered, and
    no dependency name and no publisher is ever removed. *)
Theorem GatherDependencies_only_adds (fuel : nat) (p : VersionInfo)
    (parent parent' : Version) (alsoDev : bool) :
  VersionInfo_GatherDependencies packagePool fuel p parent alsoDev = Some parent' ->
  Version_Info parent' = Version_Info parent
  /\ Version_Time parent' = Version_Time parent
  /\ Version_Vulnerabilities parent' = Version_Vulnerabilities parent
  /\ Stats_VulnerabilityStats (Version_Stats parent')
     = Stats_VulnerabilityStats (Version_Stats parent)
  /\ (exists errors, Version_Errors parent' = Version_Errors parent ++ errors)
  /\ (forall name versions,
        Version_Dependencies parent !! name = Some versions ->
        exists added,
          Version_Dependencies parent' !! name = Some (versions ++ added))
  /\ (forall publisher,
        is_Some (Version_Publishers parent !! publisher) ->
        is_Some (Version_Publishers parent' !! publisher)).
Proof.
  intros Hrun.
  destruct (GatherDependencies_continues _ _ _ _ _ Hrun)
    as (HI & HT & HV & HS & HE & HD & HP).
  repeat split; try done.
  intros name versions H. destruct (HD name versions H) as (vs & Hvs & [added ->]).
  by exists added.
Qed.

Lemma GatherDependencies_no_edges (fuel : nat) (p : VersionInfo)
    (parent : Version) :
  VersionInfo_Dependencies p = [] ->
  VersionInfo_GatherDependencies packagePool (S fuel) p parent false = Some parent.
Proof. intros H. simpl. by rewrite H. Qed.

(** X3. A version without dependencies is its own tree. For a root that
    has no [Dependencies], [PackageInfo.GatherDependencies] does not
    recurse (any bound of at least one is enough), looks at no
    dev-dependency, and returns the aggregate of [NewVersion] with the
    vulnerabilities filled in: an empty dependency map, no errors, and the
    statistics [packages = 1], [versions = 1] and the root's own file count
    and unpacked size. It fails only if the vulnerability lookup does. *)
Theorem GatherDependencies_leaf (fuel : nat) (p : PackageInfo)
    (versionRaw : string) (versionInfo : VersionInfo) :
  rootVersion p versionRaw = Some versionInfo ->
  VersionInfo_Dependencies versionInfo = [] ->
  match PackageInfo_GatherDependencies DbGetVulnerabilitiesForPackages
          packagePool (S fuel) p versionRaw with
  | Some (Ok v) =>
      Version_Info v = versionInfo
      /\ Version_Dependencies v = ∅
      /\ Version_Errors v = []
      /\ Stats_Packages (Version_Stats v) = 1
      /\ Stats_Versions (Version_Stats v) = 1
      /\ Stats_Files (Version_Stats v)
         = Dist_FileCount (VersionInfo_Dist versionInfo)
      /\ Stats_DiskSpace (Version_Stats v)
         = Dist_UnpackedSize (VersionInfo_Dist versionInfo)
      /\ exists allVulnerabilities,
           DbGetVulnerabilitiesForPackages [VersionInfo_Name versionInfo]
           = Ok allVulnerabilities
  | Some (Err _) =>
      exists e,
        DbGetVulnerabilitiesForPackages [VersionInfo_Name versionInfo] = Err e
  | None => False
  end.
Proof.
  intros Hroot Hleaf.
  unfold PackageInfo_GatherDependencies. unfold rootVersion in Hroot.
  destruct (decide (versionRaw <> "")) as [Hne|Heq].
  - rewrite Hroot, GatherDependencies_no_edges by done.
    unfold Version_GatherVulnerabilities. cbn [NewVersion Version_Info Version_Dependencies].
    rewrite map_to_list_empty. simpl.
    destruct (DbGetVulnerabilitiesForPackages _) as [all|e]; [|eauto].
    cbn. repeat split; eauto.
  - injection Hroot as Hroot. rewrite Hroot.
    rewrite GatherDependencies_no_edges by done.
    unfold Version_GatherVulnerabilities. cbn [NewVersion Version_Info Version_Dependencies].
    rewrite map_to_list_empty. simpl.
    destruct (DbGetVulnerabilitiesForPackages _) as [all|e]; [|eauto].
    cbn. repeat split; eauto.
Qed.

(** X4. With an empty [versionRaw] the call never fails for want of a
    version: when the [latest] tag of the package names no published
    version, the zero [VersionInfo] is resolved instead, and the outcome
    is an aggregate with an empty name and version, no dependencies and the
    statistics [1, 1, 0, 0], or the failure of the vulnerability lookup
    for the single package name [""]. *)
Theorem GatherDependencies_latest_missing (fuel : nat) (p : PackageInfo) :
  mapIndex (PackageInfo_Versions p) (DistTags_Latest (PackageInfo_DistTags p))
  = None ->
  match PackageInfo_GatherDependencies DbGetVulnerabilitiesForPackages
          packagePool (S fuel) p "" with
  | Some (Ok v) =>
      Version_Info v = VersionInfo_zero
      /\ Version_Dependencies v = ∅
      /\ Version_Errors v = []
      /\ Stats_Packages (Version_Stats v) = 1
      /\ Stats_Versions (Version_Stats v) = 1
      /\ Stats_Files (Version_Stats v) = 0
      /\ Stats_DiskSpace (Version_Stats v) = 0
  | Some (Err _) => exists e, DbGetVulnerabilitiesForPackages [""] = Err e
  | None => False
  end.
Proof.
  intros Hlatest.
  unfold PackageInfo_GatherDependencies, PackageInfo_LatestVersion.
  rewrite Hlatest. cbn [default decide]. rewrite decide_False by (by intros H; apply H).
  rewrite GatherDependencies_no_edges by done.
  unfold Version_GatherVulnerabilities. cbn [NewVersion Version_Info Version_Dependencies].
  rewrite map_to_list_empty. simpl.
  destruct (DbGetVulnerabilitiesForPackages _) as [all|e]; [|eauto].
  cbn. repeat split; eauto.
Qed.

Lemma fileIsReady_continues (parent parent' : Version) :
  continues parent parent' ->
  fileIsReady parent = true -> fileIsReady parent' = true.
Proof.
  intros (HI & _ & _ & _ & _ & HD & _). unfold fileIsReady. rewrite HI.
  rewrite !orb_true_iff. intros [Hsize|Hinfo]; [left|by right].
  apply Z.ltb_lt in Hsize. apply Z.ltb_lt.
  destruct (map_to_list (Version_Dependencies parent)) as [|[name versions] l] eqn:Hl.
  - apply map_to_list_empty_iff in Hl. rewrite Hl, map_size_empty in Hsize. lia.
  - assert (Hin : Version_Dependencies parent !! name = Some versions).
    { apply elem_of_map_to_list. rewrite Hl. by left. }
    destruct (HD name versions Hin) as (vs & Hvs & _).
    assert (size (Version_Dependencies parent') <> 0%nat); [|lia].
    intros Hz. apply map_size_empty_iff in Hz. by rewrite Hz, lookup_empty in Hvs.
Qed.

(** X5. Readiness of an upload looks at the direct dependencies only. The
    aggregate that the upload handler stores, [NewVersion] of the uploaded
    [VersionInfo], is ready exactly when that [VersionInfo] has no
    [Dependencies], whatever its [DevDependencies] are: [FilePerformer.Get]
    then returns the stored aggregate as a hit, with nothing resolved.
    Readiness is never lost: gathering dependencies into a ready aggregate
    gives a ready aggregate. *)
Theorem fileIsReady_direct_dependencies_only :
  (forall (versionInfo : VersionInfo) (time : Time),
     fileIsReady (NewVersion versionInfo time) = true
     <-> VersionInfo_Dependencies versionInfo = [])
  /\ (forall (id : string) (versionInfo : VersionInfo) (time : Time),
        DbGetFile id = Ok (NewVersion versionInfo time) ->
        VersionInfo_Dependencies versionInfo = [] ->
        FilePerformer_Get DbGetFile id = Some (NewVersion versionInfo time))
  /\ (forall (fuel : nat) (p : VersionInfo) (parent parent' : Version)
             (alsoDev : bool),
        fileIsReady parent = true ->
        VersionInfo_GatherDependencies packagePool fuel p parent alsoDev
        = Some parent' ->
        fileIsReady parent' = true).
Proof.
  assert (Hnew : forall versionInfo time,
             fileIsReady (NewVersion versionInfo time) = true
             <-> VersionInfo_Dependencies versionInfo = []).
  { intros versionInfo time. unfold fileIsReady, NewVersion; cbn.
    rewrite map_size_empty. simpl.
    destruct (VersionInfo_Dependencies versionInfo); simpl; split; done. }
  split; [exact Hnew|]. split.
  - intros id versionInfo time Hdb Hdeps. unfold FilePerformer_Get.
    rewrite Hdb. by rewrite (proj2 (Hnew versionInfo time) Hdeps).
  - intros fuel p parent parent' alsoDev Hready Hrun.
    eapply fileIsReady_continues; [|exact Hready].
    by eapply GatherDependencies_continues.
Qed.

End Keeps.

Lemma GatherDependencies_only_adds_witness :
  exists parent',
    VersionInfo_GatherDependencies (semver := RefSemver.semver)
      Sample.packagePool 3 Sample.root_1_0_0 (NewVersion Sample.root_1_0_0 0) false
    = Some parent'
    /\ Version_Info parent' = Sample.root_1_0_0.
Proof.
  destruct (VersionInfo_GatherDependencies (semver := RefSemver.semver)
              Sample.packagePool 3 Sample.root_1_0_0
              (NewVersion Sample.root_1_0_0 0) false) as [parent'|] eqn:Hrun;
    [|vm_compute in Hrun; discriminate].
  exists parent'. split; [reflexivity|].
  exact (proj1 (GatherDependencies_only_adds (semver := RefSemver.semver)
                  Sample.packagePool 3 _ _ _ _ Hrun)).
Defined.

Lemma GatherDependencies_leaf_witness :
  exists v,
    PackageInfo_GatherDependencies (semver := RefSemver.semver) Sample.dbOk
      Sample.packagePool 1 Sample.dep "1.5.0" = Some (Ok v)
    /\ Version_Dependencies v = ∅.
Proof.
  pose proof (GatherDependencies_leaf (semver := RefSemver.semver) Sample.dbOk
                Sample.packagePool 0 Sample.dep "1.5.0" Sample.dep_1_5_0
                eq_refl eq_refl) as H.
  destruct (PackageInfo_GatherDependencies (semver := RefSemver.semver)
              Sample.dbOk Sample.packagePool 1 Sample.dep "1.5.0")
    as [[v|e]|] eqn:Hrun.
  - exists v. split; [reflexivity|]. apply H.
  - vm_compute in Hrun. discriminate.
  - destruct H.
Defined.

Lemma GatherDependencies_latest_missing_witness :
  exists v,
    PackageInfo_GatherDependencies (semver := RefSemver.semver) Sample.dbOk
      Sample.packagePool 1 (Sample.package "ghost" "9.9.9" []) "" = Some (Ok v)
    /\ Version_Info v = VersionInfo_zero.
Proof.
  pose proof (GatherDependencies_latest_missing (semver := RefSemver.semver)
                Sample.dbOk Sample.packagePool 0
                (Sample.package "ghost" "9.9.9" []) eq_refl) as H.
  destruct (PackageInfo_GatherDependencies (semver := RefSemver.semver)
              Sample.dbOk Sample.packagePool 1
              (Sample.package "ghost" "9.9.9" []) "")
    as [[v|e]|] eqn:Hrun.
  - exists v. split; [reflexivity|]. apply H.
  - vm_compute in Hrun. discriminate.
  - destruct H.
Defined.

Lemma fileIsReady_direct_dependencies_only_witness :
  let upload :=
    {| VersionInfo_Name := "app"; VersionInfo_Version := "0.0.1";
       VersionInfo_Description := "";
       VersionInfo_Dependencies := [];
       VersionInfo_DevDependencies := [("dep", "<2.0.0")];
       VersionInfo_NpmUser := {| NpmUser_Name := ""; NpmUser_Email := "" |};
       VersionInfo_Dist := {| Dist_FileCount := 0; Dist_UnpackedSize := 0 |};
       VersionInfo_Os := []; VersionInfo_Cpu := [] |} in
  FilePerformer_Get (fun _ => Ok (NewVersion upload 0)) "id"
  = Some (NewVersion upload 0).
Proof.
  intros upload.
  exact (proj1 (proj2 (fileIsReady_direct_dependencies_only
                         (semver := RefSemver.semver) Sample.packagePool
                         (fun _ => Ok (NewVersion upload 0))))
           "id" upload 0 eq_refl eq_refl).
Defined.

(** ** The histogram against the counters *)

Lemma publishersTotal_insert (publishers : gmap string Z) (publisher : string)
    (count : Z) :
  publishersTotal (<[ publisher := count ]> publishers)
  = publishersTotal publishers - default 0 (publishers !! publisher) + count.
Proof.
  unfold publishersTotal.
  destruct (publishers !! publisher) as [old|] eqn:Hold; simpl.
  - rewrite <- (insert_delete_eq publishers).
    rewrite map_fold_insert_L; [|intros; lia|apply lookup_delete_eq].
    rewrite (map_fold_delete_L _ _ publisher old publishers); [lia|intros; lia|done].
  - rewrite map_fold_insert_L; [lia|intros; lia|done].
Qed.

Lemma wrap64_succ_cong (a b : Z) :
  wrap64 a = wrap64 b -> wrap64 (a + 1) = wrap64 (b + 1).
Proof.
  intros H. rewrite <- (wrap64_idemp_l a), <- (wrap64_idemp_l b). by rewrite H.
Qed.

Section Histogram.

Context {semver : Semver}.
Context (DbGetVulnerabilitiesForPackages :
           list string -> result (list Vulnerability)).
Context (packagePool : string -> result PackageInfo).

Lemma histogramBalanced_mergeChild (versionInfo : VersionInfo) (parent : Version)
    (name : string) (versions : list string) (newName : bool)
    (childVersion : VersionInfo) :
  histogramBalanced versionInfo parent ->
  histogramBalanced versionInfo
    (Version_mergeChild (Version_setDependency parent name versions newName)
       childVersion).
Proof.
  intros [HI HB]. split; [done|]. cbn.
  rewrite publishersTotal_insert.
  set (c := default 0 _). unfold int_add.
  replace (publishersTotal (Version_Publishers parent) - c + wrap64 (c + 1))
    with (wrap64 (c + 1) + (publishersTotal (Version_Publishers parent) - c)) by lia.
  rewrite wrap64_idemp_l.
  replace (wrap64 (Stats_Versions (Version_Stats parent) + 1)
           - rootUncounted versionInfo)
    with (wrap64 (Stats_Versions (Version_Stats parent) + 1)
          + (- rootUncounted versionInfo)) by lia.
  rewrite wrap64_idemp_l.
  replace (c + 1 + (publishersTotal (Version_Publishers parent) - c))
    with (publishersTotal (Version_Publishers parent) + 1) by lia.
  replace (Stats_Versions (Version_Stats parent) + 1
           + - rootUncounted versionInfo)
    with (Stats_Versions (Version_Stats parent)
          - rootUncounted versionInfo + 1) by lia.
  by apply wrap64_succ_cong.
Qed.

(** X6. In every aggregate that resolution produces, the counts of the
    publishers histogram add up to the version counter, less one when the
    root has no publisher string (a root without publisher is counted as a
    version but not in the histogram, a child without publisher is counted
    in both). The counters are Go [int]s: the equation holds modulo
    [2^64], and as a plain equation as long as both sides fit an [int]. *)
Theorem resolved_publishers_total (v : Version) :
  resolved DbGetVulnerabilitiesForPackages packagePool v ->
  let total := publishersTotal (Version_Publishers v) in
  let versions :=
    Stats_Versions (Version_Stats v) - rootUncounted (Version_Info v) in
  wrap64 total = wrap64 versions
  /\ (- 2 ^ 63 <= total < 2 ^ 63 -> - 2 ^ 63 <= versions < 2 ^ 63 ->
      total = versions).
Proof.
  intros Hres.
  assert (H : histogramBalanced (Version_Info v) v).
  { induction Hres as [versionInfo time|fuel p parent parent' alsoDev _ IH Hrun
                      |parent parent' _ IH Hrun].
    - split; [done|]. unfold NewVersion, rootUncounted; cbn.
      destruct (decide (VersionInfo_GetPublisher versionInfo = "")) as [He|Hne].
      + rewrite decide_False by tauto. unfold publishersTotal.
        by rewrite map_fold_empty.
      + rewrite decide_True by done. unfold publishersTotal.
        rewrite <- insert_empty, map_fold_insert_L;
          [by rewrite map_fold_empty|intros; lia|apply lookup_empty].
    - assert (HI : Version_Info parent' = Version_Info parent).
      { revert Hrun.
        apply (GatherDependencies_preserves packagePool
                 (fun x => Version_Info x = Version_Info parent)); done. }
      rewrite HI. revert Hrun.
      apply (GatherDependencies_preserves packagePool
               (histogramBalanced (Version_Info parent))); [| | |exact IH].
      + intros x msg Hx. exact Hx.
      + intros x name versions child Hx _. by apply histogramBalanced_mergeChild.
      + intros x name child Hx _. by apply histogramBalanced_mergeChild.
    - revert Hrun. unfold Version_GatherVulnerabilities.
      destruct (DbGetVulnerabilitiesForPackages _); [|done].
      intros [= <-]. exact IH. }
  destruct H as [_ HB]. cbn zeta. split; [exact HB|].
  intros Ht Hv. by rewrite <- (wrap64_small _ Ht), <- (wrap64_small _ Hv).
Qed.

End Histogram.

Lemma resolved_publishers_total_witness :
  exists v : Version,
    VersionInfo_GatherDependencies (semver := RefSemver.semver)
      Sample.packagePool 3 Sample.root_1_0_0 (NewVersion Sample.root_1_0_0 0) false
    = Some v
    /\ wrap64 (publishersTotal (Version_Publishers v))
       = wrap64 (Stats_Versions (Version_Stats v)
                 - rootUncounted (Version_Info v)).
Proof.
  destruct (VersionInfo_GatherDependencies (semver := RefSemver.semver)
              Sample.packagePool 3 Sample.root_1_0_0
              (NewVersion Sample.root_1_0_0 0) false) as [v|] eqn:Hrun;
    [|vm_compute in Hrun; discriminate].
  exists v. split; [reflexivity|].
  refine (proj1 (resolved_publishers_total (semver := RefSemver.semver)
                   Sample.dbOk Sample.packagePool v _)).
  eapply resolved_GatherDependencies; [apply resolved_NewVersion | exact Hrun].
Defined.

(** ** Where recorded versions come from *)

Section Provenance.

Context {semver : Semver}.
Context (DbGetVulnerabilitiesForPackages :
           list string -> result (list Vulnerability)).
Context (packagePool : string -> result PackageInfo).

(** What [MaxVersion] returns is an entry of [Versions] whose key parses
    and satisfies the constraint; no assumption on the order is needed
    for that. *)
Lemma MaxVersion_foldl_entry (constraint : Constraints)
    (versions : list (string * VersionInfo))
    (acc : option SemverVersion * VersionInfo) :
  (forall maxVersion, acc.1 = Some maxVersion ->
     exists key, (key, acc.2) ∈ versions
                 /\ semver_NewVersion key = Some maxVersion
                 /\ semver_Validate constraint maxVersion = true) ->
  forall more maxVersion,
    (foldl (MaxVersion_iter constraint) acc more).1 = Some maxVersion ->
    exists key,
      (key, (foldl (MaxVersion_iter constraint) acc more).2) ∈ versions ++ more
      /\ semver_NewVersion key = Some maxVersion
      /\ semver_Validate constraint maxVersion = true.
Proof.
  intros Hacc more. revert versions acc Hacc.
  induction more as [|[key info] more IH]; intros versions acc Hacc maxVersion; simpl.
  - rewrite app_nil_r. apply Hacc.
  - intros H.
    replace (versions ++ (key, info) :: more)
      with ((versions ++ [(key, info)]) ++ more) by by rewrite <- app_assoc.
    apply IH; [|exact H]. clear H maxVersion.
    intros maxVersion. unfold MaxVersion_iter; cbn [fst snd].
    destruct (semver_NewVersion key) as [version|] eqn:Hkey.
    + destruct (semver_Validate constraint version) eqn:Hvalid.
      * destruct acc as [[m|] minfo]; cbn [fst snd].
        -- destruct (semver_GreaterThan version m); cbn [fst snd].
           ++ intros [= <-]. exists key. rewrite elem_of_app, list_elem_of_singleton. eauto.
           ++ intros Hm. destruct (Hacc _ Hm) as (k & Hin & ?).
              exists k. rewrite elem_of_app. eauto.
        -- intros [= <-]. exists key. rewrite elem_of_app, list_elem_of_singleton. eauto.
      * intros Hm. destruct (Hacc _ Hm) as (k & Hin & ?).
        exists k. rewrite elem_of_app. eauto.
    + intros Hm. destruct (Hacc _ Hm) as (k & Hin & ?).
      exists k. rewrite elem_of_app. eauto.
Qed.

Lemma PackageInfo_MaxVersion_entry (p : PackageInfo) (constraintRaw : string)
    (info : VersionInfo) :
  PackageInfo_MaxVersion p constraintRaw = Ok info ->
  exists key version constraint,
    (key, info) ∈ PackageInfo_Versions p
    /\ semver_NewVersion key = Some version
    /\ semver_NewConstraint constraintRaw = Ok constraint
    /\ semver_Validate constraint version = true.
Proof.
  unfold PackageInfo_MaxVersion.
  destruct (semver_NewConstraint constraintRaw) as [constraint|e]; [|done].
  pose proof (MaxVersion_foldl_entry constraint [] (None, VersionInfo_zero)) as H.
  specialize (H ltac:(by intros ? [=]) (PackageInfo_Versions p)).
  destruct (foldl (MaxVersion_iter constraint) (None, VersionInfo_zero)
              (PackageInfo_Versions p)) as [[m|] minfo]; [|done].
  intros [= <-]. destruct (H m eq_refl) as (key & Hin & Hkey & Hvalid).
  exists key, m, constraint. done.
Qed.

Lemma allPublished_edge (recurse : VersionInfo -> Version -> option Version)
    (parent parent' : Version) (name constraintRaw : string) :
  (forall childVersion x x',
     allPublished packagePool x -> recurse childVersion x = Some x' ->
     allPublished packagePool x') ->
  allPublished packagePool parent ->
  GatherDependencies_edge packagePool recurse parent name constraintRaw
  = Some parent' ->
  allPublished packagePool parent'.
Proof.
  intros Hrec HP. unfold GatherDependencies_edge.
  destruct (packagePool name) as [packageInfo|e] eqn:Hfetch; [|by intros [= <-]].
  destruct (semver_NewConstraint constraintRaw) as [constraint|e] eqn:Hc;
    [|by intros [= <-]].
  destruct (PackageInfo_MaxVersion packageInfo constraintRaw) as [childVersion|e]
    eqn:Hmax; [|by intros [= <-]].
  destruct (VersionInfo_MatchPlatform childVersion "linux" "x64") eqn:Hplat;
    cbn [negb]; [|by intros [= <-]].
  assert (Hchild : published packagePool name (VersionInfo_Version childVersion)).
  { destruct (PackageInfo_MaxVersion_entry _ _ _ Hmax)
      as (key & version & constraint' & Hin & Hkey & Hc' & Hvalid).
    exists packageInfo, key, childVersion, version, constraintRaw, constraint'.
    done. }
  assert (Hstep : forall versions newName,
             Forall (published packagePool name) versions ->
             allPublished packagePool
               (Version_mergeChild
                  (Version_setDependency parent name versions newName)
                  childVersion)).
  { intros versions newName Hall name' versions'. cbn.
    rewrite lookup_insert. case_decide; [by intros [= <-]; subst|apply HP]. }
  destruct (Version_Dependencies parent !! name) as [versions|] eqn:Hdeps.
  - destruct (HasMatchingVersion versions constraint); cbn [negb];
      [by intros [= <-]|].
    intros Hr. eapply Hrec; [|exact Hr]. apply Hstep.
    apply Forall_app. split; [by eapply HP|]. by apply Forall_singleton.
  - intros Hr. eapply Hrec; [|exact Hr]. apply Hstep. by apply Forall_singleton.
Qed.

Lemma allPublished_GatherDependencies (fuel : nat) (p : VersionInfo)
    (parent parent' : Version) (alsoDev : bool) :
  allPublished packagePool parent ->
  VersionInfo_GatherDependencies packagePool fuel p parent alsoDev = Some parent' ->
  allPublished packagePool parent'.
Proof.
  revert p parent parent' alsoDev.
  induction fuel as [|fuel IH]; intros p parent parent' alsoDev HP; simpl; [done|].
  destruct (_ || _); [|by intros [= <-]].
  generalize (VersionInfo_Dependencies p
              ++ (if alsoDev then VersionInfo_DevDependencies p else [])).
  intros edges. revert parent HP.
  induction edges as [|[name constraintRaw] rest IHedges]; intros parent HP; simpl.
  - by intros [= <-].
  - destruct (GatherDependencies_edge packagePool _ parent name constraintRaw)
      as [parent1|] eqn:Hedge; [|done].
    apply IHedges. eapply allPublished_edge; [|exact HP|exact Hedge].
    intros childVersion x x' Hx Hr. exact (IH _ _ _ _ Hx Hr).
Qed.

(** X7. The resolved tree holds nothing that the registry does not: in
    every aggregate that resolution produces, each version string recorded
    under a dependency name is the [Version] field of a [VersionInfo] that
    the package of that name publishes, under a key that parses and
    satisfies a constraint that parses, and that is allowed on the target
    platform (os "linux", cpu "x64"); in particular the metadata request
    for every recorded name succeeded. *)
Theorem resolved_versions_published (v : Version) :
  resolved DbGetVulnerabilitiesForPackages packagePool v ->
  forall name versions versionRaw,
    Version_Dependencies v !! name = Some versions ->
    versionRaw ∈ versions ->
    exists packageInfo key info version constraintRaw constraint,
      packagePool name = Ok packageInfo
      /\ (key, info) ∈ PackageInfo_Versions packageInfo
      /\ VersionInfo_Version info = versionRaw
      /\ semver_NewVersion key = Some version
      /\ semver_NewConstraint constraintRaw = Ok constraint
      /\ semver_Validate constraint version = true
      /\ VersionInfo_MatchPlatform info "linux" "x64" = true.
Proof.
  intros Hres.
  assert (H : allPublished packagePool v).
  { induction Hres as [versionInfo time|fuel p parent parent' alsoDev _ IH Hrun
                      |parent parent' _ IH Hrun].
    - intros name versions. unfold NewVersion; cbn. by rewrite lookup_empty.
    - by eapply allPublished_GatherDependencies.
    - revert Hrun. unfold Version_GatherVulnerabilities.
      destruct (DbGetVulnerabilitiesForPackages _); [|done].
      intros [= <-]. exact IH. }
  intros name versions versionRaw Hdeps Hin.
  specialize (H name versions Hdeps). rewrite Forall_forall in H.
  exact (H versionRaw Hin).
Qed.

(** ** Termination on registries of bounded depth *)

Lemma resolvesWithin_edges (n : nat)
    (recurse : VersionInfo -> Version -> option Version)
    (edges : list (string * string)) (parent : Version) :
  (forall childVersion x,
     resolvesWithin packagePool n (VersionInfo_Dependencies childVersion) = true ->
     is_Some (recurse childVersion x)) ->
  resolvesWithin packagePool (S n) edges = true ->
  is_Some (GatherDependencies_edges packagePool recurse edges parent).
Proof.
  intros Hrec. revert parent.
  induction edges as [|[name constraintRaw] rest IH]; intros parent; [by eexists|].
  cbn [resolvesWithin forallb fst snd]. rewrite andb_true_iff. intros [Hedge Hrest].
  cbn [GatherDependencies_edges].
  assert (He : is_Some (GatherDependencies_edge packagePool recurse parent name
                          constraintRaw)).
  { unfold GatherDependencies_edge.
    destruct (packagePool name) as [packageInfo|e]; [|by eexists].
    destruct (semver_NewConstraint constraintRaw) as [constraint|e]; [|by eexists].
    destruct (PackageInfo_MaxVersion packageInfo constraintRaw) as [childVersion|e];
      [|by eexists].
    destruct (negb (VersionInfo_MatchPlatform childVersion "linux" "x64"));
      [by eexists|].
    destruct (Version_Dependencies parent !! name) as [versions|].
    - destruct (negb (HasMatchingVersion versions constraint)); [|by eexists].
      by apply Hrec.
    - by apply Hrec. }
  destruct He as [parent1 ->]. by apply IH.
Qed.

(** X8. Resolution comes back on a registry of bounded depth. If every
    chain of selected versions below the edges of [p] ends after at most
    [n] steps ([resolvesWithin], which can be checked by running it), then
    [GatherDependencies] returns an aggregate for every starting
    aggregate, within recursion depth [n + 1]; a larger bound gives the
    same aggregate. *)
Theorem GatherDependencies_terminates (n : nat) (p : VersionInfo)
    (parent : Version) (alsoDev : bool) :
  resolvesWithin packagePool n
    (VersionInfo_Dependencies p
     ++ (if alsoDev then VersionInfo_DevDependencies p else [])) = true ->
  exists parent',
    forall fuel, (n < fuel)%nat ->
      VersionInfo_GatherDependencies packagePool fuel p parent alsoDev
      = Some parent'.
Proof.
  intros Hbound.
  assert (H : is_Some (VersionInfo_GatherDependencies packagePool (S n) p parent
                         alsoDev)).
  { revert p parent alsoDev Hbound.
    induction n as [|n IH]; intros p parent alsoDev Hbound.
    - simpl in *. destruct (VersionInfo_Dependencies p) as [|e l]; [|done].
      destruct alsoDev; simpl in *; [|by eexists].
      destruct (VersionInfo_DevDependencies p); [by eexists|done].
    - cbn [VersionInfo_GatherDependencies].
      destruct (_ || _); [|by eexists].
      apply (resolvesWithin_edges n); [|exact Hbound].
      intros childVersion x Hchild. apply IH. simpl. by rewrite app_nil_r. }
  destruct H as [parent' Hrun]. exists parent'. intros fuel Hfuel.
  eapply GatherDependencies_fuel_mono; [|exact Hrun]. lia.
Qed.

End Provenance.

Lemma resolved_versions_published_witness :
  exists v : Version,
    VersionInfo_GatherDependencies (semver := RefSemver.semver)
      Sample.packagePool 3 Sample.root_1_0_0 (NewVersion Sample.root_1_0_0 0) false
    = Some v
    /\ exists packageInfo, Sample.packagePool "dep" = Ok packageInfo.
Proof.
  destruct (VersionInfo_GatherDependencies (semver := RefSemver.semver)
              Sample.packagePool 3 Sample.root_1_0_0
              (NewVersion Sample.root_1_0_0 0) false) as [v|] eqn:Hrun;
    [|vm_compute in Hrun; discriminate].
  exists v. split; [reflexivity|].
  assert (Hres : resolved (semver := RefSemver.semver) Sample.dbOk
                   Sample.packagePool v).
  { eapply resolved_GatherDependencies; [apply resolved_NewVersion | exact Hrun]. }
  destruct (resolved_versions_published (semver := RefSemver.semver) Sample.dbOk
              Sample.packagePool v Hres "dep" ["1.5.0"; "2.1.0"] "2.1.0")
    as (packageInfo & key & info & version & constraintRaw & constraint
        & Hfetch & _).
  - vm_compute in Hrun. injection Hrun as <-. vm_compute. reflexivity.
  - apply elem_of_cons. right. apply elem_of_cons. by left.
  - by exists packageInfo.
Defined.

Lemma GatherDependencies_terminates_witness :
  exists parent',
    VersionInfo_GatherDependencies (semver := RefSemver.semver)
      Sample.packagePool 3 Sample.root_1_0_0 (NewVersion Sample.root_1_0_0 0) false
    = Some parent'.
Proof.
  destruct (GatherDependencies_terminates (semver := RefSemver.semver)
              Sample.packagePool 2 Sample.root_1_0_0
              (NewVersion Sample.root_1_0_0 0) false) as [parent' H].
  - vm_compute. reflexivity.
  - exists parent'. apply H. lia.
Defined.

(** ** The expiry window *)

(** X9. Whatever the two times are, also when the record's time lies in
    the future or so far in the past that the age saturates, the expiry
    time that [calcExpire] returns is at least one hour and at most 24
    hours after the current time; an older record never expires earlier
    than a newer one; a record that is 100 days old or older gets exactly
    24 hours, a record that is at most 100 hours old (or from the future)
    exactly one hour. *)
Theorem calcExpire_window (now lastUpdate : Time) :
  now + Hour <= calcExpire now lastUpdate <= now + 24 * Hour
  /\ (forall older : Time,
        older <= lastUpdate ->
        calcExpire now lastUpdate <= calcExpire now older)
  /\ (100 * 24 * Hour <= now - lastUpdate ->
      calcExpire now lastUpdate = now + 24 * Hour)
  /\ (now - lastUpdate <= 100 * Hour ->
      calcExpire now lastUpdate = now + Hour).
Proof.
  rewrite calcExpire_eq. unfold Time_Sub, minDuration, maxDuration.
  change Hour with 3600000000000.
  split; [lia|]. split; [|split].
  - intros older Holder. rewrite calcExpire_eq.
    unfold Time_Sub, minDuration, maxDuration.
    change Hour with 3600000000000.
    assert (Hq : Z.quot (Z.max (- 2 ^ 63) (Z.min (2 ^ 63 - 1) (now - lastUpdate))) 100
                 <= Z.quot (Z.max (- 2 ^ 63) (Z.min (2 ^ 63 - 1) (now - older))) 100).
    { apply Z.quot_le_mono; lia. }
    lia.
  - intros Hage.
    assert (Hq : Z.quot (100 * 24 * 3600000000000) 100
                 <= Z.quot (Z.max (- 2 ^ 63) (Z.min (2 ^ 63 - 1) (now - lastUpdate))) 100).
    { apply Z.quot_le_mono; lia. }
    change (Z.quot (100 * 24 * 3600000000000) 100) with 86400000000000 in Hq.
    lia.
  - intros Hage.
    assert (Hq : Z.quot (Z.max (- 2 ^ 63) (Z.min (2 ^ 63 - 1) (now - lastUpdate))) 100
                 <= Z.quot (100 * 3600000000000) 100).
    { apply Z.quot_le_mono; lia. }
    change (Z.quot (100 * 3600000000000) 100) with 3600000000000 in Hq.
    lia.
Qed.

Lemma calcExpire_window_witness :
  calcExpire (2 ^ 70) 0 = 2 ^ 70 + 24 * Hour.
Proof.
  refine (proj1 (proj2 (proj2 (calcExpire_window (2 ^ 70) 0))) _).
  vm_compute. discriminate.
Defined.

(** ** The vulnerability feed *)

Section FeedProps.

Context (getBody : string -> result string).
Context (unmarshalResponse : string -> result VulnerabilityResponse).
Context (DbLastVulnerability : result (option Vulnerability)).

Lemma GetVulnerabilities_error_nil (page : Z) (e : string) :
  (GetVulnerabilities getBody unmarshalResponse page).2 = Some e ->
  (GetVulnerabilities getBody unmarshalResponse page).1 = [].
Proof.
  unfold GetVulnerabilities.
  destruct (getBody _) as [body|e1]; [|done].
  destruct (unmarshalResponse body) as [response|e2]; [|done].
  by case_decide.
Qed.

(** X10. A feed response whose status is not "ok" is not an error: since
    [errors.Wrap] of a nil error is nil, [GetVulnerabilities] returns no
    vulnerabilities and a nil error, discarding whatever the response
    carried, and [UpdateVulnerabilities] takes that page for the end of
    the feed. [GetVulnerabilities] returns an error exactly when the
    request or the decoding of its body fails. *)
Theorem GetVulnerabilities_status_not_ok (page : Z) :
  let url :=
    "https://security.snyk.io/api/listing?type=npm&pageNumber="
    +:+ strconv_Itoa page in
  (forall body response,
     getBody url = Ok body ->
     unmarshalResponse body = Ok response ->
     VulnerabilityResponse_Status response <> "ok" ->
     GetVulnerabilities getBody unmarshalResponse page = ([], None)
     /\ forall fuel last,
          UpdateVulnerabilities_pages getBody unmarshalResponse
            (S fuel) last page = Some [])
  /\ (is_Some (GetVulnerabilities getBody unmarshalResponse page).2
      <-> (exists e, getBody url = Err e)
          \/ (exists body e,
                getBody url = Ok body /\ unmarshalResponse body = Err e)).
Proof.
  intros url. split.
  - intros body response Hbody Hresponse Hstatus.
    assert (H : GetVulnerabilities getBody unmarshalResponse page = ([], None)).
    { unfold GetVulnerabilities. fold url. rewrite Hbody, Hresponse.
      by rewrite decide_True. }
    split; [exact H|]. intros fuel last. simpl. by rewrite H.
  - unfold GetVulnerabilities. fold url.
    destruct (getBody url) as [body|e1].
    + destruct (unmarshalResponse body) as [response|e2] eqn:Hresponse.
      * case_decide; simpl;
          (split; [by intros [? [=]]
                  |intros [[? [=]]|(? & ? & [= <-] & ?)]; congruence]).
      * simpl. split; [|eauto]. intros _. right. eauto.
    + simpl. split; [|eauto]. intros _. left. eauto.
Qed.

Lemma UpdateVulnerabilities_page_untilKnown (last : option Vulnerability)
    (vulnerabilities : list Vulnerability) :
  (UpdateVulnerabilities_page last vulnerabilities).1
  = untilKnown last vulnerabilities
  /\ ((UpdateVulnerabilities_page last vulnerabilities).2 = true
      <-> Exists (known last) vulnerabilities)
  /\ Forall (fun v => ~ known last v) (untilKnown last vulnerabilities).
Proof.
  induction vulnerabilities as [|v rest (IH1 & IH2 & IH3)]; simpl.
  - repeat split; try done. intros H. by apply Exists_nil in H.
  - rewrite Exists_cons.
    destruct last as [l|]; simpl in *.
    + destruct (bool_decide (Vulnerability_Id v = Vulnerability_Id l)) eqn:Hid.
      * apply bool_decide_eq_true in Hid. simpl. repeat split; auto.
      * apply bool_decide_eq_false in Hid.
        destruct (UpdateVulnerabilities_page (Some l) rest) as [puts returned].
        simpl in *. split; [by rewrite IH1|]. split; [rewrite IH2; tauto|].
        by constructor.
    + destruct (UpdateVulnerabilities_page None rest) as [puts returned].
      simpl in *. split; [by rewrite IH1|]. split; [rewrite IH2; tauto|].
      constructor; [tauto|done].
Qed.

Lemma untilKnown_head (last : option Vulnerability) (v : Vulnerability)
    (l : list Vulnerability) :
  untilKnown last (v :: l)
  = if decide (known last v) then [] else v :: untilKnown last l.
Proof.
  destruct last as [x|]; simpl.
  - destruct (decide (Vulnerability_Id v = Vulnerability_Id x)) as [Hid|Hid].
    + by rewrite bool_decide_eq_true_2.
    + by rewrite bool_decide_eq_false_2.
  - done.
Qed.

Lemma untilKnown_app (last : option Vulnerability) (l1 l2 : list Vulnerability) :
  untilKnown last (l1 ++ l2)
  = if decide (Exists (known last) l1) then untilKnown last l1
    else l1 ++ untilKnown last l2.
Proof.
  induction l1 as [|v l1 IH].
  - destruct (decide (Exists (known last) [])) as [H|H]; [|done].
    by apply Exists_nil in H.
  - change ((v :: l1) ++ l2) with (v :: (l1 ++ l2)).
    rewrite !untilKnown_head, IH.
    destruct (decide (known last v)) as [Hv|Hv].
    + destruct (decide (Exists (known last) (v :: l1))) as [H|H]; [done|].
      exfalso. apply H. by left.
    + destruct (decide (Exists (known last) l1)) as [H1|H1];
        destruct (decide (Exists (known last) (v :: l1))) as [H|H]; try done.
      * exfalso. apply H. by right.
      * exfalso. apply Exists_cons in H. tauto.
Qed.

Lemma untilKnown_none (last : option Vulnerability) (l : list Vulnerability) :
  ~ Exists (known last) l -> untilKnown last l = l.
Proof.
  induction l as [|v l IH]; [done|]. rewrite Exists_cons, untilKnown_head.
  intros H. rewrite decide_False by tauto. rewrite IH by tauto. done.
Qed.

Lemma UpdateVulnerabilities_pages_spec (fuel : nat) (last : option Vulnerability)
    (page : Z) (puts : list Vulnerability) :
  UpdateVulnerabilities_pages getBody unmarshalResponse fuel last page
  = Some puts ->
  puts = untilKnown last
           (concat (untilEmpty
                      (feedPages getBody unmarshalResponse fuel page))).
Proof.
  revert page puts. induction fuel as [|fuel IH]; intros page puts; [done|].
  cbn [UpdateVulnerabilities_pages feedPages].
  pose proof (GetVulnerabilities_error_nil page) as Herr.
  destruct (GetVulnerabilities getBody unmarshalResponse page)
    as [vulnerabilities err]. cbn [fst snd] in *.
  destruct err as [e|].
  - rewrite (Herr e eq_refl). by intros [= <-].
  - destruct vulnerabilities as [|v vs]; [by intros [= <-]|].
    cbn [length Z.of_nat Z.eqb]. cbn [untilEmpty concat].
    destruct (UpdateVulnerabilities_page_untilKnown last (v :: vs))
      as (H1 & H2 & _).
    destruct (UpdateVulnerabilities_page last (v :: vs)) as [ps returned].
    cbn [fst snd] in *. rewrite untilKnown_app.
    destruct returned.
    + intros [= <-]. rewrite decide_True by by apply H2. done.
    + assert (Hnone : ~ Exists (known last) (v :: vs))
        by (rewrite <- H2; done).
      rewrite decide_False by done.
      destruct (UpdateVulnerabilities_pages _ _ fuel last (int_add page 1))
        as [more|] eqn:Hmore; [|done].
      intros [= <-]. rewrite (IH _ _ Hmore), H1.
      by rewrite (untilKnown_none _ _ Hnone).
Qed.

Lemma UpdateVulnerabilities_pages_ends (k : nat) (last : option Vulnerability)
    (page : Z) :
  (nth k (feedPages getBody unmarshalResponse (S k) page) [] = []
   \/ Exists (known last)
        (nth k (feedPages getBody unmarshalResponse (S k) page) [])) ->
  is_Some (UpdateVulnerabilities_pages getBody unmarshalResponse (S k) last page).
Proof.
  revert page. induction k as [|k IH]; intros page.
  - cbn [nth feedPages UpdateVulnerabilities_pages].
    pose proof (GetVulnerabilities_error_nil page) as Herr.
    destruct (GetVulnerabilities getBody unmarshalResponse page)
      as [vulnerabilities err]. cbn [fst snd] in *.
    destruct err as [e|]; [by eexists|].
    destruct vulnerabilities as [|v vs]; [by eexists|].
    intros [[=]|Hknown]. cbn [length Z.of_nat Z.eqb].
    destruct (UpdateVulnerabilities_page_untilKnown last (v :: vs))
      as (_ & H2 & _).
    destruct (UpdateVulnerabilities_page last (v :: vs)) as [ps returned].
    cbn [snd] in H2. apply H2 in Hknown. subst returned. by eexists.
  - remember (S k) as k'. cbn [feedPages UpdateVulnerabilities_pages].
    subst k'. cbn [nth]. intros Hend.
    destruct (GetVulnerabilities getBody unmarshalResponse page)
      as [vulnerabilities err].
    destruct err as [e|]; [by eexists|].
    destruct (Z.of_nat (length vulnerabilities) =? 0); [by eexists|].
    destruct (UpdateVulnerabilities_page last vulnerabilities) as [ps returned].
    destruct returned; [by eexists|].
    destruct (IH (int_add page 1) Hend) as [more ->]. by eexists.
Qed.

Lemma UpdateVulnerabilities_pages_mono (fuel fuel' : nat)
    (last : option Vulnerability) (page : Z) (puts : list Vulnerability) :
  (fuel <= fuel')%nat ->
  UpdateVulnerabilities_pages getBody unmarshalResponse fuel last page = Some puts ->
  UpdateVulnerabilities_pages getBody unmarshalResponse fuel' last page = Some puts.
Proof.
  revert fuel' page puts. induction fuel as [|fuel IH]; intros fuel' page puts Hle;
    [done|].
  destruct fuel' as [|fuel']; [lia|]. cbn [UpdateVulnerabilities_pages].
  destruct (GetVulnerabilities getBody unmarshalResponse page)
    as [vulnerabilities err].
  destruct err as [e|]; [done|].
  destruct (Z.of_nat (length vulnerabilities) =? 0); [done|].
  destruct (UpdateVulnerabilities_page last vulnerabilities) as [ps returned].
  destruct returned; [done|].
  destruct (UpdateVulnerabilities_pages _ _ fuel last (int_add page 1))
    as [more|] eqn:Hmore; [|done].
  intros [= <-]. by rewrite (IH fuel' _ more ltac:(lia) Hmore).
Qed.

(** X11. [UpdateVulnerabilities] stores the head of the feed. When the
    query for the newest stored vulnerability fails it stores nothing.
    Otherwise, reading the pages 1, 2, ... in order, what it hands to
    [DbPutVulnerability] is exactly the vulnerabilities of the pages
    before the first empty (or failed) page, in feed order, up to but
    not including the first one whose id is the newest stored id; nothing
    at or after that one is stored, and with an empty table every
    vulnerability before the first empty page is. The run ends as soon as
    some page is empty, fails, or holds the known id. *)
Theorem UpdateVulnerabilities_stores_feed_head :
  (forall e fuel,
     DbLastVulnerability = Err e ->
     UpdateVulnerabilities getBody unmarshalResponse DbLastVulnerability fuel
     = Some [])
  /\ (forall last fuel puts,
        DbLastVulnerability = Ok last ->
        UpdateVulnerabilities getBody unmarshalResponse DbLastVulnerability fuel
        = Some puts ->
        puts = untilKnown last
                 (concat (untilEmpty
                            (feedPages getBody unmarshalResponse fuel 1)))
        /\ Forall (fun v => ~ known last v) puts)
  /\ (forall last k,
        DbLastVulnerability = Ok last ->
        (nth k (feedPages getBody unmarshalResponse (S k) 1) [] = []
         \/ Exists (known last)
              (nth k (feedPages getBody unmarshalResponse (S k) 1) [])) ->
        exists puts,
          forall fuel, (k < fuel)%nat ->
            UpdateVulnerabilities getBody unmarshalResponse DbLastVulnerability
              fuel = Some puts).
Proof.
  unfold UpdateVulnerabilities. split; [|split].
  - intros e fuel ->. done.
  - intros last fuel puts -> Hrun.
    apply UpdateVulnerabilities_pages_spec in Hrun. split; [exact Hrun|].
    rewrite Hrun.
    apply (UpdateVulnerabilities_page_untilKnown last).
  - intros last k -> Hend.
    destruct (UpdateVulnerabilities_pages_ends k last 1 Hend) as [puts Hputs].
    exists puts. intros fuel Hfuel.
    eapply UpdateVulnerabilities_pages_mono; [|exact Hputs]. lia.
Qed.

End FeedProps.

Lemma GetVulnerabilities_status_not_ok_witness :
  GetVulnerabilities SampleFeed.getBody SampleFeed.unmarshalResponse 3
  = ([], None).
Proof.
  refine (proj1 (proj1 (GetVulnerabilities_status_not_ok SampleFeed.getBody
                          SampleFeed.unmarshalResponse 3)
                   "maintenance"
                   {| VulnerabilityResponse_Status := "maintenance";
                      VulnerabilityResponse_Vulnerabilities :=
                        [SampleFeed.advisory "V1"] |} _ _ _)).
  - vm_compute. reflexivity.
  - vm_compute. reflexivity.
  - discriminate.
Defined.

Lemma UpdateVulnerabilities_stores_feed_head_witness :
  UpdateVulnerabilities SampleFeed.getBody SampleFeed.unmarshalResponse
    SampleFeed.DbLastVulnerability 5
  = Some [SampleFeed.advisory "V9"; SampleFeed.advisory "V8";
          SampleFeed.advisory "V7"].
Proof.
  destruct (UpdateVulnerabilities SampleFeed.getBody SampleFeed.unmarshalResponse
              SampleFeed.DbLastVulnerability 5) as [puts|] eqn:Hrun;
    [|vm_compute in Hrun; discriminate].
  destruct (proj1 (proj2 (UpdateVulnerabilities_stores_feed_head
                            SampleFeed.getBody SampleFeed.unmarshalResponse
                            SampleFeed.DbLastVulnerability))
              (Some (SampleFeed.advisory "V6")) 5%nat puts eq_refl Hrun)
    as [Hputs _].
  rewrite Hputs. vm_compute. reflexivity.
Defined.

(** ** The registry of pending futures, continued *)

Lemma getOrCreate_wf (f : Pool.futureMap) (key : string) :
  registryWf f ->
  let '(future, isNew, f1) := Pool.getOrCreate f key in
  registryWf f1
  /\ Pool.futures f1 !! key = Some future
  /\ (isNew = true <-> Pool.futures f !! key = None)
  /\ (forall other fut,
        Pool.futures f !! other = Some fut -> Pool.futures f1 !! other = Some fut).
Proof.
  intros [Hlt Hinj]. unfold Pool.getOrCreate.
  destruct (Pool.futures f !! key) as [future|] eqn:Hkey.
  - repeat split; try done; by intros [=].
  - unfold registryWf. cbn [Pool.futures Pool.allocated]. split; [split|].
    + intros k fut. rewrite lookup_insert. case_decide.
      * intros [= <-]. lia.
      * intros H'. apply Hlt in H'. lia.
    + intros k1 k2 fut. rewrite !lookup_insert. repeat case_decide; subst.
      * done.
      * intros [= <-] H2. apply Hlt in H2. lia.
      * intros H1 [= <-]. apply Hlt in H1. lia.
      * apply Hinj.
    + split; [apply lookup_insert_eq|]. split; [done|].
      intros other fut Hother. rewrite lookup_insert_ne; [done|]. congruence.
Qed.

Lemma getOrCreate_all_wf (keys : list string) (f f' : Pool.futureMap)
    (returns : list (string * Pool.FutureRef * bool)) :
  registryWf f ->
  Pool.getOrCreate_all f keys = (returns, f') ->
  registryWf f'
  /\ (forall key future,
        Pool.futures f !! key = Some future ->
        Pool.futures f' !! key = Some future)
  /\ (forall key future isNew,
        (key, future, isNew) ∈ returns -> Pool.futures f' !! key = Some future).
Proof.
  revert f returns. induction keys as [|key rest IH]; intros f returns Hwf; simpl.
  - intros [= <- <-]. split; [done|]. split; [done|].
    intros ? ? ? H. by apply elem_of_nil in H.
  - pose proof (getOrCreate_wf f key Hwf) as Hstep.
    destruct (Pool.getOrCreate f key) as [[future isNew] f1].
    destruct Hstep as (Hwf1 & Hkey & _ & Hkeep).
    destruct (Pool.getOrCreate_all f1 rest) as [returns1 f2] eqn:Hrest.
    intros [= <- <-].
    destruct (IH f1 returns1 Hwf1 Hrest) as (Hwf2 & Hkeep2 & Hret2).
    split; [done|]. split; [by auto|].
    intros k fut n Hin. apply elem_of_cons in Hin as [[= -> -> ->]|Hin]; eauto.
Qed.

(** X12. The registry never forgets and never mixes keys up. Starting from
    the empty registry, after any sequence of [getOrCreate] calls in any
    order: two calls return the same [Future] exactly when they were made
    for the same key; every key asked for is still registered, with the
    future that was returned for it; and a later sequence of calls leaves
    every registered key with the same future (entries are neither removed
    nor replaced). *)
Theorem getOrCreate_all_one_future_per_key (keys more : list string)
    (f f' : Pool.futureMap)
    (returns returns' : list (string * Pool.FutureRef * bool)) :
  Pool.getOrCreate_all Pool.newFutureMap keys = (returns, f) ->
  Pool.getOrCreate_all f more = (returns', f') ->
  (forall key1 key2 future1 future2 isNew1 isNew2,
     (key1, future1, isNew1) ∈ returns ++ returns' ->
     (key2, future2, isNew2) ∈ returns ++ returns' ->
     (future1 = future2 <-> key1 = key2))
  /\ (forall key, key ∈ keys -> is_Some (Pool.futures f !! key))
  /\ (forall key future,
        Pool.futures f !! key = Some future ->
        Pool.futures f' !! key = Some future).
Proof.
  intros Hrun Hmore.
  assert (Hwf0 : registryWf Pool.newFutureMap).
  { split; intros *; cbn; by rewrite lookup_empty. }
  destruct (getOrCreate_all_wf _ _ _ _ Hwf0 Hrun) as (Hwf & _ & Hret).
  destruct (getOrCreate_all_wf _ _ _ _ Hwf Hmore) as (Hwf' & Hkeep & Hret').
  assert (Hall : forall key future isNew,
             (key, future, isNew) ∈ returns ++ returns' ->
             Pool.futures f' !! key = Some future).
  { intros key future isNew Hin. apply elem_of_app in Hin as [Hin|Hin]; eauto. }
  split; [|split; [|exact Hkeep]].
  - intros key1 key2 future1 future2 isNew1 isNew2 H1 H2.
    apply Hall in H1, H2. split.
    + intros <-. by eapply (proj2 Hwf').
    + intros <-. congruence.
  - intros key Hin. clear Hmore Hkeep Hret' Hall Hwf Hwf' Hret.
    revert f returns Hrun. generalize Pool.newFutureMap.
    induction keys as [|k rest IH]; intros f0 f returns; [by apply elem_of_nil in Hin|].
    simpl.
    destruct (Pool.getOrCreate f0 k) as [[future isNew] f1] eqn:Hcall.
    destruct (Pool.getOrCreate_all f1 rest) as [returns1 f2] eqn:Hrest.
    intros [= <- <-].
    apply elem_of_cons in Hin as [->|Hin]; [|by eapply IH].
    assert (Hk : Pool.futures f1 !! k = Some future).
    { destruct (Pool.futures f0 !! k) as [fk|] eqn:Hk.
      - rewrite (getOrCreate_known _ _ _ Hk) in Hcall. by injection Hcall as <- <- <-.
      - destruct (getOrCreate_unknown _ _ Hk) as (f1' & Hcall' & Hnow & _).
        rewrite Hcall' in Hcall. by injection Hcall as <- <- <-. }
    clear Hcall. revert f1 returns1 f2 Hrest Hk. clear.
    induction rest as [|k' rest IH]; intros f1 returns1 f2; simpl.
    + intros [= <- <-] Hk. eauto.
    + destruct (Pool.getOrCreate f1 k') as [[future' isNew'] f1'] eqn:Hcall.
      destruct (Pool.getOrCreate_all f1' rest) as [returns2 f3] eqn:Hrest.
      intros [= <- <-] Hk. eapply IH; [exact Hrest|].
      destruct (Pool.futures f1 !! k') as [fk|] eqn:Hk'.
      * rewrite (getOrCreate_known _ _ _ Hk') in Hcall. by injection Hcall as <- <- <-.
      * destruct (getOrCreate_unknown _ _ Hk') as (f1'' & Hcall' & _ & Hother).
        rewrite Hcall' in Hcall. injection Hcall as <- <- <-.
        rewrite Hother; [done|]. intros ->. congruence.
Qed.

Lemma getOrCreate_all_one_future_per_key_witness :
  exists future1 future2,
    ("a", future1, true)
      ∈ (Pool.getOrCreate_all Pool.newFutureMap ["a"; "b"; "a"]).1
    /\ ("b", future2, true)
         ∈ (Pool.getOrCreate_all Pool.newFutureMap ["a"; "b"; "a"]).1
    /\ future1 <> future2.
Proof.
  destruct (Pool.getOrCreate_all Pool.newFutureMap ["a"; "b"; "a"])
    as [returns f] eqn:Hrun.
  destruct (Pool.getOrCreate_all f []) as [returns' f'] eqn:Hmore.
  destruct (getOrCreate_all_one_future_per_key _ _ _ _ _ _ Hrun Hmore)
    as (Hsame & _).
  simpl in Hmore. injection Hmore as <- <-. rewrite app_nil_r in Hsame.
  vm_compute in Hrun. injection Hrun as <- <-.
  exists 0%nat, 1%nat. cbn [fst].
  assert (H1 : ("a", 0%nat, true)
               ∈ [("a", 0%nat, true); ("b", 1%nat, true); ("a", 0%nat, false)]).
  { apply elem_of_cons. by left. }
  assert (H2 : ("b", 1%nat, true)
               ∈ [("a", 0%nat, true); ("b", 1%nat, true); ("a", 0%nat, false)]).
  { apply elem_of_cons. right. apply elem_of_cons. by left. }
  split; [exact H1|]. split; [exact H2|].
  intros Heq. by apply (Hsame _ _ _ _ _ _ H1 H2) in Heq.
Defined.

(** ** Keys handed to the workers *)

Lemma ProcessKey_queueWf {Data : Type} (performer_Get : option Data)
    (s : SmartWorkPool) (key : string) :
  queueWf s ->
  queueWf (ProcessKey performer_Get s key).2
  /\ (forall k,
        k ∈ workQueue (ProcessKey performer_Get s key).2
        <-> k ∈ workQueue s \/ (k = key /\ performer_Get = None))
  /\ workQueue s `prefix_of` workQueue (ProcessKey performer_Get s key).2.
Proof.
  intros [Hnodup Hqueue]. unfold ProcessKey.
  destruct performer_Get as [data|]; simpl.
  { split; [done|]. split; [|done]. intros k. split; [by left|].
    by intros [?|[_ [=]]]. }
  unfold Pool.getOrCreate.
  destruct (Pool.futures (futureMap s) !! key) as [future|] eqn:Hkey; simpl.
  - split; [done|]. split; [|done]. intros k. split; [by left|].
    intros [?|[-> _]]; [done|]. apply Hqueue. by rewrite Hkey.
  - assert (Hfresh : key ∉ workQueue s).
    { intros Hin. apply Hqueue in Hin. rewrite Hkey in Hin. by destruct Hin. }
    split; [split|split].
    + apply NoDup_app. split; [done|]. split; [|apply NoDup_singleton].
      intros k Hk ->%list_elem_of_singleton. done.
    + intros k. cbn [workQueue futureMap Pool.futures].
      rewrite elem_of_app, list_elem_of_singleton, lookup_insert, Hqueue.
      case_decide; subst; split; eauto.
      intros [?|?]; [done|]. by subst.
    + intros k. rewrite elem_of_app, list_elem_of_singleton. split.
      * intros [?| ->]; eauto.
      * intros [?|[-> _]]; eauto.
    + by apply prefix_app_r.
Qed.

(** X13. Whatever the database answers, a key is handed to the workers at
    most once in the life of a pool. After any sequence of [ProcessKey]
    calls on a new pool, the keys sent on [workQueue] are pairwise
    different, they are the keys of the calls that the database did not
    answer, and they are the keys of the registry. Since [finish] leaves
    the entry in the registry, a key whose row has gone from the database
    again is not performed a second time: the call returns the future of
    the first time. *)
Theorem ProcessKey_all_sends_once {Data : Type}
    (calls : list (string * option Data)) (returns : list (Future Data))
    (s : SmartWorkPool) :
  ProcessKey_all NewSmartWorkPool calls = (returns, s) ->
  NoDup (workQueue s)
  /\ (forall key, key ∈ workQueue s <-> (key, None) ∈ calls)
  /\ (forall key,
        key ∈ workQueue s <-> is_Some (Pool.futures (futureMap s) !! key))
  /\ (forall (more : list (string * option Data)) key,
        key ∈ workQueue s ->
        workQueue (ProcessKey_all s (more ++ [(key, None)])).2
        = workQueue (ProcessKey_all s more).2).
Proof.
  assert (Hgen : forall (calls : list (string * option Data)) s0 returns s,
             queueWf s0 ->
             ProcessKey_all s0 calls = (returns, s) ->
             queueWf s
             /\ (forall key,
                   key ∈ workQueue s
                   <-> key ∈ workQueue s0 \/ (key, None) ∈ calls)).
  { clear. induction calls as [|[key got] rest IH]; intros s0 returns s Hwf; simpl.
    - intros [= <- <-]. split; [done|]. intros key. split; [by left|].
      intros [?|H]; [done|]. by apply elem_of_nil in H.
    - pose proof (ProcessKey_queueWf got s0 key Hwf) as (Hwf1 & Hsent & _).
      destruct (ProcessKey got s0 key) as [future s1].
      destruct (ProcessKey_all s1 rest) as [returns1 s2] eqn:Hrest.
      intros [= <- <-]. simpl in Hwf1, Hsent.
      destruct (IH _ _ _ Hwf1 Hrest) as [Hwf2 Hsent2].
      split; [done|]. intros k. rewrite Hsent2, Hsent, elem_of_cons. split.
      + intros [[?|[-> ->]]|?]; eauto.
      + intros [?|[[= -> ->]|?]]; eauto. }
  assert (Hnew : queueWf NewSmartWorkPool).
  { split; [apply NoDup_nil_2|]. intros key. cbn. rewrite lookup_empty. split.
    - intros H. by apply elem_of_nil in H.
    - by intros [? [=]]. }
  intros Hrun. destruct (Hgen _ _ _ _ Hnew Hrun) as [[Hnodup Hqueue] Hsent].
  split; [done|]. split; [|split; [done|]].
  - intros key. rewrite Hsent. split; [|by right].
    intros [H|?]; [|done]. by apply elem_of_nil in H.
  - intros more key Hin.
    assert (Hstep : forall (more : list (string * option Data)) s0,
               queueWf s0 -> key ∈ workQueue s0 ->
               workQueue (ProcessKey_all s0 (more ++ [(key, None)])).2
               = workQueue (ProcessKey_all s0 more).2).
    { clear. induction more as [|[k got] rest IH]; intros s0 Hwf Hin; simpl.
      - unfold Pool.getOrCreate.
        destruct (proj1 (proj2 Hwf key) Hin) as [future ->]. done.
      - pose proof (ProcessKey_queueWf got s0 k Hwf) as (Hwf1 & Hsent & _).
        destruct (ProcessKey got s0 k) as [future s1]. simpl in Hwf1, Hsent.
        specialize (IH s1 Hwf1 (proj2 (Hsent key) (or_introl Hin))).
        destruct (ProcessKey_all s1 (rest ++ [(key, None)])) as [r1 s2].
        destruct (ProcessKey_all s1 rest) as [r2 s3]. exact IH. }
    apply Hstep; [by split|done].
Qed.

Lemma ProcessKey_all_sends_once_witness :
  let s :=
    (ProcessKey_all (Data := Z) NewSmartWorkPool
       [("a", None); ("b", Some 7); ("a", None); ("c", None)]).2 in
  NoDup (workQueue s)
  /\ workQueue (ProcessKey_all (Data := Z) s [("a", None)]).2 = workQueue s.
Proof.
  intros s.
  destruct (ProcessKey_all_sends_once (Data := Z)
              [("a", None); ("b", Some 7); ("a", None); ("c", None)]
              [Pending 0%nat; NewFutureResolved 7; Pending 0%nat; Pending 1%nat]
              s)
    as (Hnodup & Hsent & _ & Hagain).
  - vm_compute. reflexivity.
  - split; [exact Hnodup|]. apply (Hagain [] "a"). apply Hsent.
    apply elem_of_cons. by left.
Defined.

(** ** Listings of the version page *)

Lemma Ascii_compare_refl (c : ascii) : Ascii.compare c c = Eq.
Proof. unfold Ascii.compare. apply N.compare_refl. Qed.

Lemma Ascii_compare_lt_trans (a b c : ascii) :
  Ascii.compare a b = Lt -> Ascii.compare b c = Lt -> Ascii.compare a c = Lt.
Proof.
  unfold Ascii.compare. rewrite !N.compare_lt_iff. apply N.lt_trans.
Qed.

Lemma String_compare_refl (s : string) : String.compare s s = Eq.
Proof. induction s as [|c s IH]; simpl; [done|]. by rewrite Ascii_compare_refl. Qed.

Lemma String_compare_lt_trans (s1 s2 s3 : string) :
  String.compare s1 s2 = Lt -> String.compare s2 s3 = Lt ->
  String.compare s1 s3 = Lt.
Proof.
  revert s2 s3. induction s1 as [|c1 s1 IH]; intros [|c2 s2] [|c3 s3]; simpl;
    try done.
  destruct (Ascii.compare c1 c2) eqn:H12; try done;
    destruct (Ascii.compare c2 c3) eqn:H23; try done; intros Ha Hb.
  - apply Ascii.compare_eq_iff in H12, H23. subst.
    rewrite Ascii_compare_refl. by eapply IH.
  - apply Ascii.compare_eq_iff in H12. subst. by rewrite H23.
  - apply Ascii.compare_eq_iff in H23. subst. by rewrite H12.
  - by rewrite (Ascii_compare_lt_trans _ _ _ H12 H23).
Qed.

Lemma String_ltb_strictTotal : strictTotal String.ltb.
Proof.
  unfold strictTotal, String.ltb. split; [|split].
  - intros s. by rewrite String_compare_refl.
  - intros a b c.
    destruct (String.compare a b) eqn:Hab; try done.
    destruct (String.compare b c) eqn:Hbc; try done.
    by rewrite (String_compare_lt_trans _ _ _ Hab Hbc).
  - intros a b Hne. rewrite (String.compare_antisym b a).
    destruct (String.compare a b) eqn:Hab; simpl; auto.
    by apply String.compare_eq_iff in Hab.
Qed.

Lemma IntEntries_Less_strictTotal : strictTotal IntEntries_Less.
Proof.
  destruct String_ltb_strictTotal as (Hirr & Htrans & Htot).
  unfold strictTotal, IntEntries_Less. split; [|split].
  - intros a. rewrite Z.eqb_refl. apply Hirr.
  - intros a b c.
    destruct (Z.eqb_spec (IntEntry_Value a) (IntEntry_Value b)) as [Hab|Hab];
      destruct (Z.eqb_spec (IntEntry_Value b) (IntEntry_Value c)) as [Hbc|Hbc];
      destruct (Z.eqb_spec (IntEntry_Value a) (IntEntry_Value c)) as [Hac|Hac];
      rewrite ?Z.ltb_lt; try lia; eauto.
  - intros [ka va] [kb vb] Hne. simpl.
    destruct (Z.eqb_spec va vb) as [->|Hv].
    + rewrite Z.eqb_refl. apply Htot. congruence.
    + rewrite (proj2 (Z.eqb_neq vb va)) by lia. rewrite !Z.ltb_lt. lia.
Qed.

Section Sorting.

Context {A : Type} `{EqDecision A} (less : A -> A -> bool).
Hypothesis less_strictTotal : strictTotal less.

Local Instance sort_Sort_trans : Transitive (notAfter less).
Proof.
  destruct less_strictTotal as (Hirr & Htrans & Htot).
  unfold notAfter. intros a b c Hba Hcb.
  destruct (less c a) eqn:Hca; [|done]. exfalso.
  assert (Hab : a <> b).
  { intros ->. congruence. }
  destruct (Htot a b Hab) as [H|H]; [|congruence].
  rewrite (Htrans c a b Hca H) in Hcb. done.
Qed.

Local Instance sort_Sort_total : Total (notAfter less).
Proof.
  destruct less_strictTotal as (Hirr & Htrans & Htot).
  unfold notAfter. intros a b. destruct (less b a) eqn:Hba; [|by left]. right.
  destruct (less a b) eqn:Hab; [|done].
  pose proof (Htrans a b a Hab Hba) as H. by rewrite Hirr in H.
Qed.

Local Instance sort_Sort_antisym : AntiSymm (=) (notAfter less).
Proof.
  destruct less_strictTotal as (Hirr & Htrans & Htot).
  unfold notAfter. intros a b Hba Hab.
  destruct (decide (a = b)) as [|Hne]; [done|].
  destruct (Htot a b Hne); congruence.
Qed.

Lemma sort_Sort_Permutation (data : list A) : sort_Sort less data ≡ₚ data.
Proof. apply merge_sort_Permutation. Qed.

Lemma sort_Sort_unique (data data' : list A) :
  data ≡ₚ data' -> sort_Sort less data = sort_Sort less data'.
Proof.
  intros Hperm. unfold sort_Sort.
  apply (Sorted_unique (notAfter less));
    [apply Sorted_merge_sort; apply _..|].
  by rewrite !merge_sort_Permutation.
Qed.

Lemma sort_Sort_strict (data : list A) :
  NoDup data ->
  StronglySorted (fun a b => less a b = true) (sort_Sort less data).
Proof.
  destruct less_strictTotal as (Hirr & Htrans & Htot).
  intros Hnodup. rewrite <- (sort_Sort_Permutation data) in Hnodup.
  pose proof (StronglySorted_merge_sort (notAfter less) data) as Hsorted. fold (sort_Sort less data) in Hsorted.
  induction Hsorted as [|a l Hl IH Hall]; [constructor|].
  apply NoDup_cons in Hnodup as [Hnotin Hnodup].
  constructor; [by apply IH|].
  rewrite Forall_forall in Hall |- *. intros b Hb.
  assert (Hne : a <> b) by (intros ->; done).
  destruct (Htot a b Hne) as [H|H]; [done|].
  rewrite (Hall b Hb) in H. done.
Qed.

End Sorting.

Lemma StronglySorted_weaken {A : Type} (R1 R2 : relation A) (l : list A) :
  (forall a b, R1 a b -> R2 a b) -> StronglySorted R1 l -> StronglySorted R2 l.
Proof.
  intros HR. induction 1 as [|a l Hl IH Hall]; constructor; [done|].
  eapply Forall_impl; [exact Hall|]. auto.
Qed.

(** X14. The publishers table has one order. [IntEntries.Less] is a
    strict total order on entries (larger count first, equal counts by
    ascending key), so the result of [sortedMapByIntValue] does not depend
    on the order in which Go ranges over the map nor on the sorting
    algorithm: it holds each publisher of the map exactly once with its
    count, and of any two entries the earlier one has the larger count,
    or the same count and the smaller key. *)
Theorem sortedMapByIntValue_order (m : gmap string Z) :
  strictTotal IntEntries_Less
  /\ (forall key value,
        {| IntEntry_Key := key; IntEntry_Value := value |}
          ∈ sortedMapByIntValue m
        <-> m !! key = Some value)
  /\ length (sortedMapByIntValue m) = size m
  /\ StronglySorted
       (fun left right =>
          IntEntry_Value right < IntEntry_Value left
          \/ (IntEntry_Value left = IntEntry_Value right
              /\ String.ltb (IntEntry_Key left) (IntEntry_Key right) = true))
       (sortedMapByIntValue m)
  /\ (forall entries,
        entries ≡ₚ map_to_list m ->
        sortedEntries entries = sortedMapByIntValue m).
Proof.
  pose proof IntEntries_Less_strictTotal as Hstrict.
  set (mk := fun entry : string * Z =>
               {| IntEntry_Key := entry.1; IntEntry_Value := entry.2 |}).
  assert (Hperm : sortedMapByIntValue m ≡ₚ mk <$> map_to_list m).
  { apply (sort_Sort_Permutation IntEntries_Less). }
  assert (Hinj : Inj (=) (=) mk).
  { intros [k1 v1] [k2 v2] [= -> ->]. done. }
  split; [exact Hstrict|]. split; [|split; [|split]].
  - intros key value. rewrite Hperm, list_elem_of_fmap. split.
    + intros ([k v] & [= -> ->] & Hin). by apply elem_of_map_to_list.
    + intros Hin. exists (key, value). split; [done|]. by apply elem_of_map_to_list.
  - by rewrite Hperm, length_fmap, length_map_to_list.
  - assert (Hnodup : NoDup (mk <$> map_to_list m)).
    { apply NoDup_fmap_2; [done|]. apply NoDup_map_to_list. }
    pose proof (sort_Sort_strict IntEntries_Less Hstrict _ Hnodup) as Hsorted.
    eapply StronglySorted_weaken; [|exact Hsorted].
    intros left right. unfold IntEntries_Less.
    destruct (Z.eqb_spec (IntEntry_Value left) (IntEntry_Value right));
      rewrite ?Z.ltb_lt; auto.
  - intros entries Hentries. unfold sortedMapByIntValue, sortedEntries.
    apply (sort_Sort_unique IntEntries_Less Hstrict). by rewrite Hentries.
Qed.

(** X15. [sortedDependencyNames] lists every dependency name of the map
    exactly once, in strictly ascending byte order, whatever the order in
    which Go ranges over the map. *)
Theorem sortedDependencyNames_sorted (dependencies : gmap string (list string)) :
  (forall name,
     name ∈ sortedDependencyNames dependencies
     <-> is_Some (dependencies !! name))
  /\ length (sortedDependencyNames dependencies) = size dependencies
  /\ StronglySorted (fun a b => String.ltb a b = true)
       (sortedDependencyNames dependencies)
  /\ (forall names,
        names ≡ₚ (map_to_list dependencies).*1 ->
        sort_Strings names = sortedDependencyNames dependencies).
Proof.
  assert (Hperm : sortedDependencyNames dependencies
                  ≡ₚ (map_to_list dependencies).*1).
  { apply (sort_Sort_Permutation String.ltb). }
  split; [|split; [|split]].
  - intros name. rewrite Hperm, list_elem_of_fmap. split.
    + intros ([k v] & -> & Hin). apply elem_of_map_to_list in Hin. eauto.
    + intros [v Hv]. exists (name, v). split; [done|]. by apply elem_of_map_to_list.
  - by rewrite Hperm, length_fmap, length_map_to_list.
  - apply (sort_Sort_strict String.ltb String_ltb_strictTotal).
    apply NoDup_fst_map_to_list.
  - intros names Hnames. unfold sortedDependencyNames, sort_Strings.
    by apply (sort_Sort_unique String.ltb String_ltb_strictTotal).
Qed.

Lemma sortedMapByIntValue_order_witness :
  let m : gmap string Z :=
    list_to_map [("alice", 2); ("rob", 1); ("bob", 1); ("", 2)] in
  sortedEntries (reverse (map_to_list m)) = sortedMapByIntValue m.
Proof.
  intros m.
  apply (proj2 (proj2 (proj2 (proj2 (sortedMapByIntValue_order m))))).
  apply reverse_Permutation.
Defined.

Lemma sortedDependencyNames_sorted_witness :
  let dependencies : gmap string (list string) :=
    list_to_map [("a", ["1.0.0"]); ("b", ["1.0.0"]); ("c", ["1.0.0"]);
                 ("dep", ["1.5.0"; "2.1.0"])] in
  sort_Strings (reverse (map_to_list dependencies).*1)
  = sortedDependencyNames dependencies.
Proof.
  intros dependencies.
  apply (proj2 (proj2 (proj2 (sortedDependencyNames_sorted dependencies)))).
  apply reverse_Permutation.
Defined.

(** ** Rendering of HTML trees *)

Lemma Node_children_ind (P : Node -> Prop) :
  (forall name typ attrs children,
      Forall (fun child => match child with Some n => P n | None => True end)
        children ->
      P (Element name typ attrs children)) ->
  (forall t, P (TextNode t)) ->
  (forall t, P (UnsafeRawContent t)) ->
  forall node, P node.
Proof.
  intros HE HT HU.
  exact (fix IH (node : Node) : P node :=
           match node with
           | Element name typ attrs children =>
               HE name typ attrs children
                 ((fix IHc (l : list (option Node)) :=
                     match l return
                       Forall (fun child =>
                                 match child with Some n => P n | None => True end) l
                     with
                     | [] => List.Forall_nil _
                     | None :: rest => List.Forall_cons _ None rest I (IHc rest)
                     | Some c :: rest =>
                         List.Forall_cons _ (Some c) rest (IH c) (IHc rest)
                     end) children)
           | TextNode t => HT t
           | UnsafeRawContent t => HU t
           end).
Qed.

(** The outcome of a loop over the children, from the outcome of its body
    on each child, when that does not depend on the text written so far. *)
Lemma forChildren_outcome {A : Type} (body : A -> string -> run string)
    (fits : A -> Prop) (children : list (option A)) :
  Forall (fun child =>
            match child with
            | Some n =>
                forall b, (body n b = Panic /\ ~ fits n)
                          \/ (exists out, body n b = Done out /\ fits n)
            | None => True
            end) children ->
  forall b,
    (forChildren body children b = Panic
     /\ ~ Forall (fun child => match child with Some n => fits n | None => True end)
          children)
    \/ (exists out,
          forChildren body children b = Done out
          /\ Forall (fun child => match child with Some n => fits n | None => True end)
               children).
Proof.
  induction 1 as [|[n|] rest Hn _ IH]; intros b; simpl.
  - right. eauto.
  - destruct (Hn b) as [[-> Hno]|(out & -> & Hyes)].
    + left. split; [done|]. intros Hall. by inversion Hall.
    + destruct (IH out) as [[-> Hno]|(out' & -> & Hall)].
      * left. split; [done|]. intros Hall. by inversion Hall.
      * right. eauto.
  - destruct (IH b) as [[-> Hno]|(out' & -> & Hall)].
    + left. split; [done|]. intros Hall. by inversion Hall.
    + right. eauto.
Qed.

Lemma blockDepth_inner_le (children : list (option Node)) (k : nat) :
  (foldr (fun child depth =>
            match child with
            | Some child => Nat.max (blockDepth child) depth
            | None => depth
            end) 0%nat children <= k)%nat
  <-> Forall (fun child =>
                match child with
                | Some n => (blockDepth n <= k)%nat
                | None => True
                end) children.
Proof.
  induction children as [|[n|] rest IH]; simpl.
  - split; [constructor|lia].
  - rewrite Forall_cons, <- IH. lia.
  - rewrite Forall_cons, <- IH. tauto.
Qed.

Lemma someChild_false {A : Type} (P : A -> Prop) (children : list (option A)) :
  someChild children = false ->
  Forall (fun child => match child with Some n => P n | None => True end)
    children.
Proof.
  induction children as [|[n|] rest IH]; simpl; [constructor|done|].
  intros H. constructor; auto.
Qed.

Lemma slice_to_space (k : Z) :
  (0 <= k <= 100 -> exists s, slice_to space k = Done s)
  /\ (100 < k -> slice_to space k = Panic).
Proof.
  unfold slice_to. change (Z.of_nat (String.length space)) with 100. split.
  - intros Hk. destruct (Z.leb_spec 0 k); [|lia].
    destruct (Z.leb_spec k 100); [|lia]. simpl. eauto.
  - intros Hk. destruct (Z.leb_spec k 100); [lia|]. by rewrite andb_false_r.
Qed.

Lemma Node_WriteTo_outcome (html_EscapeString : string -> string) (node : Node) :
  forall b indent,
    0 <= indent <= 100 ->
    (Node_WriteTo html_EscapeString node b indent = Panic
     /\ 100 < indent + 2 * Z.of_nat (blockDepth node))
    \/ (exists out,
          Node_WriteTo html_EscapeString node b indent = Done out
          /\ indent + 2 * Z.of_nat (blockDepth node) <= 100).
Proof.
  induction node as [name typ attrs children IH|t|t] using Node_children_ind;
    intros b indent Hindent;
    [|right; simpl; eexists; split; [done|lia]..].
  cbn [Node_WriteTo blockDepth].
  set (b0 := writeAttrs _ _ _).
  set (inner := foldr _ _ _).
  destruct typ.
  - right. eexists. split; [done|lia].
  - set (b1 := b0 +:+ ">").
    destruct (decide (0 < Z.of_nat (length children))) as [Hlen|Hlen]; cycle 1.
    { destruct children; [|simpl in Hlen; lia]. right. simpl. eexists. split; [done|lia]. }
    pose proof (forChildren_outcome
                  (fun child b =>
                     match slice_to space (int_add indent 2) with
                     | Done indentation =>
                         Node_WriteTo html_EscapeString child
                           (b +:+ newline +:+ indentation) (int_add indent 2)
                     | _ => Panic
                     end)
                  (fun n => indent + 2 + 2 * Z.of_nat (blockDepth n) <= 100)
                  children) as Hloop.
    assert (Hadd : int_add indent 2 = indent + 2).
    { unfold int_add. apply wrap64_small. lia. }
    destruct (Hloop) with (b := b1) as [[-> Hno]|(out & -> & Hall)].
    + clear Hloop. eapply Forall_impl; [exact IH|]. intros [n|] Hn; [|done].
      intros b'. rewrite Hadd.
      destruct (Z_le_gt_dec (indent + 2) 100) as [Hle|Hgt].
      * destruct (proj1 (slice_to_space (indent + 2))) as [s ->]; [lia|].
        destruct (Hn (b' +:+ newline +:+ s) (indent + 2) ltac:(lia))
          as [[-> ?]|(out & -> & ?)];
          [left|right]; [split; [done|lia]|eexists; split; [done|lia]].
      * rewrite (proj2 (slice_to_space (indent + 2))) by lia. left. split; [done|lia].
    + left. split; [done|].
      destruct (someChild children) eqn:Hsome.
      * destruct (Z_le_gt_dec (indent + 2 * Z.of_nat (S inner)) 100) as [Hle|Hgt]; [|lia].
        exfalso. apply Hno.
        assert (Hinner : (inner <= inner)%nat) by lia.
        apply blockDepth_inner_le in Hinner.
        eapply Forall_impl; [exact Hinner|]. intros [n|] Hn; [|done]. simpl in Hn. lia.
      * exfalso. apply Hno. by apply someChild_false.
    + right. destruct (proj1 (slice_to_space indent) Hindent) as [s ->].
      eexists. split; [done|].
      destruct (someChild children) eqn:Hsome; [|lia].
      assert (Hinner : (inner <= Z.to_nat ((100 - indent - 2) / 2))%nat).
      { apply blockDepth_inner_le. eapply Forall_impl; [exact Hall|].
        intros [n|] Hn; [|done]. simpl in Hn.
        apply Nat2Z.inj_le. rewrite Z2Nat.id by (apply Z.div_pos; lia).
        apply Z.div_le_lower_bound; lia. }
      assert (Hsomechild : Exists (fun child => is_Some child) children).
      { clear -Hsome. induction children as [|[n|] rest IHc]; simpl in Hsome; [done| |].
        - apply Exists_cons_hd. eauto.
        - apply Exists_cons_tl. auto. }
      apply Exists_exists in Hsomechild as ([n|] & Hin & Hn); [|by destruct Hn].
      rewrite Forall_forall in Hall. specialize (Hall _ Hin). simpl in Hall.
      apply Nat2Z.inj_le in Hinner.
      rewrite Z2Nat.id in Hinner by (apply Z.div_pos; lia).
      pose proof (Z.mul_div_le (100 - indent - 2) 2). lia.
  - set (b1 := b0 +:+ ">").
    destruct (decide (0 < Z.of_nat (length children))) as [Hlen|Hlen]; cycle 1.
    { destruct children; [|simpl in Hlen; lia]. right. subst inner. simpl.
      eexists. split; [done|lia]. }
    destruct (forChildren_outcome
                (fun child b => Node_WriteTo html_EscapeString child b indent)
                (fun n => indent + 2 * Z.of_nat (blockDepth n) <= 100)
                children) with (b := b1) as [[-> Hno]|(out & -> & Hall)].
    + eapply Forall_impl; [exact IH|]. intros [n|] Hn; [|done].
      intros b'. destruct (Hn b' indent Hindent) as [[-> ?]|(out & -> & ?)];
        [left|right]; [split; [done|lia]|eexists; split; [done|lia]].
    + left. split; [done|].
      destruct (Z_le_gt_dec (indent + 2 * Z.of_nat inner) 100) as [Hle|Hgt]; [|lia].
      exfalso. apply Hno.
      assert (Hinner : (inner <= inner)%nat) by lia.
      apply blockDepth_inner_le in Hinner.
      eapply Forall_impl; [exact Hinner|]. intros [n|] Hn; [|done]. simpl in Hn. lia.
    + right. eexists. split; [done|].
      assert (Hinner : (inner <= Z.to_nat ((100 - indent) / 2))%nat).
      { apply blockDepth_inner_le. eapply Forall_impl; [exact Hall|].
        intros [n|] Hn; [|done]. simpl in Hn.
        apply Nat2Z.inj_le. rewrite Z2Nat.id by (apply Z.div_pos; lia).
        apply Z.div_le_lower_bound; lia. }
      apply Nat2Z.inj_le in Hinner.
      rewrite Z2Nat.id in Hinner by (apply Z.div_pos; lia).
      pose proof (Z.mul_div_le (100 - indent) 2). lia.
Qed.

Lemma blockDepth_nested (depth : nat) (node : Node) :
  blockDepth (nested depth node) = (depth + blockDepth node)%nat.
Proof.
  induction depth as [|depth IH]; [done|].
  cbn [nested blockDepth someChild existsb foldr orb]. rewrite IH. lia.
Qed.

(** X16. Rendering indents with a slice of a constant of 100 spaces, two
    more for each [Block] element that has a child. [RenderNode] therefore
    returns the page exactly when at most 50 such elements lie inside each
    other, and panics (slice bounds out of range) on every deeper tree,
    whatever the text, the attributes and the escaping are. Fifty-one
    [div]s inside each other around any node are such a tree. *)
Theorem RenderNode_nesting_limit (html_EscapeString : string -> string)
    (node : Node) :
  ((exists page, RenderNode html_EscapeString node = Done page)
   <-> (blockDepth node <= 50)%nat)
  /\ (RenderNode html_EscapeString node = Panic <-> (50 < blockDepth node)%nat)
  /\ RenderNode html_EscapeString (nested 51 node) = Panic.
Proof.
  assert (Hgen : forall node,
             (RenderNode html_EscapeString node = Panic /\ (50 < blockDepth node)%nat)
             \/ (exists page, RenderNode html_EscapeString node = Done page
                              /\ (blockDepth node <= 50)%nat)).
  { intros n. unfold RenderNode.
    destruct (Node_WriteTo_outcome html_EscapeString n "" 0 ltac:(lia))
      as [[-> ?]|(out & -> & ?)];
      [left|right]; [split; [done|lia]|eexists; split; [done|lia]]. }
  split; [|split].
  - destruct (Hgen node) as [[-> ?]|(page & -> & ?)]; split; eauto; try lia.
    by intros [? [=]].
  - destruct (Hgen node) as [[-> ?]|(page & -> & ?)]; split; eauto; try lia.
    by intros [=].
  - destruct (Hgen (nested 51 node)) as [[-> ?]|(page & _ & Hle)]; [done|].
    rewrite blockDepth_nested in Hle. lia.
Qed.

(** ** The tables of the version page *)

Lemma H_a_href (href text : string) :
  H "a href=%s" [P_string href; P_string text]
  = Done (Element "a" Inline [Attr "href" href] [Some (TextNode text)]).
Proof. vm_compute. reflexivity. Qed.

Lemma H_td_Node (node : Node) :
  H "td" [P_Node node] = Done (Element "td" Block [] [Some node]).
Proof. vm_compute. reflexivity. Qed.

Lemma H_td_Nodes (nodes : list (option Node)) :
  H "td" [P_Nodes nodes] = Done (Element "td" Block [] nodes).
Proof. vm_compute. reflexivity. Qed.

Lemma H_tr_Node_Node (left right : Node) :
  H "tr" [P_Node left; P_Node right]
  = Done (Element "tr" Block [] [Some left; Some right]).
Proof. vm_compute. reflexivity. Qed.

Lemma H_th_string (text : string) :
  H "th" [P_string text] = Done (Element "th" Block [] [Some (TextNode text)]).
Proof. vm_compute. reflexivity. Qed.

Lemma H_table_Node_Nodes (head : Node) (rows : list (option Node)) :
  H "table" [P_Node head; P_Nodes rows]
  = Done (Element "table" Block [] (Some head :: rows)).
Proof. vm_compute. reflexivity. Qed.

Lemma renderVersions_links_eq (name : string) (versions : list string)
    (links : list (option Node)) :
  renderVersions_links name versions links
  = Done (links ++ versionLinks name versions).
Proof.
  revert links. induction versions as [|v rest IH]; intros links;
    cbn [renderVersions_links versionLinks flat_map].
  - by rewrite app_nil_r.
  - rewrite H_a_href. cbn [mbind run_bind]. rewrite IH.
    by rewrite <- app_assoc.
Qed.

Lemma renderVersions_eq (name : string) (versions : list string) :
  renderVersions name versions
  = match versions with
    | [] => Panic
    | _ => Done (Element "td" Block [] (tail (versionLinks name versions)))
    end.
Proof.
  unfold renderVersions. rewrite renderVersions_links_eq.
  cbn [mbind run_bind app].
  destruct versions as [|v rest]; [done|].
  cbn [versionLinks flat_map app tail]. by rewrite H_td_Nodes.
Qed.

Lemma VersionView_dependencies_eq (dependencies : gmap string (list string))
    (names : list string) (rows : list (option Node)) :
  VersionView_dependencies dependencies names rows
  = if decide (Exists (fun name => default [] (dependencies !! name) = []) names)
    then Panic
    else Done (rows ++ (dependencyRow dependencies <$> names)).
Proof.
  revert rows. induction names as [|name rest IH]; intros rows;
    cbn [VersionView_dependencies].
  - rewrite decide_False; [by rewrite app_nil_r|]. by intros ?%Exists_nil.
  - rewrite H_a_href. cbn [mbind run_bind].
    rewrite H_td_Node. cbn [mbind run_bind]. rewrite renderVersions_eq.
    destruct (default [] (dependencies !! name)) as [|v versions] eqn:Hversions.
    + cbn [mbind run_bind]. rewrite decide_True; [done|]. by apply Exists_cons_hd.
    + cbn [mbind run_bind]. rewrite H_tr_Node_Node. cbn [mbind run_bind].
      rewrite IH.
      assert (Hrow : Some (Element "tr" Block []
                             [Some (Element "td" Block []
                                      [Some (Element "a" Inline
                                               [Attr "href" (npmHref name "")]
                                               [Some (TextNode name)])]);
                              Some (Element "td" Block []
                                      (tail (versionLinks name (v :: versions))))])
                     = dependencyRow dependencies name).
      { unfold dependencyRow, versionLink. by rewrite Hversions. }
      rewrite Hrow.
      destruct (decide (Exists _ rest)) as [Hex|Hex].
      * rewrite decide_True; [done|]. by apply Exists_cons_tl.
      * rewrite decide_False.
        -- by rewrite fmap_cons, <- app_assoc.
        -- intros [Hhd|Htl]%Exists_cons; [|done]. by rewrite Hversions in Hhd.
Qed.

Lemma H_td_string (text : string) :
  H "td" [P_string text] = Done (Element "td" Block [] [Some (TextNode text)]).
Proof. vm_compute. reflexivity. Qed.

Lemma H_td_int (i : Z) :
  H "td" [P_int i] = Done (Element "td" Block [] [Some (TextNode (strconv_Itoa i))]).
Proof.
  unfold H. cbn [String.length Z.of_nat Pos.of_succ_nat Pos.succ Z.eqb].
  set (text := strconv_Itoa i). vm_compute. reflexivity.
Qed.

Lemma VersionView_publishers_eq (entries : list IntEntry)
    (rows : list (option Node)) :
  VersionView_publishers entries rows = Done (rows ++ (publisherRow <$> entries)).
Proof.
  revert rows. induction entries as [|entry rest IH]; intros rows;
    cbn [VersionView_publishers].
  - by rewrite app_nil_r.
  - rewrite H_td_string. cbn [mbind run_bind]. rewrite H_td_int.
    cbn [mbind run_bind]. rewrite H_tr_Node_Node. cbn [mbind run_bind].
    rewrite IH. by rewrite fmap_cons, <- app_assoc.
Qed.

Lemma blockDepth_Block_le (name : string) (attrs : list ElementAttr)
    (children : list (option Node)) (k : nat) :
  childrenWithin k children ->
  (blockDepth (Element name Block attrs children) <= S k)%nat.
Proof.
  intros Hchildren. cbn [blockDepth].
  destruct (someChild children); [|lia].
  apply le_n_S. by apply blockDepth_inner_le.
Qed.

Lemma childrenWithin_versionLinks (name : string) (versions : list string) :
  childrenWithin 0 (versionLinks name versions).
Proof.
  induction versions as [|v rest IH]; [constructor|].
  cbn [versionLinks flat_map app]. constructor; [done|]. constructor; [|exact IH].
  cbn. lia.
Qed.

Lemma childrenWithin_tail (k : nat) (children : list (option Node)) :
  childrenWithin k children -> childrenWithin k (tail children).
Proof. intros Hchildren. destruct Hchildren; [constructor|done]. Qed.

Lemma blockDepth_dependencyRows (dependencies : gmap string (list string))
    (names : list string) :
  childrenWithin 2 (dependencyRow dependencies <$> names).
Proof.
  induction names as [|name rest IH]; [constructor|].
  rewrite fmap_cons. constructor; [|exact IH].
  apply blockDepth_Block_le. constructor; [|constructor; [|constructor]].
  - apply blockDepth_Block_le. constructor; [|constructor]. cbn. lia.
  - apply blockDepth_Block_le. apply childrenWithin_tail.
    eapply Forall_impl; [apply childrenWithin_versionLinks|].
    intros [n|]; [lia|done].
Qed.

Lemma blockDepth_publisherRows (entries : list IntEntry) :
  childrenWithin 2 (publisherRow <$> entries).
Proof.
  induction entries as [|entry rest IH]; [constructor|].
  rewrite fmap_cons. constructor; [|exact IH]. cbn. lia.
Qed.

Lemma RenderNode_shallow (html_EscapeString : string -> string) (node : Node) :
  (blockDepth node <= 50)%nat ->
  exists page, RenderNode html_EscapeString node = Done page.
Proof.
  intros Hdepth. unfold RenderNode.
  destruct (Node_WriteTo_outcome html_EscapeString node "" 0 ltac:(lia))
    as [[_ ?]|(page & -> & _)]; [lia|eauto].
Qed.

Section Pages.

Context {semver : Semver}.
Context (DbGetVulnerabilitiesForPackages :
           list string -> result (list Vulnerability)).
Context (packagePool : string -> result PackageInfo).

Lemma resolved_consistent (v : Version) :
  resolved DbGetVulnerabilitiesForPackages packagePool v -> Version_consistent v.
Proof.
  induction 1 as [versionInfo time|fuel p parent parent' alsoDev _ IH Hrun
                 |parent parent' _ IH Hrun].
  - apply NewVersion_consistent.
  - revert Hrun. apply GatherDependencies_preserves; [| | |exact IH].
    + apply Version_appendError_consistent.
    + apply Version_append_consistent.
    + apply Version_create_consistent.
  - by eapply Version_GatherVulnerabilities_consistent.
Qed.

(** X17. The dependency table of the version page is built with
    [links[1:]], which panics for a dependency with an empty list of
    versions: [depTable] panics exactly when the map holds such a list.
    Resolution never records one, so for every aggregate that resolution
    produces the table is built, it is nil exactly when there are no
    dependencies, and it renders. The publishers table is built and
    renders for every version. *)
Theorem VersionView_tables (v : Version) :
  (VersionView_depTable v = Panic
   <-> exists name, Version_Dependencies v !! name = Some [])
  /\ (resolved DbGetVulnerabilitiesForPackages packagePool v ->
      exists depTable,
        VersionView_depTable v = Done depTable
        /\ (depTable = None <-> Version_Dependencies v = ∅)
        /\ forall node html_EscapeString,
             depTable = Some node ->
             exists page, RenderNode html_EscapeString node = Done page)
  /\ (exists pubTable,
        VersionView_pubTable v = Done pubTable
        /\ (pubTable = None <-> Version_Publishers v = ∅)
        /\ forall node html_EscapeString,
             pubTable = Some node ->
             exists page, RenderNode html_EscapeString node = Done page).
Proof.
  set (dependencies := Version_Dependencies v).
  assert (Hnames : forall name,
             name ∈ sortedDependencyNames dependencies
             <-> is_Some (dependencies !! name)).
  { intros name.
    assert (Hperm : sortedDependencyNames dependencies
                    ≡ₚ (map_to_list dependencies).*1).
    { apply (sort_Sort_Permutation String.ltb). }
    rewrite Hperm, list_elem_of_fmap. split.
    - intros ([k versions] & -> & Hin). apply elem_of_map_to_list in Hin. eauto.
    - intros [versions Hv]. exists (name, versions). split; [done|].
      by apply elem_of_map_to_list. }
  assert (Hempty : Exists (fun name => default [] (dependencies !! name) = [])
                     (sortedDependencyNames dependencies)
                   <-> exists name, dependencies !! name = Some []).
  { rewrite Exists_exists. split.
    - intros (name & [versions Hv]%Hnames & Hnil). exists name.
      rewrite Hv in Hnil. simpl in Hnil. by subst.
    - intros (name & Hv). exists name. split; [apply Hnames; eauto|].
      by rewrite Hv. }
  assert (Hsize : forall {A} (m : gmap string A),
             ~ 0 < Z.of_nat (size m) <-> m = ∅).
  { intros A m. rewrite <- map_size_empty_iff. lia. }
  assert (Hdep : VersionView_depTable v
                 = if decide (0 < Z.of_nat (size dependencies)) then
                     if decide (Exists
                                  (fun name => default [] (dependencies !! name) = [])
                                  (sortedDependencyNames dependencies))
                     then Panic
                     else Done (Some (Element "table" Block []
                                        (Some (Element "tr" Block []
                                                 [Some (Element "th" Block []
                                                          [Some (TextNode "name")]);
                                                  Some (Element "th" Block []
                                                          [Some (TextNode "versions")])])
                                         :: (dependencyRow dependencies
                                               <$> sortedDependencyNames dependencies))))
                   else Done None).
  { unfold VersionView_depTable. fold dependencies.
    destruct (decide (0 < Z.of_nat (size dependencies))); [|done].
    rewrite VersionView_dependencies_eq.
    destruct (decide (Exists _ _)); [done|]. cbn [mbind run_bind app].
    rewrite !H_th_string. cbn [mbind run_bind].
    rewrite H_tr_Node_Node. cbn [mbind run_bind].
    by rewrite H_table_Node_Nodes. }
  split; [|split].
  - rewrite Hdep, <- Hempty.
    destruct (decide (0 < Z.of_nat (size dependencies))) as [Hpos|Hpos].
    + destruct (decide (Exists _ _)); split; done.
    + split; [done|]. intros Hex. apply Hsize in Hpos.
      apply Exists_exists in Hex as (name & [versions Hv]%Hnames & _).
      rewrite Hpos, lookup_empty in Hv. done.
  - intros Hres. destruct (resolved_consistent v Hres) as (_ & _ & Hnonempty).
    rewrite Hdep.
    destruct (decide (0 < Z.of_nat (size dependencies))) as [Hpos|Hpos].
    + rewrite decide_False.
      * eexists. split; [done|]. split.
        -- split; [done|]. intros Hnil. apply Hsize in Hnil. done.
        -- intros node esc [= <-]. apply RenderNode_shallow.
           transitivity 3%nat; [|lia]. apply blockDepth_Block_le.
           constructor; [cbn; lia|]. apply blockDepth_dependencyRows.
      * rewrite Hempty. intros (name & Hv). by apply Hnonempty in Hv.
    + exists None. split; [done|]. split; [|done]. split; [|done].
      intros _. by apply Hsize.
  - unfold VersionView_pubTable.
    destruct (decide (0 < Z.of_nat (size (Version_Publishers v)))) as [Hpos|Hpos].
    + rewrite VersionView_publishers_eq. cbn [mbind run_bind app].
      rewrite !H_th_string. cbn [mbind run_bind].
      rewrite H_tr_Node_Node. cbn [mbind run_bind].
      rewrite H_table_Node_Nodes. cbn [mbind run_bind].
      eexists. split; [done|]. split.
      * split; [done|]. intros Hnil. apply Hsize in Hnil. done.
      * intros node esc [= <-]. apply RenderNode_shallow.
        transitivity 3%nat; [|lia]. apply blockDepth_Block_le.
        constructor; [cbn; lia|]. apply blockDepth_publisherRows.
    + exists None. split; [done|]. split; [|done]. split; [|done].
      intros _. by apply Hsize.
Qed.

End Pages.

Lemma VersionView_tables_witness :
  exists v node page,
    VersionInfo_GatherDependencies (semver := RefSemver.semver)
      Sample.packagePool 3 Sample.root_1_0_0 (NewVersion Sample.root_1_0_0 0) false
    = Some v
    /\ VersionView_depTable v = Done (Some node)
    /\ RenderNode id node = Done page.
Proof.
  destruct (VersionInfo_GatherDependencies (semver := RefSemver.semver)
              Sample.packagePool 3 Sample.root_1_0_0
              (NewVersion Sample.root_1_0_0 0) false) as [v|] eqn:Hrun;
    [|vm_compute in Hrun; discriminate].
  assert (Hres : resolved (semver := RefSemver.semver) Sample.dbOk
                   Sample.packagePool v).
  { eapply resolved_GatherDependencies; [apply resolved_NewVersion | exact Hrun]. }
  destruct (proj1 (proj2 (VersionView_tables (semver := RefSemver.semver)
                            Sample.dbOk Sample.packagePool v)) Hres)
    as (depTable & Htable & Hnil & Hrender).
  destruct depTable as [node|].
  - destruct (Hrender node id eq_refl) as [page Hpage]. by exists v, node, page.
  - exfalso. pose proof (proj1 Hnil eq_refl) as Hdeps.
    vm_compute in Hrun. injection Hrun as <-.
    apply (f_equal (fun m => m !! "dep")) in Hdeps. vm_compute in Hdeps. done.
Defined.

(** ** The spec parser comes back *)

Lemma run_post_bind {A B : Type} (r : run A) (f : A -> run B)
    (post : A -> Prop) (post' : B -> Prop) :
  run_post r post ->
  (forall a, post a -> run_post (f a) post') ->
  run_post (r ≫= f) post'.
Proof. destruct r; cbn; auto. Qed.

Lemma run_post_impl {A : Type} (r : run A) (post post' : A -> Prop) :
  run_post r post -> (forall a, post a -> post' a) -> run_post r post'.
Proof. destruct r; cbn; auto. Qed.

Lemma sp_follows_refl (sp : specParser) : sp_wf sp -> sp_follows sp sp.
Proof. intros (_ & ? & _). unfold sp_follows. split_and!; (done || lia). Qed.

Lemma sp_follows_trans (sp1 sp2 sp3 : specParser) :
  sp_follows sp1 sp2 -> sp_follows sp2 sp3 -> sp_follows sp1 sp3.
Proof.
  intros (Hh & Hn & Hi) (Hh' & Hn' & Hi'). unfold sp_follows.
  rewrite Hh', Hh, Hn', Hn. rewrite Hn in Hi'. split_and!; (done || lia).
Qed.

Lemma sp_follows_wf (sp sp' : specParser) :
  sp_wf sp -> sp_follows sp sp' -> sp_wf sp'.
Proof.
  intros (Hn & Hi & Hb) (Hh' & Hn' & Hi'). unfold sp_wf.
  rewrite Hh', Hn'. lia.
Qed.

Lemma sp_next_follows (sp : specParser) :
  sp_wf sp -> sp_more sp = true ->
  sp_follows sp (sp_next sp) /\ sp_i (sp_next sp) = sp_i sp + 1
  /\ sp_params (sp_next sp) = sp_params sp.
Proof.
  intros (Hn & Hi & Hb) Hmore. unfold sp_more in Hmore.
  apply Z.ltb_lt in Hmore.
  assert (Hadd : int_add (sp_i sp) 1 = sp_i sp + 1).
  { unfold int_add. apply wrap64_small. lia. }
  unfold sp_follows. cbn. rewrite Hadd. split_and!; (done || lia).
Qed.

Lemma String_get_Some (k : nat) (s : string) :
  (k < String.length s)%nat -> exists ch, String.get k s = Some ch.
Proof.
  revert k. induction s as [|c rest IH]; intros k Hk; cbn in Hk; [lia|].
  destruct k as [|k]; cbn; [eauto|]. apply IH. lia.
Qed.

(** [sp.cur()] inside the spec, or at its end. *)
Lemma sp_cur_wf (sp : specParser) :
  sp_n sp = Z.of_nat (String.length (sp_h sp)) ->
  0 <= sp_i sp ->
  exists ch, sp_cur sp = Done ch
             /\ (sp_n sp <= sp_i sp -> ch = Ascii.zero)
             /\ (sp_i sp < sp_n sp ->
                 String.get (Z.to_nat (sp_i sp)) (sp_h sp) = Some ch).
Proof.
  intros Hn Hi. unfold sp_cur.
  destruct (Z.leb_spec (sp_n sp) (sp_i sp)) as [Hend|Hin].
  - exists Ascii.zero. split; [done|]. split; [done|lia].
  - destruct (Z.ltb_spec (sp_i sp) 0); [lia|].
    destruct (String_get_Some (Z.to_nat (sp_i sp)) (sp_h sp)) as [ch Hch]; [lia|].
    rewrite Hch. exists ch. split; [done|]. split; [lia|done].
Qed.

Lemma sp_cur_more (sp : specParser) (ch : ascii) :
  sp_wf sp -> sp_cur sp = Done ch -> ch <> Ascii.zero -> sp_more sp = true.
Proof.
  intros (Hn & Hi & _) Hcur Hch.
  destruct (sp_cur_wf sp Hn ltac:(lia)) as (ch' & Hcur' & Hend & _).
  rewrite Hcur in Hcur'. injection Hcur' as <-.
  unfold sp_more. apply Z.ltb_lt.
  destruct (Z_lt_le_dec (sp_i sp) (sp_n sp)); [done|]. by apply Hend in l.
Qed.

Lemma sp_skip_post (sp : specParser) (ch : ascii) :
  sp_wf sp ->
  run_post (sp_skip sp ch)
    (fun sp' => sp_follows sp sp' /\ sp_i sp' = sp_i sp + 1
                /\ sp_params sp' = sp_params sp).
Proof.
  intros Hwf. unfold sp_skip.
  destruct (sp_more sp) eqn:Hmore; [|done]. cbn [negb].
  destruct Hwf as (Hn & Hi & Hb).
  destruct (sp_cur_wf sp Hn ltac:(lia)) as (cur & -> & _). cbn [mbind run_bind].
  destruct (negb (Ascii.eqb cur ch)); [done|].
  cbn. by apply sp_next_follows.
Qed.

(** The loops that advance while [sp.more()] and some further condition
    holds: [parseName_loop] and [parseAttr_plain]. *)
Lemma parseName_loop_post (rounds : nat) (sp : specParser) :
  sp_wf sp ->
  (Z.to_nat (sp_n sp - sp_i sp) < rounds)%nat ->
  run_post (parseName_loop rounds sp)
    (fun sp' => sp_follows sp sp' /\ sp_params sp' = sp_params sp).
Proof.
  revert sp. induction rounds as [|rounds IH]; intros sp Hwf Hrounds; [lia|].
  cbn [parseName_loop].
  destruct (sp_more sp) eqn:Hmore; [|split; [by apply sp_follows_refl|done]].
  destruct (sp_cur_wf sp (proj1 Hwf) ltac:(destruct Hwf as (_ & ? & _); lia))
    as (cur & -> & _).
  cbn [mbind run_bind].
  destruct (isLetter cur); [|split; [by apply sp_follows_refl|done]].
  destruct (sp_next_follows sp Hwf Hmore) as (Hfollows & Hi & Hparams).
  eapply run_post_impl.
  - apply IH; [by eapply sp_follows_wf|].
    destruct Hfollows as (_ & -> & _). rewrite Hi.
    unfold sp_more in Hmore. apply Z.ltb_lt in Hmore. lia.
  - intros sp' [Hsp' Hp']. split; [by eapply sp_follows_trans|congruence].
Qed.

Lemma parseAttr_plain_post (rounds : nat) (sp : specParser) :
  sp_wf sp ->
  (Z.to_nat (sp_n sp - sp_i sp) < rounds)%nat ->
  run_post (parseAttr_plain rounds sp)
    (fun sp' => sp_follows sp sp' /\ sp_params sp' = sp_params sp).
Proof.
  revert sp. induction rounds as [|rounds IH]; intros sp Hwf Hrounds; [lia|].
  cbn [parseAttr_plain].
  destruct (sp_more sp) eqn:Hmore; [|split; [by apply sp_follows_refl|done]].
  destruct (sp_cur_wf sp (proj1 Hwf) ltac:(destruct Hwf as (_ & ? & _); lia))
    as (cur & -> & _).
  cbn [mbind run_bind].
  destruct (negb _); [|split; [by apply sp_follows_refl|done]].
  destruct (sp_next_follows sp Hwf Hmore) as (Hfollows & Hi & Hparams).
  eapply run_post_impl.
  - apply IH; [by eapply sp_follows_wf|].
    destruct Hfollows as (_ & -> & _). rewrite Hi.
    unfold sp_more in Hmore. apply Z.ltb_lt in Hmore. lia.
  - intros sp' [Hsp' Hp']. split; [by eapply sp_follows_trans|congruence].
Qed.

Lemma parseName_post (sp : specParser) :
  sp_wf sp ->
  run_post (parseName sp)
    (fun r => sp_follows sp r.2 /\ sp_i sp < sp_i r.2
              /\ sp_params r.2 = sp_params sp).
Proof.
  intros Hwf. unfold parseName.
  destruct (sp_cur sp) as [cur| |] eqn:Hcur; cbn [mbind run_bind]; [|done|].
  2: { destruct (sp_cur_wf sp (proj1 Hwf) ltac:(destruct Hwf as (_ & ? & _); lia))
         as (ch & Hch & _). congruence. }
  destruct (isLetter cur) eqn:Hletter; [|done]. cbn [negb].
  assert (Hmore : sp_more sp = true).
  { eapply sp_cur_more; [done|exact Hcur|]. intros ->. done. }
  unfold sp_rounds. cbn [parseName_loop]. rewrite Hmore, Hcur.
  cbn [mbind run_bind]. rewrite Hletter.
  destruct (sp_next_follows sp Hwf Hmore) as (Hfollows & Hi & Hparams).
  eapply run_post_bind.
  - apply (parseName_loop_post _ (sp_next sp)); [by eapply sp_follows_wf|].
    destruct Hfollows as (_ & -> & _). rewrite Hi.
    unfold sp_more in Hmore. apply Z.ltb_lt in Hmore. lia.
  - intros sp' [Hsp' Hp']. cbn. split; [by eapply sp_follows_trans|].
    split; [|congruence]. destruct Hsp' as (_ & _ & ?). lia.
Qed.

Lemma parseSpec_loop_post (rounds : nat) (sp : specParser) (el : ElementData)
    (classes : list string) :
  sp_wf sp ->
  (Z.to_nat (sp_n sp - sp_i sp) < rounds)%nat ->
  run_post (parseSpec_loop rounds sp el classes)
    (fun r => sp_follows sp r.1.1 /\ sp_params r.1.1 = sp_params sp
              /\ (sp_more sp = true -> sp_cur sp <> Done " "%char ->
                  sp_i sp < sp_i r.1.1)).
Proof.
  revert sp el classes.
  induction rounds as [|rounds IH]; intros sp el classes Hwf Hrounds; [lia|].
  cbn [parseSpec_loop].
  destruct (sp_more sp) eqn:Hmore;
    [|split; [by apply sp_follows_refl|by split]].
  destruct (sp_cur_wf sp (proj1 Hwf) ltac:(destruct Hwf as (_ & ? & _); lia))
    as (cur & Hcur & _).
  rewrite Hcur. cbn [mbind run_bind].
  destruct (Ascii.eqb_spec cur " ") as [Hsp|Hsp]; cbn [negb].
  { split; [by apply sp_follows_refl|]. split; [done|]. intros _ Hne.
    by subst. }
  destruct (sp_next_follows sp Hwf Hmore) as (Hfollows & Hi & Hparams).
  assert (Hwf1 : sp_wf (sp_next sp)) by by eapply sp_follows_wf.
  assert (Hstep : forall (r : string * specParser),
             sp_follows (sp_next sp) r.2 /\ sp_i (sp_next sp) < sp_i r.2
             /\ sp_params r.2 = sp_params (sp_next sp) ->
             forall el' classes',
               run_post (parseSpec_loop rounds r.2 el' classes')
                 (fun r' => sp_follows sp r'.1.1 /\ sp_params r'.1.1 = sp_params sp
                            /\ (true = true -> Done cur <> Done " "%char ->
                                sp_i sp < sp_i r'.1.1))).
  { intros [name sp1] (Hf1 & Hi1 & Hp1) el' classes'. cbn [snd] in *.
    eapply run_post_impl.
    - apply IH; [by eapply sp_follows_wf|].
      destruct Hf1 as (_ & -> & _). destruct Hfollows as (_ & -> & _).
      unfold sp_more in Hmore. apply Z.ltb_lt in Hmore. lia.
    - intros [[sp2 el2] classes2] (Hf2 & Hp2 & _). cbn [fst] in *.
      split; [eapply sp_follows_trans; [exact Hfollows|];
              by eapply sp_follows_trans|].
      split; [congruence|]. intros _ _. destruct Hf2 as (_ & _ & ?). lia. }
  destruct (Ascii.eqb cur ".").
  - eapply run_post_bind; [by apply parseName_post|].
    intros [name sp1] Hr. exact (Hstep (name, sp1) Hr _ _).
  - destruct (Ascii.eqb cur "#"); [|done].
    eapply run_post_bind; [by apply parseName_post|].
    intros [name sp1] Hr. exact (Hstep (name, sp1) Hr _ _).
Qed.

Lemma parseSpec_post (sp : specParser) :
  sp_wf sp ->
  sp_more sp = true ->
  run_post (parseSpec sp)
    (fun r => sp_follows sp r.1 /\ sp_i sp < sp_i r.1
              /\ sp_params r.1 = sp_params sp).
Proof.
  intros Hwf Hmore. unfold parseSpec.
  destruct (sp_cur_wf sp (proj1 Hwf) ltac:(destruct Hwf as (_ & ? & _); lia))
    as (first & Hcur & _).
  rewrite Hcur. cbn [mbind run_bind].
  destruct (Ascii.eqb first "." || Ascii.eqb first "#") eqn:Hfirst.
  - cbn [mbind run_bind].
    destruct (newElement "div") as [el| |] eqn:Hel; cbn [mbind run_bind];
      [|done|by vm_compute in Hel].
    eapply run_post_bind.
    + apply parseSpec_loop_post; [done|unfold sp_rounds; lia].
    + intros [[sp1 el1] classes1] (Hf1 & Hp1 & Hprogress). cbn [fst snd] in *.
      cbn [run_post fst snd]. split; [done|]. split; [|done].
      apply Hprogress; [done|].
      rewrite Hcur. intros [= ->]. done.
  - eapply run_post_bind; [by apply parseName_post|].
    intros [tag sp1] (Hf1 & Hi1 & Hp1). cbn [snd] in *.
    destruct (newElement tag) as [el| |] eqn:Hel; cbn [mbind run_bind];
      [|done|unfold newElement in Hel; by destruct (tagToType !! tag)].
    eapply run_post_bind.
    + apply parseSpec_loop_post; [by eapply sp_follows_wf|unfold sp_rounds; lia].
    + intros [[sp2 el2] classes2] (Hf2 & Hp2 & _). cbn [fst snd] in *.
      cbn [run_post fst snd].
      split; [by eapply sp_follows_trans|]. split; [|congruence].
      destruct Hf2 as (_ & _ & ?). lia.
Qed.

(** One round of the scan for the closing quote, from a place at or
    after the start of the spec. *)
Lemma sp_next_scan (sp : specParser) :
  0 <= sp_i sp < 2 ^ 63 ->
  (sp_i sp + 1 < 2 ^ 63 /\ sp_i (sp_next sp) = sp_i sp + 1)
  \/ (sp_i sp + 1 = 2 ^ 63 /\ sp_i (sp_next sp) = - 2 ^ 63).
Proof.
  intros Hi. cbn [sp_next sp_i]. unfold int_add.
  destruct (Z_lt_le_dec (sp_i sp + 1) (2 ^ 63)) as [Hlt|Hge].
  - left. split; [done|]. apply wrap64_small. lia.
  - right. split; [lia|]. replace (sp_i sp + 1) with (2 ^ 63) by lia.
    by vm_compute.
Qed.

Lemma parseAttr_quoted_post (rounds : nat) (sp : specParser) :
  sp_n sp = Z.of_nat (String.length (sp_h sp)) ->
  sp_i sp < 2 ^ 63 ->
  (0 < rounds)%nat ->
  (0 <= sp_i sp -> 2 ^ 63 - sp_i sp < Z.of_nat rounds) ->
  run_post (parseAttr_quoted rounds sp)
    (fun sp' => sp_h sp' = sp_h sp /\ sp_n sp' = sp_n sp
                /\ sp_params sp' = sp_params sp
                /\ 0 <= sp_i sp /\ sp_i sp <= sp_i sp' < sp_n sp).
Proof.
  revert sp.
  induction rounds as [|rounds IH]; intros sp Hn Hi Hpos Hrounds; [lia|].
  cbn [parseAttr_quoted].
  destruct (Z_lt_le_dec (sp_i sp) 0) as [Hneg|Hnonneg].
  { unfold sp_cur. destruct (Z.leb_spec (sp_n sp) (sp_i sp)); [lia|].
    destruct (Z.ltb_spec (sp_i sp) 0); [done|lia]. }
  destruct (sp_cur_wf sp Hn Hnonneg) as (cur & -> & Hend & Hin).
  cbn [mbind run_bind].
  destruct (Ascii.eqb_spec cur "'") as [->|Hcur]; cbn [negb].
  - cbn [run_post]. split_and!; try done; try lia.
    destruct (Z_lt_le_dec (sp_i sp) (sp_n sp)); [done|]. by apply Hend in l.
  - destruct (sp_next_scan sp ltac:(lia)) as [[Hlt Hnext]|[Heq Hnext]].
    + eapply run_post_impl.
      * apply IH; cbn [sp_next sp_h sp_n]; [done|lia|lia|].
        fold (sp_i (sp_next sp)). lia.
      * intros sp' (Hh' & Hn' & Hp' & _ & Hi').
        cbn [sp_next sp_h sp_n sp_params] in *. split_and!; try done; lia.
    + eapply run_post_impl.
      * apply IH; cbn [sp_next sp_h sp_n]; [done|lia|lia|].
        fold (sp_i (sp_next sp)). lia.
      * intros sp' (_ & _ & _ & Hge & _). lia.
Qed.

(** Without a closing quote the scan leaves the spec, goes on over the
    zero bytes that [sp.cur()] reports there, and ends in the panic of
    [sp.h[sp.i]] once [sp.i] has wrapped round. *)
Lemma parseAttr_quoted_unclosed (rounds : nat) (sp : specParser) :
  sp_n sp = Z.of_nat (String.length (sp_h sp)) ->
  0 <= sp_i sp < 2 ^ 63 ->
  2 ^ 63 - sp_i sp < Z.of_nat rounds ->
  sp_unclosed sp ->
  parseAttr_quoted rounds sp = Panic.
Proof.
  revert sp.
  induction rounds as [|rounds IH]; intros sp Hn Hi Hrounds Hopen; [lia|].
  cbn [parseAttr_quoted].
  destruct (sp_cur_wf sp Hn ltac:(lia)) as (cur & -> & Hend & Hin).
  cbn [mbind run_bind].
  destruct (Ascii.eqb_spec cur "'") as [->|Hcur]; cbn [negb].
  { exfalso. destruct (Z_lt_le_dec (sp_i sp) (sp_n sp)) as [Hlt|Hge].
    - by apply (Hopen (Z.to_nat (sp_i sp)) ltac:(lia)), Hin.
    - by apply Hend in Hge. }
  destruct (sp_next_scan sp Hi) as [[Hlt Hnext]|[Heq Hnext]].
  - apply IH; cbn [sp_next sp_h sp_n]; [done| | |].
    + fold (sp_i (sp_next sp)). lia.
    + fold (sp_i (sp_next sp)). lia.
    + intros j Hj. apply Hopen. rewrite Hnext in Hj. lia.
  - destruct rounds as [|rounds]; [lia|]. cbn [parseAttr_quoted].
    unfold sp_cur. rewrite Hnext. cbn [sp_next sp_n].
    destruct (Z.leb_spec (sp_n sp) (- 2 ^ 63)); [lia|].
    destruct (Z.ltb_spec (- 2 ^ 63) 0); [done|lia].
Qed.

Lemma parseAttr_post (sp : specParser) :
  sp_wf sp ->
  run_post (parseAttr sp) (fun r => sp_follows sp r.2 /\ sp_i sp < sp_i r.2).
Proof.
  intros Hwf. unfold parseAttr.
  eapply run_post_bind; [by apply parseName_post|].
  intros [key sp1] (Hf1 & Hi1 & _). cbn [fst snd] in *.
  assert (Hwf1 : sp_wf sp1) by by eapply sp_follows_wf.
  eapply run_post_bind; [by apply sp_skip_post|].
  intros sp2 (Hf2 & Hi2 & _).
  assert (Hwf2 : sp_wf sp2) by by eapply sp_follows_wf.
  assert (Hf02 : sp_follows sp sp2) by by eapply sp_follows_trans.
  destruct (sp_cur_wf sp2 (proj1 Hwf2) ltac:(destruct Hwf2 as (_ & ? & _); lia))
    as (cur & Hcur & _).
  rewrite Hcur. cbn [mbind run_bind].
  destruct (Ascii.eqb_spec cur "'") as [Hq|_].
  { assert (Hmore2 : sp_more sp2 = true).
    { eapply sp_cur_more; [done|exact Hcur|]. by rewrite Hq. }
    destruct (sp_next_follows sp2 Hwf2 Hmore2) as (Hf3 & Hi3 & _).
    set (sp3 := sp_next sp2) in *.
    assert (Hwf3 : sp_wf sp3) by by eapply sp_follows_wf.
    cbv zeta. eapply run_post_bind.
    - destruct Hwf3 as (Hn3 & Hi3' & Hb3).
      apply parseAttr_quoted_post; [done|lia|unfold sp_scanRounds; lia|].
      intros _. unfold sp_scanRounds. lia.
    - intros sp4 (Hh4 & Hn4 & _ & _ & Hi4).
      assert (Hf34 : sp_follows sp3 sp4).
      { unfold sp_follows. split_and!; (done || lia). }
      assert (Hwf4 : sp_wf sp4) by by eapply sp_follows_wf.
      eapply run_post_bind; [by apply sp_skip_post|].
      intros sp5 (Hf5 & Hi5 & _). cbn [run_post snd]. split.
      + eapply sp_follows_trans; [exact Hf02|].
        eapply sp_follows_trans; [exact Hf3|]. by eapply sp_follows_trans.
      + destruct Hf34 as (_ & _ & ?). lia. }
  cbn [mbind run_bind].
  destruct (Ascii.eqb_spec cur "%") as [Hpercent|_].
  - assert (Hmore2 : sp_more sp2 = true).
    { eapply sp_cur_more; [done|exact Hcur|]. by rewrite Hpercent. }
    destruct (sp_next_follows sp2 Hwf2 Hmore2) as (Hf3 & Hi3 & _).
    set (sp3 := sp_next sp2) in *.
    assert (Hwf3 : sp_wf sp3) by by eapply sp_follows_wf.
    cbv zeta.
    assert (Hlast : forall params,
               sp_more sp3 = true ->
               sp_follows sp (sp_setParams (sp_next sp3) params)
               /\ sp_i sp < sp_i (sp_setParams (sp_next sp3) params)).
    { intros params Hmore3.
      destruct (sp_next_follows sp3 Hwf3 Hmore3) as (Hf4 & Hi4 & _).
      split.
      - eapply sp_follows_trans; [exact Hf02|].
        eapply sp_follows_trans; [exact Hf3|]. exact Hf4.
      - cbn [sp_setParams sp_i]. change (int_add (sp_i sp3) 1) with (sp_i (sp_next sp3)).
        lia. }
    destruct (sp_cur_wf sp3 (proj1 Hwf3) ltac:(destruct Hwf3 as (_ & ? & _); lia))
      as (spec & Hspec & _).
    rewrite Hspec. cbn [mbind run_bind].
    destruct (Ascii.eqb_spec spec "s") as [Hs|_].
    + assert (Hmore3 : sp_more sp3 = true).
      { eapply sp_cur_more; [done|exact Hspec|]. by rewrite Hs. }
      destruct (sp_params (sp_next sp3)) as [|[| | | | | | |] params]; try done.
      cbn [run_post snd]. by apply Hlast.
    + destruct (Ascii.eqb_spec spec "d") as [Hd|_]; [|done].
      assert (Hmore3 : sp_more sp3 = true).
      { eapply sp_cur_more; [done|exact Hspec|]. by rewrite Hd. }
      destruct (sp_params (sp_next sp3)) as [|[| | | | | | |] params]; try done.
      cbn [run_post snd]. by apply Hlast.
  - cbv zeta. eapply run_post_bind.
    + apply parseAttr_plain_post; [done|unfold sp_rounds; lia].
    + intros sp3 (Hf3 & _). cbn [run_post snd]. split.
      * by eapply sp_follows_trans.
      * destruct Hf3 as (_ & _ & ?). lia.
Qed.

Lemma H_attrs_post (rounds : nat) (sp : specParser) (cur : ElementData) :
  sp_wf sp ->
  (Z.to_nat (sp_n sp - sp_i sp) < rounds)%nat ->
  run_post (H_attrs rounds sp cur) (fun r => sp_follows sp r.1).
Proof.
  revert sp cur.
  induction rounds as [|rounds IH]; intros sp cur Hwf Hrounds; [lia|].
  cbn [H_attrs].
  destruct (sp_more sp); [|by apply sp_follows_refl].
  destruct (sp_cur_wf sp (proj1 Hwf) ltac:(destruct Hwf as (_ & ? & _); lia))
    as (ch & -> & _).
  cbn [mbind run_bind].
  destruct (negb (Ascii.eqb ch ">")); [|by apply sp_follows_refl].
  eapply run_post_bind; [by apply parseAttr_post|].
  intros [attr sp1] (Hf1 & Hi1). cbn [fst snd] in *.
  assert (Hwf1 : sp_wf sp1) by by eapply sp_follows_wf.
  eapply (run_post_bind _ _ (fun sp2 => sp_follows sp1 sp2)).
  { destruct (sp_more sp1); [|by apply sp_follows_refl].
    eapply run_post_impl; [by apply sp_skip_post|]. by intros sp2 (? & _). }
  intros sp2 Hf2. eapply run_post_impl.
  - apply IH.
    + by eapply sp_follows_wf.
    + destruct Hf2 as (_ & -> & ?). destruct Hf1 as (_ & -> & ?). lia.
  - intros [sp3 cur3] Hf3. cbn [fst] in *.
    eapply sp_follows_trans; [exact Hf1|]. by eapply sp_follows_trans.
Qed.

Lemma H_specs_post (rounds : nat) (sp : specParser) (chain : list ElementData) :
  sp_wf sp ->
  (Z.to_nat (sp_n sp - sp_i sp) < rounds)%nat ->
  run_post (H_specs rounds sp chain) (fun r => sp_follows sp r.1).
Proof.
  revert sp chain.
  induction rounds as [|rounds IH]; intros sp chain Hwf Hrounds; [lia|].
  cbn [H_specs].
  destruct (sp_more sp) eqn:Hmore; [|by apply sp_follows_refl].
  eapply run_post_bind; [by apply parseSpec_post|].
  intros [sp1 el] (Hf1 & Hi1 & _). cbn [fst snd] in *.
  assert (Hwf1 : sp_wf sp1) by by eapply sp_follows_wf.
  eapply (run_post_bind _ _ (fun sp2 => sp_follows sp1 sp2)).
  { destruct (sp_more sp1); [|by apply sp_follows_refl].
    eapply run_post_impl; [by apply sp_skip_post|]. by intros sp2 (? & _). }
  intros sp2 Hf2.
  assert (Hwf2 : sp_wf sp2) by by eapply sp_follows_wf.
  eapply run_post_bind.
  { apply H_attrs_post; [done|unfold sp_rounds; lia]. }
  intros [sp3 cur] Hf3. cbn [fst snd] in *.
  assert (Hwf3 : sp_wf sp3) by by eapply sp_follows_wf.
  eapply (run_post_bind _ _ (fun sp4 => sp_follows sp3 sp4)).
  { destruct (sp_more sp3); [|by apply sp_follows_refl].
    eapply run_post_bind; [by apply sp_skip_post|].
    intros sp4 (Hf4 & _). eapply run_post_impl.
    - apply sp_skip_post. by eapply sp_follows_wf.
    - intros sp5 (Hf5 & _). by eapply sp_follows_trans. }
  intros sp4 Hf4.
  assert (Hf04 : sp_follows sp sp4).
  { eapply sp_follows_trans; [exact Hf1|].
    eapply sp_follows_trans; [exact Hf2|]. by eapply sp_follows_trans. }
  assert (Hi4 : sp_i sp < sp_i sp4).
  { destruct Hf2 as (_ & _ & ?), Hf3 as (_ & _ & ?), Hf4 as (_ & _ & ?). lia. }
  eapply run_post_impl.
  - apply IH.
    + by eapply sp_follows_wf.
    + destruct Hf04 as (_ & -> & ?). lia.
  - intros [sp5 chain5] Hf5. cbn [fst] in *. by eapply sp_follows_trans.
Qed.

Lemma Element_Add_post (t : ElementData) (params : list Param) :
  run_post (Element_Add t params) (fun _ => True).
Proof.
  revert t. induction params as [|[| | | | | | |] rest IH]; intros t;
    cbn [Element_Add]; try done; apply IH.
Qed.

Lemma H_post (h : string) (p : list Param) :
  Z.of_nat (String.length h) < 2 ^ 63 ->
  run_post (H h p) (fun _ => True).
Proof.
  intros Hlen. unfold H.
  set (sp := {| sp_h := h; sp_i := 0; sp_n := Z.of_nat (String.length h);
                sp_params := p |}).
  assert (Hwf : sp_wf sp).
  { unfold sp_wf. cbn. lia. }
  eapply (run_post_bind _ _ (fun _ => True)).
  - destruct (Z.of_nat (String.length h) =? 0).
    + by vm_compute.
    + eapply run_post_impl; [|done].
      apply H_specs_post; [done|unfold sp_rounds; lia].
  - intros [sp1 [|cur outer]] _; [done|].
    eapply run_post_bind; [apply Element_Add_post|]. done.
Qed.
